(** * p1x5ynth9000: the per-frame sonification loop

    A shallow embedding of the two variants of the instrument shipped in the
    repository:

    - [AudioVisualizer] (src/AudioVisualizer.svelte): continuous glide,
      cursor that wraps, voice pool resized in place;
    - [App] (app.sveltep): discrete onsets rate-limited by a minimum spacing,
      cursor that bounces, scale-quantized pitch.

    Numeric model.  A JavaScript number is an exact rational ([Q]); [None]
    stands for [NaN] (and for [undefined] once it has been coerced to a
    number).  [Math.floor] is [Qfloor].  [Math.pow 2 e] is not rational, so a
    frequency is kept as the pair (base, exponent) and read in the reals by
    [Tone.Hz].  Calls into the platform (canvas, Tone.js clock and pitch
    parser) are arguments of the tick functions. *)

From Stdlib Require Import ZArith QArith Qround Qminmax Qreals.
From Stdlib Require Import String.
From Stdlib Require Import Reals Rpower Psatz List Bool Sorted.
Import ListNotations.

Local Open Scope Z_scope.

(** ** JavaScript values *)

Module JS.

(** A number, [None] being NaN. *)
Definition num := option Q.

(** An integral number (the result of [Math.floor]), [None] being NaN. *)
Definition int := option Z.

Definition lift1 {A B} (f : A -> B) (a : option A) : option B :=
  match a with Some x => Some (f x) | None => None end.

Definition lift2 {A B C} (f : A -> B -> C) (a : option A) (b : option B)
  : option C :=
  match a, b with Some x, Some y => Some (f x y) | _, _ => None end.

(** [arr[i]]: [undefined] when [i] is not an index of the array. *)
Definition get {A} (arr : list A) (i : Z) : option A :=
  if i <? 0 then None else nth_error arr (Z.to_nat i).

(** [arr[i]] when the subscript itself may be NaN. *)
Definition get_int {A} (arr : list A) (i : int) : option A :=
  match i with Some k => get arr k | None => None end.

(** [arr[i] = v] for an existing index. *)
Fixpoint set {A} (arr : list A) (i : nat) (v : A) : list A :=
  match arr, i with
  | [], _ => []
  | _ :: t, O => v :: t
  | h :: t, S k => h :: set t k v
  end.

(** [a >= b] and [a < b] on finite numbers. *)
Definition geb (a b : Q) : bool := Qle_bool b a.
Definition ltb (a b : Q) : bool := negb (Qle_bool b a).

(** [Math.min], [Math.max]: NaN when either argument is NaN. *)
Definition min (a b : num) : num := lift2 Qmin a b.
Definition max (a b : num) : num := lift2 Qmax a b.

(** [Math.max(0, Math.min(hi, v))] on integral numbers. *)
Definition clamp (hi v : Z) : Z := Z.max 0 (Z.min hi v).

End JS.

(** ** The part of Tone.js the program drives *)

Module Tone.

Inductive OscillatorType := sine | square | sawtooth | triangle.

(** One [Tone.Synth]: the fields the program writes. *)
Record Synth := mkSynth {
  volume : Q;                     (* synth.volume.value, dB *)
  oscillator : OscillatorType;    (* synth.oscillator.type *)
  attack : JS.num;                (* envelope.attack *)
  release : JS.num;               (* envelope.release *)
  sounding : bool                 (* attacked and not yet released *)
}.

(** [new Tone.Synth()]: the library's defaults. *)
Definition new_Synth : Synth :=
  {| volume := 0; oscillator := triangle;
     attack := Some (5 # 1000)%Q; release := Some 1%Q; sounding := false |}.

Definition set_volume (v : Q) (s : Synth) : Synth :=
  {| volume := v; oscillator := oscillator s; attack := attack s;
     release := release s; sounding := sounding s |}.

Definition set_oscillator (o : OscillatorType) (s : Synth) : Synth :=
  {| volume := volume s; oscillator := o; attack := attack s;
     release := release s; sounding := sounding s |}.

Definition set_envelope (a r : JS.num) (s : Synth) : Synth :=
  {| volume := volume s; oscillator := oscillator s; attack := a;
     release := r; sounding := sounding s |}.

Definition triggerAttack (s : Synth) : Synth :=
  {| volume := volume s; oscillator := oscillator s; attack := attack s;
     release := release s; sounding := true |}.

Definition triggerRelease (s : Synth) : Synth :=
  {| volume := volume s; oscillator := oscillator s; attack := attack s;
     release := release s; sounding := false |}.

(** A frequency [base * Math.pow(2, exponent)]. *)
Record Freq := mkFreq { base : Q; exponent : Q }.

(** Its value in Hz. *)
Definition Hz (f : Freq) : R :=
  (Q2R (base f) * Rpower 2 (Q2R (exponent f)))%R.

End Tone.

(** ** Pixel buffers *)

(** [ImageData.data]: four channels per pixel, row-major. *)
Record ImageData := mkImageData { data : list Z }.

(** What [ctx.getImageData(0, 0, w, h)] guarantees about its result. *)
Definition frame_ok (w h : Z) (img : ImageData) : Prop :=
  Z.of_nat (length (data img)) = 4 * w * h /\
  Forall (fun c => 0 <= c <= 255) (data img).

(** [data[i] / 255]: NaN when the read is [undefined]. *)
Definition channel (img : ImageData) (i : Z) : JS.num :=
  JS.lift1 (fun c => inject_Z c / 255)%Q (JS.get (data img) i).

(** A frame of two by two pixels: white at (1, 0), black elsewhere. *)
Definition checker : ImageData :=
  mkImageData [0; 0; 0; 255;  255; 255; 255; 255;
               0; 0; 0; 255;  0; 0; 0; 255].

(** ** src/AudioVisualizer.svelte *)

Module AudioVisualizer.

Import Tone.

Inductive PitchClass := C | Cs | D | Ds | E | F | Fs | G | Gs | A | As | B.

Definition noteFrequencies (n : PitchClass) : Q :=
  match n with
  | C => 26163 # 100 | Cs => 27718 # 100 | D => 29366 # 100
  | Ds => 31113 # 100 | E => 32963 # 100 | F => 34923 # 100
  | Fs => 36999 # 100 | G => 39200 # 100 | Gs => 41530 # 100
  | A => 44000 # 100 | As => 46616 # 100 | B => 49388 # 100
  end.

(** The value of [inputType]; [other] is any string the [else] branch of
    [updateAudio] would receive. *)
Inductive InputType := image | video | webcam | screen | other.

Record Controls := mkControls {
  volume : Q;
  octave : Z;
  baseNote : PitchClass;
  cursorSpeed : Q;
  oscillatorType : OscillatorType;
  voiceCount : nat
}.

(** The [<video>] element: the two fields the loop reads. *)
Record Video := mkVideo { videoWidth : Z; videoHeight : Z }.

Record State := mkState {
  inputType : InputType;
  imageData : option ImageData;
  videoElement : option Video;
  canvas_width : Z;
  canvas_height : Z;
  cursorPosition : Q;
  isPlaying : bool;
  controls : Controls;
  synths : list Synth
}.

(** What one call leaves behind on the canvas, the audio engine and the
    scheduler, in program order. *)
Inductive Effect :=
| PutImageData (img : ImageData)
| DrawVideo (w h : Z)
| RampTo (i : nat) (frequency : option Freq) (glide now : Q)
| FillCursor (x : Q) (h : Z)
| DrawPoint (x y : Z)
| RequestAnimationFrame.

(** *** The voice pool *)

(** [while (synths.length > value) { synths.pop().dispose() }] *)
Fixpoint pop_while (fuel value : nat) (pool : list Synth) : list Synth :=
  match fuel with
  | O => pool
  | S fuel' =>
      if (value <? length pool)%nat
      then pop_while fuel' value (removelast pool)
      else pool
  end.

(** The synth built by one turn of the growing loop. *)
Definition grown_synth (c : Controls) (playing : bool) : Synth :=
  let synth := new_Synth in
  let synth := set_volume (volume c) synth in
  let synth := set_oscillator (oscillatorType c) synth in
  if playing then triggerAttack synth else synth.

(** [while (synths.length < value) { ...; synths.push(synth) }] *)
Fixpoint push_while (fuel value : nat) (c : Controls) (playing : bool)
    (pool : list Synth) : list Synth :=
  match fuel with
  | O => pool
  | S fuel' =>
      if (length pool <? value)%nat
      then push_while fuel' value c playing (pool ++ [grown_synth c playing])
      else pool
  end.

(** Each loop moves the length one step towards [value], so [length pool]
    turns of the first and [value] turns of the second reach the exit
    tests (lemmas [pop_while_exit] and [push_while_exit]). *)
Definition updateVoiceCount (value : nat) (st : State) : State :=
  let pool := pop_while (length (synths st)) value (synths st) in
  let pool := push_while value value (controls st) (isPlaying st) pool in
  {| inputType := inputType st; imageData := imageData st;
     videoElement := videoElement st; canvas_width := canvas_width st;
     canvas_height := canvas_height st;
     cursorPosition := cursorPosition st; isPlaying := isPlaying st;
     controls := controls st; synths := pool |}.

(** [updateVolume], [updateOscillatorType] *)
Definition updateVolume (value : Q) (pool : list Synth) : list Synth :=
  map (set_volume value) pool.

Definition updateOscillatorType (value : OscillatorType)
    (pool : list Synth) : list Synth :=
  map (set_oscillator value) pool.

(** The component as declared, and as [onMount] leaves it: the pool holds
    [voiceCount] synths with the library's defaults.  The canvas has the
    size a browser gives an unsized one. *)
Definition initial_controls : Controls :=
  {| volume := -10; octave := 4; baseNote := C; cursorSpeed := 1;
     oscillatorType := sine; voiceCount := 4 |}.

Definition mounted : State :=
  {| inputType := image; imageData := None;
     videoElement := Some (mkVideo 0 0);
     canvas_width := 300; canvas_height := 150;
     cursorPosition := 0; isPlaying := false;
     controls := initial_controls;
     synths := repeat new_Synth (voiceCount initial_controls) |}.

(** *** One tick: [updateAudio] *)

(** The frame dimensions and the drawing call, or [None] on the early
    returns. *)
Definition source (st : State) : option (Z * Z * Effect) :=
  match inputType st with
  | image =>
      match imageData st with
      | None => None
      | Some img =>
          Some (canvas_width st, canvas_height st, PutImageData img)
      end
  | video | webcam | screen =>
      match videoElement st with
      | None => None
      | Some v =>
          if videoWidth v =? 0 then None
          else Some (videoWidth v, videoHeight v,
                     DrawVideo (videoWidth v) (videoHeight v))
      end
  | other => None
  end.

(** [Math.floor(sourceHeight / controls.voiceCount * (i + 0.5))] *)
Definition sample_y (sourceHeight : Z) (voices i : nat) : Z :=
  Qfloor (inject_Z sourceHeight / inject_Z (Z.of_nat voices)
          * (inject_Z (Z.of_nat i) + (1 # 2)))%Q.

(** [(r + g + b) / 3] at pixel [(x, y)], read without any bounds test. *)
Definition rgba (sourceWidth : Z) (img : ImageData) (x y : Z)
  : JS.num * JS.num * JS.num * JS.num :=
  let index := (y * sourceWidth + x) * 4 in
  (channel img index, channel img (index + 1),
   channel img (index + 2), channel img (index + 3)).

Definition colorValue (sourceWidth : Z) (img : ImageData) (x y : Z)
  : JS.num :=
  let '(r, g, b, _) := rgba sourceWidth img x y in
  JS.lift1 (fun s => s / 3)%Q (JS.lift2 Qplus (JS.lift2 Qplus r g) b).

(** [noteFrequencies[baseNote] * Math.pow(2, octave - 4 + colorValue)] *)
Definition frequency (c : Controls) (value : JS.num) : option Freq :=
  JS.lift1
    (fun v => mkFreq (noteFrequencies (baseNote c))
                     (inject_Z (octave c) - 4 + v)%Q)
    value.

(** What the body of the [for] loop computes for voice [i]. *)
Definition voice (st : State) (w h : Z) (img : ImageData) (i : nat)
  : Z * Z * option Freq :=
  let x := Qfloor (cursorPosition st) in
  let y := sample_y h (voiceCount (controls st)) i in
  (x, y, frequency (controls st) (colorValue w img x y)).

Definition voices (st : State) (w h : Z) (img : ImageData)
  : list (Z * Z * option Freq) :=
  map (voice st w h img) (seq 0 (voiceCount (controls st))).

(** [if (synths[i]) synths[i].frequency.rampTo(frequency, 0.1, now)] *)
Definition ramps (pool : list Synth) (now : Q)
    (vs : list (Z * Z * option Freq)) : list Effect :=
  concat
    (map (fun '(i, (_, _, f)) =>
            match nth_error pool i with
            | Some _ => [RampTo i f (1 # 10) now]
            | None => []
            end)
         (combine (seq 0 (length vs)) vs)).

(** [cursorPosition += cursorSpeed; if (cursorPosition >= sourceWidth)
    cursorPosition = 0] *)
Definition advance (sourceWidth : Z) (speed position : Q) : Q :=
  let position := (position + speed)%Q in
  if JS.geb position (inject_Z sourceWidth) then 0%Q else position.

(** [updateAudio].  [now] is [Tone.now()] and [captured] is what
    [ctx.getImageData(0, 0, sourceWidth, sourceHeight)] returns. *)
Definition updateAudio (now : Q) (captured : ImageData) (st : State)
  : State * list Effect :=
  match source st with
  | None => (st, [])
  | Some (sourceWidth, sourceHeight, draw) =>
      let samplePoints := voices st sourceWidth sourceHeight captured in
      let position :=
        advance sourceWidth (cursorSpeed (controls st))
                (cursorPosition st) in
      ({| inputType := inputType st; imageData := Some captured;
          videoElement := videoElement st;
          canvas_width :=
            match inputType st with
            | image => canvas_width st | _ => sourceWidth end;
          canvas_height :=
            match inputType st with
            | image => canvas_height st | _ => sourceHeight end;
          cursorPosition := position; isPlaying := isPlaying st;
          controls := controls st; synths := synths st |},
       draw :: ramps (synths st) now samplePoints
         ++ FillCursor position sourceHeight
         :: map (fun '(x, y, _) => DrawPoint x y) samplePoints
         ++ [RequestAnimationFrame])
  end.

(** [startAudio]: every synth takes the shared settings and starts to
    sound, and the first tick is requested. *)
Definition startAudio (st : State) : State * list Effect :=
  ({| inputType := inputType st; imageData := imageData st;
      videoElement := videoElement st; canvas_width := canvas_width st;
      canvas_height := canvas_height st;
      cursorPosition := cursorPosition st; isPlaying := isPlaying st;
      controls := controls st;
      synths :=
        map (fun synth =>
               triggerAttack
                 (set_volume (volume (controls st))
                    (set_oscillator (oscillatorType (controls st)) synth)))
            (synths st) |},
   [RequestAnimationFrame]).

(** The webcam selected without a stream (not started yet, or permission
    denied: [videoWidth] is 0) and play pressed: [togglePlay] has run
    [startAudio] and set [isPlaying]. *)
Definition no_stream : State :=
  {| inputType := webcam; imageData := None;
     videoElement := Some (mkVideo 0 0);
     canvas_width := 300; canvas_height := 150;
     cursorPosition := 0; isPlaying := true;
     controls := initial_controls;
     synths := synths (fst (startAudio mounted)) |}.

(** The image input playing with no image data. *)
Definition no_image : State :=
  {| inputType := image; imageData := None;
     videoElement := Some (mkVideo 0 0);
     canvas_width := 300; canvas_height := 150;
     cursorPosition := 0; isPlaying := true;
     controls := initial_controls;
     synths := synths (fst (startAudio mounted)) |}.

(** Playing the image [checker], and playing a camera stream of the same
    size at another cursor speed, with other voices settings. *)
Definition still : State :=
  {| inputType := image; imageData := Some checker;
     videoElement := Some (mkVideo 0 0);
     canvas_width := 2; canvas_height := 2;
     cursorPosition := 1; isPlaying := true;
     controls := initial_controls;
     synths := synths (fst (startAudio mounted)) |}.

Definition live : State :=
  {| inputType := webcam; imageData := None;
     videoElement := Some (mkVideo 2 2);
     canvas_width := 300; canvas_height := 150;
     cursorPosition := 1; isPlaying := true;
     controls :=
       {| volume := -20; octave := 4; baseNote := C; cursorSpeed := 1 # 2;
          oscillatorType := square; voiceCount := 4 |};
     synths := repeat new_Synth 4 |}.

(** The size of the frame a tick would sample, if there is one. *)
Definition frame_size (st : State) : option (Z * Z) :=
  match source st with
  | Some (w, h, _) => Some (w, h)
  | None => None
  end.

(** The cursor after [n] ticks over a frame [sourceWidth] wide. *)
Fixpoint cursor_after (n : nat) (sourceWidth : Z) (speed position : Q) : Q :=
  match n with
  | O => position
  | S k => advance sourceWidth speed (cursor_after k sourceWidth speed position)
  end.

End AudioVisualizer.

(** ** app.sveltep *)

Module App.

Import Tone.

Inductive ScaleName := major | minor | pentatonic | chromatic.

Definition scales (s : ScaleName) : list Z :=
  match s with
  | major => [0; 2; 4; 5; 7; 9; 11; 12]
  | minor => [0; 2; 3; 5; 7; 8; 10; 12]
  | pentatonic => [0; 2; 4; 7; 9; 12]
  | chromatic => [0; 1; 2; 3; 4; 5; 6; 7; 8; 9; 10; 11; 12]
  end.

(** Minimum time between notes in seconds. *)
Definition minTimeBetweenNotes : Q := 1 # 10.

Record Canvas := mkCanvas { width : Z; height : Z }.

Record State := mkState {
  canvas : option Canvas;
  imageData : option ImageData;
  cursorPosition : Q;
  isPlaying : bool;
  direction : Z;
  lastPlayTime : Q;
  octave : Z;
  baseNote : string;
  cursorSpeed : Q;
  waveform : OscillatorType;
  scale : ScaleName;
  numberOfNotes : nat;
  synths : list Synth;
  samplePoints : list JS.int
}.

Definition with_synths (pool : list Synth) (st : State) : State :=
  {| canvas := canvas st; imageData := imageData st;
     cursorPosition := cursorPosition st; isPlaying := isPlaying st;
     direction := direction st; lastPlayTime := lastPlayTime st;
     octave := octave st; baseNote := baseNote st;
     cursorSpeed := cursorSpeed st; waveform := waveform st;
     scale := scale st; numberOfNotes := numberOfNotes st;
     synths := pool; samplePoints := samplePoints st |}.

Definition with_samplePoints (pts : list JS.int) (st : State) : State :=
  {| canvas := canvas st; imageData := imageData st;
     cursorPosition := cursorPosition st; isPlaying := isPlaying st;
     direction := direction st; lastPlayTime := lastPlayTime st;
     octave := octave st; baseNote := baseNote st;
     cursorSpeed := cursorSpeed st; waveform := waveform st;
     scale := scale st; numberOfNotes := numberOfNotes st;
     synths := synths st; samplePoints := pts |}.

Definition with_lastPlayTime (t : Q) (st : State) : State :=
  {| canvas := canvas st; imageData := imageData st;
     cursorPosition := cursorPosition st; isPlaying := isPlaying st;
     direction := direction st; lastPlayTime := t;
     octave := octave st; baseNote := baseNote st;
     cursorSpeed := cursorSpeed st; waveform := waveform st;
     scale := scale st; numberOfNotes := numberOfNotes st;
     synths := synths st; samplePoints := samplePoints st |}.

Definition with_cursor (p : Q) (d : Z) (st : State) : State :=
  {| canvas := canvas st; imageData := imageData st;
     cursorPosition := p; isPlaying := isPlaying st;
     direction := d; lastPlayTime := lastPlayTime st;
     octave := octave st; baseNote := baseNote st;
     cursorSpeed := cursorSpeed st; waveform := waveform st;
     scale := scale st; numberOfNotes := numberOfNotes st;
     synths := synths st; samplePoints := samplePoints st |}.

(** *** Sample points and the voice pool *)

(** [Math.floor(i * (canvas.height - 1) / (numberOfNotes - 1))].  The
    divisor is 0 only for [numberOfNotes = 1], where [i] is 0 and the
    quotient 0/0 is NaN. *)
Definition sample_point (h : Z) (n i : nat) : JS.int :=
  if Z.of_nat n - 1 =? 0 then None
  else Some (Qfloor (inject_Z (Z.of_nat i * (h - 1))
                     / inject_Z (Z.of_nat n - 1))%Q).

(** [Array(numberOfNotes).fill().map((_, i) => ...)] *)
Definition layout (h : Z) (n : nat) : list JS.int :=
  map (sample_point h n) (seq 0 n).

Definition updateSamplePoints (st : State) : State :=
  match canvas st with
  | Some c =>
      if height c =? 0 then st
      else with_samplePoints (layout (height c) (numberOfNotes st)) st
  | None => st
  end.

(** Every synth is disposed of and [numberOfNotes] new ones are built. *)
Definition updateSynths (st : State) : State :=
  updateSamplePoints (with_synths (repeat new_Synth (numberOfNotes st)) st).

(** The component as declared, before [onMount] runs [updateSynths]. *)
Definition declared : State :=
  {| canvas := Some (mkCanvas 300 150); imageData := None;
     cursorPosition := 0; isPlaying := false; direction := 1;
     lastPlayTime := 0; octave := 3; baseNote := "G"%string;
     cursorSpeed := 1; waveform := sine; scale := major;
     numberOfNotes := 2; synths := []; samplePoints := [] |}.

(** *** Pixel statistics *)

Definition getBrightnessAtPoint (w : Z) (frame : option ImageData)
    (x : Z) (y : JS.int) : JS.num :=
  match frame with
  | None => Some 0%Q
  | Some img =>
      let index := JS.lift1 (fun y => (y * w + x) * 4) y in
      let r := JS.get_int (data img) index in
      let g := JS.get_int (data img) (JS.lift1 (Z.add 1) index) in
      let b := JS.get_int (data img) (JS.lift1 (Z.add 2) index) in
      JS.lift1 (fun s => inject_Z s / inject_Z (3 * 255))%Q
               (JS.lift2 Z.add (JS.lift2 Z.add r g) b)
  end.

(** [-radius .. radius], as both [for] loops enumerate it. *)
Definition offsets (radius : nat) : list Z :=
  map (fun k => Z.of_nat k - Z.of_nat radius) (seq 0 (2 * radius + 1)).

(** The body of the inner loop: the running [(min, max)]. *)
Definition contrast_step (c : Canvas) (frame : option ImageData)
    (x : Z) (y : JS.int) (acc : JS.num * JS.num) (d : Z * Z)
  : JS.num * JS.num :=
  let '(dy, dx) := d in
  let nx := JS.clamp (width c - 1) (x + dx) in
  let ny := JS.lift1 (fun y => JS.clamp (height c - 1) (y + dy)) y in
  let brightness :=
    JS.lift1 (fun b => b * 255)%Q
             (getBrightnessAtPoint (width c) frame nx ny) in
  (JS.min (fst acc) brightness, JS.max (snd acc) brightness).

Definition getContrastAroundPoint (c : Canvas) (frame : option ImageData)
    (x : Z) (y : JS.int) : JS.num :=
  match frame with
  | None => Some 0%Q
  | Some _ =>
      let radius := 5%nat in
      let '(lo, hi) :=
        fold_left (contrast_step c frame x y)
                  (list_prod (offsets radius) (offsets radius))
                  (Some 255%Q, Some 0%Q) in
      JS.lift1 (fun d => d / 255)%Q (JS.lift2 Qminus hi lo)
  end.

(** *** Pitch *)

(** [Math.floor(brightness * (scales[scale].length - 1))] *)
Definition noteIndex (table : list Z) (brightness : JS.num) : JS.int :=
  JS.lift1
    (fun b => Qfloor (b * inject_Z (Z.of_nat (length table) - 1))%Q)
    brightness.

(** [scales[scale][noteIndex] || 0] *)
Definition scaleStep (table : list Z) (brightness : JS.num) : Z :=
  match JS.get_int table (noteIndex table brightness) with
  | Some step => if step =? 0 then 0 else step
  | None => 0
  end.

(** [baseFreq * Math.pow(2, scaleStep / 12)] *)
Definition frequency (baseFreq : Q) (table : list Z) (brightness : JS.num)
  : Freq :=
  mkFreq baseFreq (inject_Z (scaleStep table brightness) / 12)%Q.

(** *** The cursor *)

(** [cursorPosition += direction * cursorSpeed] and the test that turns
    the cursor round. *)
Definition move (w : Z) (speed position : Q) (dir : Z) : Q * Z :=
  let position := (position + inject_Z dir * speed)%Q in
  if JS.geb position (inject_Z w) || JS.ltb position 0
  then let dir := dir * -1 in
       ((position + inject_Z dir * speed)%Q, dir)
  else (position, dir).

Fixpoint move_n (n : nat) (w : Z) (speed position : Q) (dir : Z) : Q * Z :=
  match n with
  | O => (position, dir)
  | S k => let '(p, d) := move_n k w speed position dir in move w speed p d
  end.

(** *** One tick: [scan] *)

Inductive Effect :=
| SetSynth (index : nat) (attackTime releaseTime : JS.num)
           (type : OscillatorType)
| TriggerAttackRelease (index : nat) (frequency : Freq) (time : Q)
| PutImageData (img : ImageData)
| FillRect (x : Z) (y : JS.int) (w h : Z)
| RequestAnimationFrame.

(** How a call ends: by returning, or by a [TypeError] that leaves it. *)
Inductive Completion := Returns | Throws.

Section Scan.

(** [Tone.Frequency(baseNote + octave).toFrequency()] *)
Variable toFrequency : string -> Z -> Q.

(** [samplePoints.forEach((y, index) => ...)], from [index] on. *)
Fixpoint forEach (st : State) (c : Canvas) (x : Z) (currentTime : Q)
    (pts : list JS.int) (index : nat) (pool : list Synth)
  : list Synth * list Effect * Completion :=
  match pts with
  | [] => (pool, [], Returns)
  | y :: rest =>
      let brightness := getBrightnessAtPoint (width c) (imageData st) x y in
      let contrast := getContrastAroundPoint c (imageData st) x y in
      let baseFreq := toFrequency (baseNote st) (octave st) in
      let frequency := frequency baseFreq (scales (scale st)) brightness in
      let attackTime :=
        JS.lift1 (fun k => (5 # 1000) + (1 - k) * (95 # 1000))%Q contrast in
      let releaseTime :=
        JS.lift1 (fun k => (1 # 10) + k * (9 # 10))%Q contrast in
      match nth_error pool index with
      | None => (pool, [], Throws)
      | Some synth =>
          let synth :=
            set_oscillator (waveform st)
              (set_envelope attackTime releaseTime synth) in
          let '(pool, effects, completion) :=
            forEach st c x currentTime rest (S index)
                    (JS.set pool index synth) in
          (pool,
           SetSynth index attackTime releaseTime (waveform st)
             :: TriggerAttackRelease index frequency currentTime
             :: effects,
           completion)
      end
  end.

(** [currentTime - lastPlayTime >= minTimeBetweenNotes] *)
Definition due (currentTime : Q) (st : State) : bool :=
  JS.geb (currentTime - lastPlayTime st)%Q minTimeBetweenNotes.

(** What [scan] draws once the frame is back on the canvas: the cursor and
    the sample points; then it requests the next tick. *)
Definition drawing (x : Z) (img : ImageData) (h : Z) (pts : list JS.int)
  : list Effect :=
  PutImageData img
    :: FillRect x (Some 0) 2 h
    :: map (fun y => FillRect (x - 2) (JS.lift1 (fun y => y - 2) y) 4 4) pts
    ++ [RequestAnimationFrame].

(** [scan], with [currentTime] the value of [Tone.now()]. *)
Definition scan (currentTime : Q) (st : State)
  : State * list Effect * Completion :=
  match isPlaying st, canvas st with
  | true, Some c =>
      let x := Qfloor (cursorPosition st) in
      let '(pool, onsets, completion) :=
        if due currentTime st
        then forEach st c x currentTime (samplePoints st) 0 (synths st)
        else (synths st, [], Returns) in
      match completion with
      | Throws => (with_synths pool st, onsets, Throws)
      | Returns =>
          let st :=
            if due currentTime st
            then with_lastPlayTime currentTime (with_synths pool st)
            else st in
          let '(position, dir) :=
            move (width c) (cursorSpeed st) (cursorPosition st)
                 (direction st) in
          let st := with_cursor position dir st in
          match imageData st with
          | None => (st, onsets, Throws)
          | Some img =>
              (st, onsets ++ drawing x img (height c) (samplePoints st),
               Returns)
          end
      end
  | _, _ => (st, [], Returns)
  end.

(** The onsets among the effects of a tick. *)
Definition is_onset (e : Effect) : bool :=
  match e with TriggerAttackRelease _ _ _ => true | _ => false end.

Definition is_request (e : Effect) : bool :=
  match e with RequestAnimationFrame => true | _ => false end.

(** The display refreshes at the successive clock readings [times]: the
    state reached and, tick by tick, whether an onset fired.  A tick
    that did not ask for the next frame is the last one. *)
Fixpoint run (times : list Q) (st : State) : State * list bool :=
  match times with
  | [] => (st, [])
  | t :: rest =>
      let '(st', effects, _) := scan t st in
      if existsb is_request effects
      then let '(st'', fired) := run rest st' in
           (st'', existsb is_onset effects :: fired)
      else (st', [existsb is_onset effects])
  end.

End Scan.

(** The declared component once [loadImage] has put the frame [checker] on
    the canvas. *)
Definition loaded : State :=
  updateSamplePoints
    {| canvas := Some (mkCanvas 2 2); imageData := Some checker;
       cursorPosition := 0; isPlaying := false; direction := 1;
       lastPlayTime := 0; octave := 3; baseNote := "G"%string;
       cursorSpeed := 1; waveform := sine; scale := major;
       numberOfNotes := 2; synths := repeat new_Synth 2;
       samplePoints := [] |}.

(** The parts of what a tick returns. *)
Definition state_of (r : State * list Effect * Completion) : State :=
  fst (fst r).
Definition effects_of (r : State * list Effect * Completion) : list Effect :=
  snd (fst r).
Definition completion_of (r : State * list Effect * Completion) : Completion :=
  snd r.

(** [togglePlay], with [now] the value of [Tone.now()]: starting to play
    sets [lastPlayTime] and requests the first tick. *)
Definition togglePlay (now : Q) (st : State) : State * list Effect :=
  let playing := negb (isPlaying st) in
  ({| canvas := canvas st; imageData := imageData st;
      cursorPosition := cursorPosition st; isPlaying := playing;
      direction := direction st;
      lastPlayTime := if playing then now else lastPlayTime st;
      octave := octave st; baseNote := baseNote st;
      cursorSpeed := cursorSpeed st; waveform := waveform st;
      scale := scale st; numberOfNotes := numberOfNotes st;
      synths := synths st; samplePoints := samplePoints st |},
   if playing then [RequestAnimationFrame] else []).

(** [loaded], set playing at time 0. *)
Definition playing : State := fst (togglePlay 0 loaded).

End App.

(** ** Vocabulary of the properties *)

(** A voice carries the shared timbre and volume of the controls. *)
Definition shares (c : AudioVisualizer.Controls) (s : Tone.Synth) : Prop :=
  Tone.volume s = AudioVisualizer.volume c /\
  Tone.oscillator s = AudioVisualizer.oscillatorType c.

(** [a mod b] on rationals, as the specification writes it for positions:
    the remainder of the floored quotient. *)
Definition Qmod (a b : Q) : Q := (a - b * inject_Z (Qfloor (a / b)))%Q.

(** The number of ticks the wrapping cursor needs to cross a frame [L] wide
    at speed [s]: the least [k] with [L <= s * k]. *)
Definition crossing (L : Z) (s : Q) : Z := Qceiling (inject_Z L / s)%Q.

(** A position that went past a bound of [0, L), mirrored about that bound:
    what reflecting the overshoot back into range means. *)
Definition reflected (L : Z) (p : Q) : Q :=
  if JS.geb p (inject_Z L) then (2 * inject_Z L - p)%Q
  else if JS.ltb p 0 then (- p)%Q
  else p.

(** A position on the scan axis of length [L]. *)
Definition on_axis (L : Z) (p : Q) : Prop := (0 <= p)%Q /\ (p < inject_Z L)%Q.

(** Coordinates in list order are strictly increasing. *)
Definition ascending (l : list Z) : Prop :=
  forall (i j : nat) (a b : Z),
    (i < j)%nat -> nth_error l i = Some a -> nth_error l j = Some b -> a < b.

(** [v] coordinates spread from one end of an axis of length [L] to the
    other: [floor(i * (L - 1) / (v - 1))] for [i = 0 .. v - 1]. *)
Definition evenly (L : Z) (v : nat) : list Z :=
  map (fun i => Z.of_nat i * (L - 1) / (Z.of_nat v - 1)) (seq 0 v).

(** The sample rows of one tick of AudioVisualizer. *)
Definition rows (vs : list (Z * Z * option Tone.Freq)) : list Z :=
  map (fun p => snd (fst p)) vs.

(** A number that is defined and lies in [0, 1]. *)
Definition normalized (v : JS.num) : Prop :=
  exists q : Q, v = Some q /\ (0 <= q)%Q /\ (q <= 1)%Q.

(** A state of App whose tick has voices to trigger: it is playing on a
    canvas, and every one of its sample points, of which there is at least
    one, has its synth. *)
Definition voiced (st : App.State) : Prop :=
  App.isPlaying st = true /\
  (exists c, App.canvas st = Some c) /\
  App.samplePoints st <> [] /\
  (length (App.samplePoints st) <= length (App.synths st))%nat.

(** A voiced state with a frame loaded: its loop keeps running. *)
Definition scanning (st : App.State) : Prop :=
  voiced st /\ exists img, App.imageData st = Some img.

(** The sample points a tick of AudioVisualizer draws and the frequencies it
    ramps the voices to, in order. *)
Definition points (effects : list AudioVisualizer.Effect) : list (Z * Z) :=
  flat_map
    (fun e =>
       match e with AudioVisualizer.DrawPoint x y => [(x, y)] | _ => [] end)
    effects.

Definition ramped (effects : list AudioVisualizer.Effect)
  : list (nat * option Tone.Freq) :=
  flat_map
    (fun e =>
       match e with
       | AudioVisualizer.RampTo i f _ _ => [(i, f)]
       | _ => []
       end)
    effects.

(** The running minimum and maximum of [getContrastAroundPoint]: defined,
    the one not negative and the other at most 255; and moreover in order. *)
Definition bounded (acc : JS.num * JS.num) : Prop :=
  exists lo hi : Q, acc = (Some lo, Some hi) /\ (0 <= lo)%Q /\ (hi <= 255)%Q.

Definition spanned (acc : JS.num * JS.num) : Prop :=
  exists lo hi : Q,
    acc = (Some lo, Some hi) /\ (0 <= lo)%Q /\ (lo <= hi)%Q /\ (hi <= 255)%Q.

(** ** The display's frame queue *)

(** [requestAnimationFrame] and [cancelAnimationFrame]: the callbacks
    waiting for the next display refresh, each under the id its request
    returned. *)
Module Raf.

Record Scheduler := mkScheduler { queue : list nat; next : nat }.

Definition request (s : Scheduler) : nat * Scheduler :=
  (next s, mkScheduler (queue s ++ [next s]) (S (next s))).

(** Cancelling an id that is not waiting, or [undefined], does nothing. *)
Definition cancel (id : option nat) (s : Scheduler) : Scheduler :=
  match id with
  | Some i => mkScheduler (remove Nat.eq_dec i (queue s)) (next s)
  | None => s
  end.

End Raf.

(** ** src/AudioVisualizer.svelte: controls, MIDI and transport *)

Module Player.

Import Tone AudioVisualizer.

Definition with_controls (c : Controls) (st : State) : State :=
  {| inputType := inputType st; imageData := imageData st;
     videoElement := videoElement st; canvas_width := canvas_width st;
     canvas_height := canvas_height st;
     cursorPosition := cursorPosition st; isPlaying := isPlaying st;
     controls := c; synths := synths st |}.

Definition with_synths (pool : list Synth) (st : State) : State :=
  {| inputType := inputType st; imageData := imageData st;
     videoElement := videoElement st; canvas_width := canvas_width st;
     canvas_height := canvas_height st;
     cursorPosition := cursorPosition st; isPlaying := isPlaying st;
     controls := controls st; synths := pool |}.

Definition with_isPlaying (playing : bool) (st : State) : State :=
  {| inputType := inputType st; imageData := imageData st;
     videoElement := videoElement st; canvas_width := canvas_width st;
     canvas_height := canvas_height st;
     cursorPosition := cursorPosition st; isPlaying := playing;
     controls := controls st; synths := synths st |}.

Definition set_volume (v : Q) (c : Controls) : Controls :=
  {| volume := v; octave := octave c; baseNote := baseNote c;
     cursorSpeed := cursorSpeed c; oscillatorType := oscillatorType c;
     voiceCount := voiceCount c |}.

Definition set_octave (o : Z) (c : Controls) : Controls :=
  {| volume := volume c; octave := o; baseNote := baseNote c;
     cursorSpeed := cursorSpeed c; oscillatorType := oscillatorType c;
     voiceCount := voiceCount c |}.

Definition set_cursorSpeed (s : Q) (c : Controls) : Controls :=
  {| volume := volume c; octave := octave c; baseNote := baseNote c;
     cursorSpeed := s; oscillatorType := oscillatorType c;
     voiceCount := voiceCount c |}.

Definition set_oscillatorType (o : OscillatorType) (c : Controls) : Controls :=
  {| volume := volume c; octave := octave c; baseNote := baseNote c;
     cursorSpeed := cursorSpeed c; oscillatorType := o;
     voiceCount := voiceCount c |}.

Definition set_voiceCount (n : nat) (c : Controls) : Controls :=
  {| volume := volume c; octave := octave c; baseNote := baseNote c;
     cursorSpeed := cursorSpeed c; oscillatorType := oscillatorType c;
     voiceCount := n |}.

(** *** The panel *)

(** A dat.gui controller writes the field of [controls] and then calls its
    [onChange] handler with the value. *)
Definition panel_volume (value : Q) (st : State) : State :=
  with_synths (updateVolume value (synths st))
    (with_controls (set_volume value (controls st)) st).

Definition panel_oscillatorType (value : OscillatorType) (st : State)
  : State :=
  with_synths (updateOscillatorType value (synths st))
    (with_controls (set_oscillatorType value (controls st)) st).

Definition panel_voiceCount (value : nat) (st : State) : State :=
  updateVoiceCount value
    (with_controls (set_voiceCount value (controls st)) st).

(** *** MIDI *)

(** The waveforms a controller value selects from. *)
Definition waveforms : list OscillatorType :=
  [sine; square; sawtooth; triangle].

(** [(message.data.length > 2) ? message.data[2] : 0] *)
Definition velocity_of (data : list Z) : Z :=
  match data with
  | _ :: _ :: v :: _ => v
  | _ => 0
  end.

Section Midi.

(** [Tone.gainToDb] *)
Variable gainToDb : Q -> Q.

(** [getMIDIMessage], on the bytes of [message.data].  The result is
    [None] where the waveform table is read past its end: the type would
    become [undefined], which happens for no data byte of a MIDI message
    (they are below 128). *)
Definition getMIDIMessage (data : list Z) (st : State) : option State :=
  let command := JS.get data 0 in
  let note := JS.get data 1 in
  let velocity := velocity_of data in
  match command with
  | Some 144 => (* noteOn *)
      if 0 <? velocity
      then match note with
           | Some note =>
               Some (with_controls
                       (set_cursorSpeed (inject_Z note / 64)%Q (controls st))
                       st)
           | None => Some st
           end
      else Some st
  | Some 176 => (* cc *)
      match note with
      | Some 7 => (* volume *)
          let v := gainToDb (inject_Z velocity / 127)%Q in
          Some (with_synths (map (Tone.set_volume v) (synths st))
                  (with_controls (set_volume v (controls st)) st))
      | Some 1 => (* modulation wheel *)
          Some (with_controls
                  (set_octave (Qfloor (inject_Z velocity / 16)%Q + 1)
                              (controls st))
                  st)
      | Some 74 => (* Filter Cutoff *)
          match JS.get waveforms (Qfloor (inject_Z velocity / 32)%Q) with
          | Some type =>
              Some (with_synths (map (Tone.set_oscillator type) (synths st))
                      (with_controls (set_oscillatorType type (controls st))
                                     st))
          | None => None
          end
      | _ => Some st
      end
  | _ => Some st
  end.

End Midi.

(** *** Transport *)

(** The component: the state of the loop, the two flags of the file
    dialogue, the capture stream ([Some true] while its tracks are live)
    and the frame queue with the id kept in [animationId]. *)
Record Component := mkComponent {
  state : State;
  mediaLoaded : bool;
  showModal : bool;
  stream : option bool;
  animationId : option nat;
  raf : Raf.Scheduler
}.

Definition with_state (st : State) (c : Component) : Component :=
  {| state := st; mediaLoaded := mediaLoaded c; showModal := showModal c;
     stream := stream c; animationId := animationId c; raf := raf c |}.

Definition is_request (e : Effect) : bool :=
  match e with RequestAnimationFrame => true | _ => false end.

(** [animationId = requestAnimationFrame(updateAudio)], once for each
    request among the effects of a call. *)
Fixpoint schedule (effects : list Effect) (c : Component) : Component :=
  match effects with
  | [] => c
  | e :: rest =>
      if is_request e
      then let '(id, r) := Raf.request (raf c) in
           schedule rest
             {| state := state c; mediaLoaded := mediaLoaded c;
                showModal := showModal c; stream := stream c;
                animationId := Some id; raf := r |}
      else schedule rest c
  end.

Definition startAudio (c : Component) : Component :=
  let '(st, effects) := AudioVisualizer.startAudio (state c) in
  schedule effects (with_state st c).

Definition pauseAudio (c : Component) : Component :=
  {| state := with_synths (map triggerRelease (synths (state c))) (state c);
     mediaLoaded := mediaLoaded c; showModal := showModal c;
     stream := stream c; animationId := animationId c;
     raf := Raf.cancel (animationId c) (raf c) |}.

Definition media_input (i : InputType) : bool :=
  match i with image | video => true | _ => false end.

Definition togglePlay (c : Component) : Component :=
  if media_input (inputType (state c)) && negb (mediaLoaded c)
  then {| state := state c; mediaLoaded := mediaLoaded c; showModal := true;
          stream := stream c; animationId := animationId c; raf := raf c |}
  else if isPlaying (state c)
  then let c := pauseAudio c in
       with_state (with_isPlaying false (state c)) c
  else let c := startAudio c in
       with_state (with_isPlaying true (state c)) c.

(** [handleVisibilityChange], with the value of [document.hidden]. *)
Definition handleVisibilityChange (hidden : bool) (c : Component)
  : Component :=
  if hidden then pauseAudio c else c.

(** What the platform does in the acquisition step of [updateInput]:
    whether the capture was granted, and the video element it leaves. *)
Record Acquisition := mkAcquisition { granted : bool; element : Video }.

(** [updateInput] *)
Definition updateInput (a : Acquisition) (c : Component) : Component :=
  let c := pauseAudio c in
  let stopped := JS.lift1 (fun _ => false) (stream c) in
  let st := state c in
  let captures :=
    match inputType st with webcam | screen => true | _ => false end in
  let touched :=
    match inputType st with other => false | _ => true end in
  {| state :=
       {| inputType := inputType st; imageData := imageData st;
          videoElement :=
            if touched then Some (element a) else videoElement st;
          canvas_width := canvas_width st;
          canvas_height := canvas_height st;
          cursorPosition := 0; isPlaying := isPlaying st;
          controls := controls st; synths := synths st |};
     mediaLoaded := mediaLoaded c; showModal := showModal c;
     stream := if captures && granted a then Some true else stopped;
     animationId := animationId c; raf := raf c |}.

(** [handleInputChange], with the value chosen in the selector. *)
Definition handleInputChange (value : InputType) (a : Acquisition)
    (c : Component) : Component :=
  let st := state c in
  let c :=
    {| state :=
         {| inputType := value; imageData := imageData st;
            videoElement := videoElement st;
            canvas_width := canvas_width st;
            canvas_height := canvas_height st;
            cursorPosition := cursorPosition st; isPlaying := isPlaying st;
            controls := controls st; synths := synths st |};
       mediaLoaded := false; showModal := showModal c;
       stream := stream c; animationId := animationId c; raf := raf c |} in
  if media_input value
  then {| state := state c; mediaLoaded := mediaLoaded c; showModal := true;
          stream := stream c; animationId := animationId c; raf := raf c |}
  else updateInput a c.

(** The [onload] handler that [handleFileInput] gives the image: [w] and
    [h] are the size of the image and [captured] what
    [ctx.getImageData(0, 0, canvas.width, canvas.height)] returns. *)
Definition image_loaded (w h : Z) (captured : ImageData) (c : Component)
  : Component :=
  let st := state c in
  let c :=
    {| state :=
         {| inputType := inputType st; imageData := Some captured;
            videoElement := videoElement st;
            canvas_width := w; canvas_height := h;
            cursorPosition := 0; isPlaying := isPlaying st;
            controls := controls st; synths := synths st |};
       mediaLoaded := true; showModal := false;
       stream := stream c; animationId := animationId c; raf := raf c |} in
  let c := startAudio c in
  with_state (with_isPlaying true (state c)) c.

(** The [onloadedmetadata] handler that [handleFileInput] gives the video
    element, which then has the size of [v]. *)
Definition video_loaded (v : Video) (c : Component) : Component :=
  let st := state c in
  let c :=
    {| state :=
         {| inputType := inputType st; imageData := imageData st;
            videoElement := Some v;
            canvas_width := videoWidth v; canvas_height := videoHeight v;
            cursorPosition := 0; isPlaying := isPlaying st;
            controls := controls st; synths := synths st |};
       mediaLoaded := true; showModal := false;
       stream := stream c; animationId := animationId c; raf := raf c |} in
  let c := startAudio c in
  with_state (with_isPlaying true (state c)) c.

(** One queued call of [updateAudio]. *)
Definition callback (now : Q) (captured : ImageData) (c : Component)
  : Component :=
  let '(st, effects) := updateAudio now captured (state c) in
  schedule effects (with_state st c).

(** One display refresh: the callbacks that were waiting run in turn, the
    [k]-th of them reading [capture k] from the canvas; what they request
    waits for the next refresh. *)
Definition refresh (now : Q) (capture : nat -> ImageData) (c : Component)
  : Component :=
  let waiting := Raf.queue (raf c) in
  let c :=
    {| state := state c; mediaLoaded := mediaLoaded c;
       showModal := showModal c; stream := stream c;
       animationId := animationId c;
       raf := Raf.mkScheduler [] (Raf.next (raf c)) |} in
  fold_left (fun c k => callback now (capture k) c)
            (seq 0 (length waiting)) c.

(** Successive display refreshes. *)
Fixpoint refreshes (frames : list (Q * (nat -> ImageData))) (c : Component)
  : Component :=
  match frames with
  | [] => c
  | (now, capture) :: rest => refreshes rest (refresh now capture c)
  end.

(** The component as [onMount] leaves it. *)
Definition mounted : Component :=
  {| state := AudioVisualizer.mounted; mediaLoaded := false;
     showModal := false; stream := None; animationId := None;
     raf := Raf.mkScheduler [] 0 |}.

(** *** Everything that can happen to the component *)

(** The edits of the panel (the value is the one dat.gui delivers), a MIDI
    message, the buttons, the events of the page and of the media, and a
    display refresh. *)
Inductive Action :=
| PanelVolume (value : Q)
| PanelOctave (value : Z)
| PanelBaseNote (value : PitchClass)
| PanelCursorSpeed (value : Q)
| PanelOscillatorType (value : OscillatorType)
| PanelVoiceCount (value : nat)
| Midi (data : list Z)
| TogglePlay
| CancelModal
| VisibilityChange (hidden : bool)
| InputChange (value : InputType) (a : Acquisition)
| ImageLoaded (w h : Z) (captured : ImageData)
| VideoLoaded (v : Video)
| Refresh (now : Q) (capture : nat -> ImageData).

Definition set_baseNote (n : PitchClass) (c : Controls) : Controls :=
  {| volume := volume c; octave := octave c; baseNote := n;
     cursorSpeed := cursorSpeed c; oscillatorType := oscillatorType c;
     voiceCount := voiceCount c |}.

Section Actions.

Variable gainToDb : Q -> Q.

Definition act (a : Action) (c : Component) : option Component :=
  let st := state c in
  match a with
  | PanelVolume value => Some (with_state (panel_volume value st) c)
  | PanelOctave value =>
      Some (with_state (with_controls (set_octave value (controls st)) st) c)
  | PanelBaseNote value =>
      Some (with_state (with_controls (set_baseNote value (controls st)) st)
                       c)
  | PanelCursorSpeed value =>
      Some (with_state
              (with_controls (set_cursorSpeed value (controls st)) st) c)
  | PanelOscillatorType value =>
      Some (with_state (panel_oscillatorType value st) c)
  | PanelVoiceCount value => Some (with_state (panel_voiceCount value st) c)
  | Midi data =>
      JS.lift1 (fun st => with_state st c) (getMIDIMessage gainToDb data st)
  | TogglePlay => Some (togglePlay c)
  | CancelModal =>
      Some {| state := state c; mediaLoaded := mediaLoaded c;
              showModal := false; stream := stream c;
              animationId := animationId c; raf := raf c |}
  | VisibilityChange hidden => Some (handleVisibilityChange hidden c)
  | InputChange value a => Some (handleInputChange value a c)
  | ImageLoaded w h captured => Some (image_loaded w h captured c)
  | VideoLoaded v => Some (video_loaded v c)
  | Refresh now capture => Some (refresh now capture c)
  end.

Fixpoint run (actions : list Action) (c : Component) : option Component :=
  match actions with
  | [] => Some c
  | a :: rest =>
      match act a c with
      | Some c => run rest c
      | None => None
      end
  end.

End Actions.

End Player.

(** ** app.sveltep: MIDI, the panel and the image loader *)

Module Surface.

Import Tone App.

Definition with_baseNote (n : string) (st : State) : State :=
  {| canvas := canvas st; imageData := imageData st;
     cursorPosition := cursorPosition st; isPlaying := isPlaying st;
     direction := direction st; lastPlayTime := lastPlayTime st;
     octave := octave st; baseNote := n;
     cursorSpeed := cursorSpeed st; waveform := waveform st;
     scale := scale st; numberOfNotes := numberOfNotes st;
     synths := synths st; samplePoints := samplePoints st |}.

Definition with_cursorSpeed (s : Q) (st : State) : State :=
  {| canvas := canvas st; imageData := imageData st;
     cursorPosition := cursorPosition st; isPlaying := isPlaying st;
     direction := direction st; lastPlayTime := lastPlayTime st;
     octave := octave st; baseNote := baseNote st;
     cursorSpeed := s; waveform := waveform st;
     scale := scale st; numberOfNotes := numberOfNotes st;
     synths := synths st; samplePoints := samplePoints st |}.

Definition with_numberOfNotes (n : nat) (st : State) : State :=
  {| canvas := canvas st; imageData := imageData st;
     cursorPosition := cursorPosition st; isPlaying := isPlaying st;
     direction := direction st; lastPlayTime := lastPlayTime st;
     octave := octave st; baseNote := baseNote st;
     cursorSpeed := cursorSpeed st; waveform := waveform st;
     scale := scale st; numberOfNotes := n;
     synths := synths st; samplePoints := samplePoints st |}.

Definition with_frame (c : Canvas) (img : ImageData) (st : State) : State :=
  {| canvas := Some c; imageData := Some img;
     cursorPosition := cursorPosition st; isPlaying := isPlaying st;
     direction := direction st; lastPlayTime := lastPlayTime st;
     octave := octave st; baseNote := baseNote st;
     cursorSpeed := cursorSpeed st; waveform := waveform st;
     scale := scale st; numberOfNotes := numberOfNotes st;
     synths := synths st; samplePoints := samplePoints st |}.

(** *** MIDI messages *)

(** [status >> 4] and [status & 0xf] *)
Definition command_of (status : Z) : Z := Z.shiftr status 4.
Definition channel_of (status : Z) : Z := Z.land status 15.

Section Midi.

(** [Tone.Frequency(n, "midi").toNote()] and [Tone.gainToDb] *)
Variable toNote : Z -> string.
Variable gainToDb : Q -> Q.

(** [getMIDIMessage], on the bytes of [message.data]; a missing status
    byte gives command 0.  The result is [None] where the cursor speed
    would become NaN: a modulation-wheel message without its value byte. *)
Definition getMIDIMessage (data : list Z) (st : State) : option State :=
  let status := JS.get data 0 in
  let data1 := JS.get data 1 in
  let data2 := JS.get data 2 in
  let command :=
    match status with Some s => command_of s | None => 0 end in
  match command with
  | 9 => (* Note on *)
      match data1, data2 with
      | Some data1, Some data2 =>
          if 0 <? data2
          then Some
                 (with_synths
                    (map (Tone.set_volume
                            (gainToDb (inject_Z data2 / 127)%Q))
                         (synths st))
                    (with_baseNote (toNote data1) st))
          else Some st
      | _, _ => Some st
      end
  | 11 => (* Control change *)
      match data1 with
      | Some 1 => (* Modulation wheel *)
          match data2 with
          | Some data2 =>
              Some (with_cursorSpeed (inject_Z data2 / 127 * 10)%Q st)
          | None => None
          end
      | _ => Some st
      end
  | _ => Some st
  end.

End Midi.

(** *** MIDI inputs *)

(** The input ports as objects: each has its id and may carry the
    listener ([onmidimessage] is [getMIDIMessage] rather than null).
    [midiInputs] and [selectedMidiInput] refer to ports by their place in
    [ports]. *)
Record Port := mkPort { id : string; listening : bool }.

Record Ports := mkPorts {
  ports : list Port;
  midiInputs : list nat;
  selectedMidiInput : option nat
}.

(** [port.onmidimessage = l] *)
Definition listen (l : bool) (p : nat) (ps : list Port) : list Port :=
  match nth_error ps p with
  | Some port => JS.set ps p (mkPort (id port) l)
  | None => ps
  end.

(** [midiInputs.find(input => input.id === value)] *)
Definition find_input (value : string) (m : Ports) : option nat :=
  find (fun p =>
          match nth_error (ports m) p with
          | Some port => String.eqb (id port) value
          | None => false
          end)
       (midiInputs m).

(** [handleMidiInputChange], with the value chosen in the selector. *)
Definition handleMidiInputChange (value : string) (m : Ports) : Ports :=
  let ps :=
    match selectedMidiInput m with
    | Some p => listen false p (ports m)
    | None => ports m
    end in
  let selected := find_input value m in
  let ps :=
    match selected with
    | Some p => listen true p ps
    | None => ps
    end in
  mkPorts ps (midiInputs m) selected.

(** *** The panel and the loader *)

(** The Rewind and Forward buttons. *)
Definition rewind (st : State) : State :=
  with_cursor 0 (direction st) st.

Definition forward (st : State) : State :=
  match canvas st with
  | Some c => with_cursor (inject_Z (width c - 1)) (direction st) st
  | None => st
  end.

(** The reactive block on [numberOfNotes]: a number that is not 0 rebuilds
    the pool. *)
Definition set_numberOfNotes (n : nat) (st : State) : State :=
  let st := with_numberOfNotes n st in
  if (n =? 0)%nat then st else updateSynths st.

(** The [onload] handler of [loadImage]: [w] and [h] are the size of the
    image and [captured] what [ctx.getImageData] returns; without a
    canvas it does nothing. *)
Definition image_loaded (w h : Z) (captured : ImageData) (st : State)
  : State :=
  match canvas st with
  | Some _ => updateSamplePoints (with_frame (mkCanvas w h) captured st)
  | None => st
  end.

(** What happens to the component between two looks at it: a tick of the
    loop at some clock reading, the play button pressed at some clock
    reading, the Rewind and Forward buttons, the speed slider, the
    direction selector, the number-of-notes field and an image that
    finishes loading. *)
Inductive Event :=
| Tick (currentTime : Q)
| Toggle (now : Q)
| Rewind
| Forward
| Speed (s : Q)
| Direction (forwards : bool)
| NumberOfNotes (n : nat)
| ImageLoaded (w h : Z) (captured : ImageData).

Section Events.

Variable toFrequency : string -> Z -> Q.

Definition event (e : Event) (st : State) : State :=
  match e with
  | Tick currentTime => state_of (scan toFrequency currentTime st)
  | Toggle now => fst (togglePlay now st)
  | Rewind => rewind st
  | Forward => forward st
  | Speed s => with_cursorSpeed s st
  | Direction forwards =>
      with_cursor (cursorPosition st) (if forwards then 1 else -1) st
  | NumberOfNotes n => set_numberOfNotes n st
  | ImageLoaded w h captured => image_loaded w h captured st
  end.

Definition events (es : list Event) (st : State) : State :=
  fold_left (fun st e => event e st) es st.

End Events.

(** *** The callbacks waiting for the next display refresh *)

(** [requestAnimationFrame(scan)] queues one more call of [scan] for the
    next refresh, and nothing ever takes a call off the queue: the
    component with the number of calls of [scan] that wait. *)
Record Loop := mkLoop { state : State; pending : nat }.

Section Refreshes.

Variable toFrequency : string -> Z -> Q.

(** The [n] waiting calls run one after the other, the [k]-th reading
    [clock k] from [Tone.now()]; the calls they request wait for the
    refresh after. *)
Fixpoint callbacks (n : nat) (clock : nat -> Q) (k : nat) (st : State)
  : State * nat :=
  match n with
  | O => (st, O)
  | S n' =>
      let '(st', effects, _) := scan toFrequency (clock k) st in
      let '(st'', requests) := callbacks n' clock (S k) st' in
      (st'', (length (filter is_request effects) + requests)%nat)
  end.

(** One display refresh. *)
Definition refresh (clock : nat -> Q) (l : Loop) : Loop :=
  let '(st, requests) := callbacks (pending l) clock 0 (state l) in
  mkLoop st requests.

(** The play button. *)
Definition press (now : Q) (l : Loop) : Loop :=
  let '(st, effects) := togglePlay now (state l) in
  mkLoop st (pending l + length (filter is_request effects))%nat.

End Refreshes.

End Surface.

(** ** Vocabulary of the further properties *)

(** The messages AudioVisualizer acts on: a note-on of channel 1 that has a
    velocity, and the controllers 7, 1 and 74 of channel 1. *)
Definition heard (data : list Z) : bool :=
  match data with
  | 144 :: _ :: v :: _ => 0 <? v
  | 176 :: c :: _ => (c =? 7) || (c =? 1) || (c =? 74)
  | _ => false
  end.

(** A data byte of a MIDI message. *)
Definition data_byte (b : Z) : Prop := 0 <= b <= 127.

(** Every voice of the pool carries the shared timbre and volume. *)
Definition consistent (c : Player.Component) : Prop :=
  Forall (shares (AudioVisualizer.controls (Player.state c)))
         (AudioVisualizer.synths (Player.state c)).

(** The pool has as many voices as the controls say. *)
Definition sized (c : Player.Component) : Prop :=
  length (AudioVisualizer.synths (Player.state c))
  = AudioVisualizer.voiceCount (AudioVisualizer.controls (Player.state c)).

(** No voice of the pool is sounding. *)
Definition silent (c : Player.Component) : Prop :=
  Forall (fun s => Tone.sounding s = false)
         (AudioVisualizer.synths (Player.state c)).

(** At most one call of [updateAudio] is waiting, under the id kept in
    [animationId], and none while [isPlaying] is false; ids are issued in
    increasing order. *)
Definition single_loop (c : Player.Component) : Prop :=
  Forall (fun i => (i < Raf.next (Player.raf c))%nat)
         (Raf.queue (Player.raf c)) /\
  (Raf.queue (Player.raf c) = [] \/
   exists i, Raf.queue (Player.raf c) = [i] /\
             Player.animationId c = Some i) /\
  (AudioVisualizer.isPlaying (Player.state c) = false ->
   Raf.queue (Player.raf c) = []).

(** A file finishes loading. *)
Definition is_load (a : Player.Action) : bool :=
  match a with
  | Player.ImageLoaded _ _ _ | Player.VideoLoaded _ => true
  | _ => false
  end.

(** Every load of a run finds the frame queue empty. *)
Fixpoint loads_when_idle (gainToDb : Q -> Q) (actions : list Player.Action)
    (c : Player.Component) : Prop :=
  match actions with
  | [] => True
  | a :: rest =>
      (is_load a = true -> Raf.queue (Player.raf c) = []) /\
      match Player.act gainToDb a c with
      | Some c' => loads_when_idle gainToDb rest c'
      | None => True
      end
  end.

(** Every voice of the pool is sounding. *)
Definition sounding_all (c : Player.Component) : Prop :=
  Forall (fun s => Tone.sounding s = true)
         (AudioVisualizer.synths (Player.state c)).

(** The play button acts on the loop: the input is live, or its file is
    loaded. *)
Definition playable (c : Player.Component) : Prop :=
  Player.media_input (AudioVisualizer.inputType (Player.state c))
  && negb (Player.mediaLoaded c) = false.

(** The mounted component once the image [checker] has loaded: the loop is
    running. *)
Definition running : Player.Component :=
  Player.image_loaded 2 2 checker Player.mounted.

(** The ticks of AudioVisualizer at successive display refreshes, each with
    its clock reading and captured frame: the effects of each, up to the
    first tick that does not ask for the next. *)
Fixpoint ticks (frames : list (Q * ImageData)) (st : AudioVisualizer.State)
  : list (list AudioVisualizer.Effect) :=
  match frames with
  | [] => []
  | (now, captured) :: rest =>
      let '(st', effects) := AudioVisualizer.updateAudio now captured st in
      if existsb Player.is_request effects
      then effects :: ticks rest st'
      else [effects]
  end.

(** A frequency that is defined, on the base note of the controls and
    within the octave that starts at their octave. *)
Definition in_octave (k : AudioVisualizer.Controls)
    (f : option Tone.Freq) : Prop :=
  exists fr : Tone.Freq,
    f = Some fr /\
    Tone.base fr = AudioVisualizer.noteFrequencies (AudioVisualizer.baseNote k) /\
    (inject_Z (AudioVisualizer.octave k) - 4 <= Tone.exponent fr)%Q /\
    (Tone.exponent fr <= inject_Z (AudioVisualizer.octave k) - 3)%Q.

(** The listener is on the selected port and on no other. *)
Definition one_listener (m : Surface.Ports) : Prop :=
  forall (p : nat) (port : Surface.Port),
    nth_error (Surface.ports m) p = Some port ->
    (Surface.listening port = true <-> Surface.selectedMidiInput m = Some p).

(** Two ports found at start-up, none selected. *)
Definition two_ports : Surface.Ports :=
  Surface.mkPorts
    [Surface.mkPort "keys" false; Surface.mkPort "pads" false]
    [0%nat; 1%nat] None.

(** Every sample point is a number. *)
Definition defined_points (pts : list JS.int) : Prop :=
  Forall (fun y : JS.int => y <> None) pts.

(** The canvas has some height, and there is a synth for every sample
    point and for every note asked for. *)
Definition staffed (st : App.State) : Prop :=
  (exists c, App.canvas st = Some c /\ App.height c <> 0) /\
  (length (App.samplePoints st) <= length (App.synths st))%nat /\
  (App.numberOfNotes st <= length (App.synths st))%nat.

(** An event that is not the loading of an image without height. *)
Definition tall (e : Surface.Event) : Prop :=
  match e with
  | Surface.ImageLoaded _ h _ => h <> 0
  | _ => True
  end.

(** An event that is not the loading of an image of another width than
    [w]. *)
Definition as_wide (w : Z) (e : Surface.Event) : Prop :=
  match e with
  | Surface.ImageLoaded w' _ _ => w' = w
  | _ => True
  end.

(** The canvas is [w] wide and the cursor is on the frame. *)
Definition framed (w : Z) (st : App.State) : Prop :=
  exists c, App.canvas st = Some c /\ App.width c = w /\
            on_axis w (App.cursorPosition st).

(** * Properties *)

(** ** The voice pool *)

Section VoicePool.

Import Tone.

Lemma pop_while_firstn (fuel value : nat) (pool : list Synth) :
  (length pool - value <= fuel)%nat ->
  AudioVisualizer.pop_while fuel value pool = firstn value pool.
Proof.
  revert pool; induction fuel as [|fuel IH]; intros pool Hfuel; simpl.
  - symmetry; apply firstn_all2; lia.
  - destruct (Nat.ltb_spec value (length pool)) as [Hlt|Hge].
    + rewrite IH.
      * rewrite removelast_firstn_len, firstn_firstn.
        f_equal; lia.
      * rewrite removelast_firstn_len, length_firstn; lia.
    + symmetry; apply firstn_all2; lia.
Qed.

Lemma push_while_repeat (fuel value : nat) c playing (pool : list Synth) :
  (value - length pool <= fuel)%nat ->
  AudioVisualizer.push_while fuel value c playing pool =
  pool ++ repeat (AudioVisualizer.grown_synth c playing)
                 (value - length pool).
Proof.
  revert pool; induction fuel as [|fuel IH]; intros pool Hfuel; simpl.
  - replace (value - length pool)%nat with 0%nat by lia.
    simpl; now rewrite app_nil_r.
  - destruct (Nat.ltb_spec (length pool) value) as [Hlt|Hge].
    + rewrite IH by (rewrite length_app; simpl; lia).
      rewrite length_app; simpl.
      replace (value - length pool)%nat
        with (S (value - (length pool + 1)))%nat by lia.
      simpl; now rewrite <- app_assoc.
    + replace (value - length pool)%nat with 0%nat by lia.
      simpl; now rewrite app_nil_r.
Qed.

(** Both loops leave through their exit test, not for want of fuel. *)
Lemma pop_while_exit (value : nat) (pool : list Synth) :
  (length (AudioVisualizer.pop_while (length pool) value pool) <= value)%nat.
Proof.
  rewrite pop_while_firstn by lia.
  rewrite length_firstn; lia.
Qed.

Lemma push_while_exit (value : nat) c playing (pool : list Synth) :
  (value <=
   length (AudioVisualizer.push_while value value c playing pool))%nat.
Proof.
  rewrite push_while_repeat by lia.
  rewrite length_app, repeat_length; lia.
Qed.

Lemma updateVoiceCount_synths (value : nat) (st : AudioVisualizer.State) :
  AudioVisualizer.synths (AudioVisualizer.updateVoiceCount value st) =
  firstn value (AudioVisualizer.synths st)
    ++ repeat (AudioVisualizer.grown_synth (AudioVisualizer.controls st)
                                           (AudioVisualizer.isPlaying st))
              (value - length (AudioVisualizer.synths st)).
Proof.
  unfold AudioVisualizer.updateVoiceCount; simpl.
  rewrite pop_while_firstn by lia.
  rewrite push_while_repeat by lia.
  rewrite length_firstn.
  f_equal; f_equal; lia.
Qed.

Lemma grown_synth_shares c playing :
  shares c (AudioVisualizer.grown_synth c playing).
Proof. destruct playing; split; reflexivity. Qed.

(** [startAudio] hands every voice of the pool the shared settings. *)
Lemma startAudio_shares (st : AudioVisualizer.State) :
  Forall (shares (AudioVisualizer.controls st))
         (AudioVisualizer.synths (fst (AudioVisualizer.startAudio st))).
Proof.
  simpl; apply Forall_forall; intros s Hs.
  apply in_map_iff in Hs as (s0 & <- & _); split; reflexivity.
Qed.

Lemma updateVoiceCount_length (value : nat) (st : AudioVisualizer.State) :
  length (AudioVisualizer.synths (AudioVisualizer.updateVoiceCount value st))
  = value.
Proof.
  rewrite updateVoiceCount_synths, length_app, length_firstn, repeat_length.
  lia.
Qed.

Lemma updateSynths_synths (st : App.State) :
  App.synths (App.updateSynths st) = repeat new_Synth (App.numberOfNotes st).
Proof.
  unfold App.updateSynths, App.updateSamplePoints; simpl.
  destruct (App.canvas st) as [c|]; [|reflexivity].
  destruct (App.height c =? 0); reflexivity.
Qed.

(** C3, as the code has it.  In AudioVisualizer, [updateVoiceCount v2]
    leaves exactly [v2] voices: the voices kept are the oldest ones,
    untouched, and every voice grown carries the volume and the oscillator
    type of the controls, so a pool whose voices all carry the shared
    settings still does after any resize.  In App, [updateSynths] leaves
    exactly [numberOfNotes] voices, each one a fresh synth with the
    library's defaults. *)
Theorem voice_pool_resize :
  forall (v2 : nat) (st : AudioVisualizer.State),
    let pool := AudioVisualizer.synths st in
    let pool' :=
      AudioVisualizer.synths (AudioVisualizer.updateVoiceCount v2 st) in
    length pool' = v2 /\
    firstn (length pool) pool' = firstn v2 pool /\
    Forall (shares (AudioVisualizer.controls st))
           (skipn (length pool) pool') /\
    (Forall (shares (AudioVisualizer.controls st)) pool ->
     Forall (shares (AudioVisualizer.controls st)) pool') /\
    forall st' : App.State,
      length (App.synths (App.updateSynths st')) = App.numberOfNotes st' /\
      Forall (eq new_Synth) (App.synths (App.updateSynths st')).
Proof.
  intros v2 st pool pool'.
  assert (Hpool' : pool' = firstn v2 pool
            ++ repeat (AudioVisualizer.grown_synth
                         (AudioVisualizer.controls st)
                         (AudioVisualizer.isPlaying st))
                      (v2 - length pool))
    by apply updateVoiceCount_synths.
  assert (Hgrown : forall n,
            Forall (shares (AudioVisualizer.controls st))
              (repeat (AudioVisualizer.grown_synth
                         (AudioVisualizer.controls st)
                         (AudioVisualizer.isPlaying st)) n)).
  { intro n; apply Forall_forall; intros s Hs.
    apply repeat_spec in Hs; subst s; apply grown_synth_shares. }
  repeat split.
  - apply updateVoiceCount_length.
  - rewrite Hpool'.
    destruct (Nat.le_gt_cases v2 (length pool)) as [Hle|Hgt].
    + replace (v2 - length pool)%nat with 0%nat by lia.
      simpl; rewrite app_nil_r, firstn_firstn.
      f_equal; lia.
    + rewrite (firstn_all2 (n := v2)) by lia.
      rewrite firstn_app, firstn_all, Nat.sub_diag; simpl.
      now rewrite app_nil_r.
  - rewrite Hpool'.
    destruct (Nat.le_gt_cases v2 (length pool)) as [Hle|Hgt].
    + rewrite skipn_all2; [constructor|].
      rewrite length_app, length_firstn, repeat_length; lia.
    + rewrite (firstn_all2 (n := v2)) by lia.
      rewrite skipn_app, skipn_all, Nat.sub_diag; simpl.
      apply Hgrown.
  - intro Hall; rewrite Hpool'.
    apply Forall_app; split; [|apply Hgrown].
    apply Forall_forall; intros s Hs.
    apply (proj1 (Forall_forall _ _) Hall).
    rewrite <- (firstn_skipn v2 pool); apply in_or_app; now left.
  - rewrite updateSynths_synths; apply repeat_length.
  - rewrite updateSynths_synths.
    apply Forall_forall; intros s Hs.
    apply repeat_spec in Hs; now subst.
Qed.

(** C3 as stated fails: a resize does not hand every voice the shared
    timbre and volume.  In App the two voices that [updateSynths] builds
    for the declared component are triangle synths although the shared
    waveform is sine; in AudioVisualizer, growing the mounted pool from 4
    to 6 keeps four voices at the default volume 0 although the shared
    volume is -10. *)
Lemma voice_pool_resize_defaults :
  ~ Forall (fun s => oscillator s = App.waveform App.declared)
           (App.synths (App.updateSynths App.declared)) /\
  ~ Forall (shares (AudioVisualizer.controls AudioVisualizer.mounted))
           (AudioVisualizer.synths
              (AudioVisualizer.updateVoiceCount 6 AudioVisualizer.mounted)).
Proof.
  split; intro H.
  - inversion H as [|s l Hs _]; subst; discriminate Hs.
  - inversion H as [|s l Hs _]; subst.
    destruct Hs as [Hv _]; discriminate Hv.
Qed.

End VoicePool.

(** ** Rationals and floors *)

Section Floors.

Lemma Qdiv_inject_Z (a b : Z) :
  0 < b -> (inject_Z a / inject_Z b == a # Z.to_pos b)%Q.
Proof.
  intro Hb.
  unfold Qeq, Qdiv, Qmult, Qinv, inject_Z; simpl.
  destruct b as [|p|p]; try lia.
  simpl; lia.
Qed.

Lemma Qfloor_div_Z (a b : Z) :
  0 < b -> Qfloor (inject_Z a / inject_Z b) = a / b.
Proof.
  intro Hb.
  rewrite (Qfloor_comp _ _ (Qdiv_inject_Z a b Hb)).
  unfold Qfloor; now rewrite Z2Pos.id.
Qed.

(** An integer lies below the ceiling of [q] exactly when it lies below
    [q]. *)
Lemma lt_Qceiling (m : Z) (q : Q) :
  m < Qceiling q <-> (inject_Z m < q)%Q.
Proof.
  split; intro H.
  - apply Qle_lt_trans with (inject_Z (Qceiling q - 1)).
    + rewrite <- Zle_Qle; lia.
    + apply Qceiling_lt.
  - rewrite Zlt_Qlt.
    eapply Qlt_le_trans; [exact H | apply Qle_ceiling].
Qed.

Lemma geb_true (a b : Q) : JS.geb a b = true <-> (b <= a)%Q.
Proof. apply Qle_bool_iff. Qed.

Lemma geb_false (a b : Q) : JS.geb a b = false <-> (a < b)%Q.
Proof.
  unfold JS.geb; split; intro H.
  - apply Qnot_le_lt; intro Hle.
    apply Qle_bool_iff in Hle; congruence.
  - destruct (Qle_bool b a) eqn:E; [|reflexivity].
    apply Qle_bool_iff in E.
    exfalso; eapply Qlt_not_le; eassumption.
Qed.

Lemma ltb_true (a b : Q) : JS.ltb a b = true <-> (a < b)%Q.
Proof.
  unfold JS.ltb; rewrite negb_true_iff; apply geb_false.
Qed.

Lemma ltb_false (a b : Q) : JS.ltb a b = false <-> (b <= a)%Q.
Proof.
  unfold JS.ltb; rewrite negb_false_iff; apply geb_true.
Qed.

End Floors.

(** ** The wrapping cursor (AudioVisualizer) *)

Section CursorWrap.

Variable L : Z.
Variable s : Q.
Hypothesis Hs : (0 < s)%Q.
Hypothesis HL : 0 < L.

Local Abbreviation k := (crossing L s).

Lemma crossing_pos : 0 < k.
Proof.
  apply lt_Qceiling.
  apply Qlt_shift_div_l; [exact Hs|].
  rewrite Qmult_0_l.
  change 0%Q with (inject_Z 0); rewrite <- Zlt_Qlt; exact HL.
Qed.

Lemma below_crossing (m : Z) :
  m < k <-> (s * inject_Z m < inject_Z L)%Q.
Proof.
  unfold crossing; rewrite lt_Qceiling; split; intro H.
  - apply (Qmult_lt_r _ _ s Hs) in H.
    rewrite (Qmult_comm s).
    eapply Qlt_le_trans; [exact H|].
    unfold Qdiv; rewrite <- Qmult_assoc, (Qmult_comm (/ s)).
    rewrite Qmult_inv_r, Qmult_1_r; [apply Qle_refl|].
    intro E; rewrite E in Hs; discriminate.
  - apply Qlt_shift_div_l; [exact Hs|].
    now rewrite Qmult_comm.
Qed.

Lemma advance_compat (p p' : Q) :
  (p == p')%Q ->
  (AudioVisualizer.advance L s p == AudioVisualizer.advance L s p')%Q.
Proof.
  intro E; unfold AudioVisualizer.advance.
  destruct (JS.geb (p + s) (inject_Z L)) eqn:G;
    destruct (JS.geb (p' + s) (inject_Z L)) eqn:G';
    try reflexivity; try (now rewrite E).
  - apply geb_true in G; apply geb_false in G'.
    rewrite E in G; exfalso; eapply Qlt_not_le; eassumption.
  - apply geb_false in G; apply geb_true in G'.
    rewrite E in G; exfalso; eapply Qlt_not_le; eassumption.
Qed.

Lemma cursor_after_crossing (N : nat) :
  (AudioVisualizer.cursor_after N L s 0 ==
   s * inject_Z (Z.of_nat N mod k))%Q.
Proof.
  pose proof crossing_pos as Hk.
  induction N as [|N IH].
  - simpl; rewrite Z.mod_0_l by lia; ring.
  - cbn [AudioVisualizer.cursor_after].
    rewrite (advance_compat _ _ IH).
    set (m := Z.of_nat N mod k) in *.
    assert (Hm : 0 <= m < k) by (apply Z.mod_pos_bound; exact Hk).
    assert (Hstep : (s * inject_Z m + s == s * inject_Z (m + 1))%Q)
      by (rewrite inject_Z_plus; ring).
    unfold AudioVisualizer.advance.
    destruct (JS.geb (s * inject_Z m + s) (inject_Z L)) eqn:G.
    + apply geb_true in G; rewrite Hstep in G.
      assert (Hwrap : m + 1 = k).
      { destruct (Z.lt_ge_cases (m + 1) k) as [Hlt|Hge]; [|lia].
        apply below_crossing in Hlt.
        exfalso; eapply Qlt_not_le; eassumption. }
      replace (Z.of_nat (S N) mod k) with 0; [ring|].
      rewrite Nat2Z.inj_succ; unfold m in Hwrap.
      apply Z.mod_unique with (q := Z.of_nat N / k + 1); [lia|].
      pose proof (Z.div_mod (Z.of_nat N) k); lia.
    + apply geb_false in G; rewrite Hstep in G.
      apply below_crossing in G.
      replace (Z.of_nat (S N) mod k) with (m + 1); [exact Hstep|].
      rewrite Nat2Z.inj_succ; unfold m in *.
      apply Z.mod_unique with (q := Z.of_nat N / k); [lia|].
      pose proof (Z.div_mod (Z.of_nat N) k); lia.
Qed.

(** When the speed divides the width, the crossing is the quotient and
    the remainder of the specification is the position. *)
Lemma Qmod_crossing (N j : Z) :
  (inject_Z L == s * inject_Z j)%Q ->
  k = j /\
  (Qmod (s * inject_Z N) (inject_Z L) == s * inject_Z (N mod k))%Q.
Proof.
  intro E.
  assert (Hs0 : ~ (s == 0)%Q) by (intro E0; rewrite E0 in Hs; discriminate).
  assert (Hkj : k = j).
  { unfold crossing.
    rewrite <- (Qceiling_Z j); apply Qceiling_comp.
    rewrite E; field; exact Hs0. }
  split; [exact Hkj|].
  pose proof crossing_pos as Hk; rewrite Hkj in *.
  assert (Hj0 : ~ (inject_Z j == 0)%Q).
  { change 0%Q with (inject_Z 0); rewrite inject_Z_injective; lia. }
  unfold Qmod.
  assert (Hq : (s * inject_Z N / inject_Z L == inject_Z N / inject_Z j)%Q)
    by (rewrite E; field; split; assumption).
  rewrite (Qfloor_comp _ _ Hq), Qfloor_div_Z by exact Hk.
  rewrite Z.mod_eq by lia.
  unfold Z.sub; rewrite inject_Z_plus, inject_Z_opp, inject_Z_mult, E.
  ring.
Qed.

End CursorWrap.




(** ** The bouncing cursor (App) *)

Section CursorBounce.

Variable L : Z.
Variable speed : Q.

(** The step the cursor tries first. *)
Local Abbreviation target p d := (p + inject_Z d * speed)%Q.

Lemma move_inside (p : Q) (d : Z) :
  on_axis L (target p d) ->
  App.move L speed p d = (target p d, d).
Proof.
  intros [H0 HL]; unfold App.move.
  apply geb_false in HL; apply ltb_false in H0.
  now rewrite HL, H0.
Qed.

Lemma move_outside (p : Q) (d : Z) :
  ~ on_axis L (target p d) ->
  (fst (App.move L speed p d) == p)%Q /\
  snd (App.move L speed p d) = - d.
Proof.
  intro Hout; unfold App.move.
  destruct (JS.geb (target p d) (inject_Z L)) eqn:G;
    [|destruct (JS.ltb (target p d) 0) eqn:G0]; simpl.
  - split; [|lia].
    rewrite inject_Z_mult; simpl; ring.
  - split; [|lia].
    rewrite inject_Z_mult; simpl; ring.
  - exfalso; apply Hout; split.
    + now apply ltb_false.
    + now apply geb_false.
Qed.

Lemma on_axis_dec (p : Q) : {on_axis L p} + {~ on_axis L p}.
Proof.
  unfold on_axis.
  destruct (Qlt_le_dec p 0) as [Hneg|Hpos].
  - right; intros [H0 _]; eapply Qlt_not_le; eassumption.
  - destruct (Qlt_le_dec p (inject_Z L)) as [Hlt|Hge].
    + left; now split.
    + right; intros [_ HL]; eapply Qlt_not_le; eassumption.
Qed.

Lemma on_axis_compat (p q : Q) : (p == q)%Q -> on_axis L q -> on_axis L p.
Proof. intros E [H0 HL]; split; now rewrite E. Qed.

Lemma move_on_axis (p : Q) (d : Z) :
  on_axis L p -> on_axis L (fst (App.move L speed p d)).
Proof.
  intro Hp.
  destruct (on_axis_dec (target p d)) as [Hin|Hout].
  - now rewrite move_inside.
  - eapply on_axis_compat; [apply (move_outside p d Hout) | exact Hp].
Qed.

Lemma move_n_on_axis (n : nat) (p : Q) (d : Z) :
  on_axis L p -> on_axis L (fst (App.move_n n L speed p d)).
Proof.
  intro Hp; induction n as [|n IH]; simpl; [exact Hp|].
  destruct (App.move_n n L speed p d) as [pn dn].
  now apply move_on_axis.
Qed.

End CursorBounce.




(** ** Sample points *)

Section SamplePoints.

Lemma nth_error_map_seq {A} (f : nat -> A) (s n i : nat) (a : A) :
  nth_error (map f (seq s n)) i = Some a ->
  (i < n)%nat /\ a = f (s + i)%nat.
Proof.
  revert s i; induction n as [|n IH]; intros s i H.
  - destruct i; discriminate H.
  - destruct i as [|i]; simpl in H.
    + injection H as <-; split; [lia | f_equal; lia].
    + apply IH in H as [Hi ->]; split; [lia | f_equal; lia].
Qed.

Lemma ascending_map_seq (f : nat -> Z) (n : nat) :
  (forall i, (S i < n)%nat -> f i < f (S i)) ->
  ascending (map f (seq 0 n)).
Proof.
  intros Hstep i j a b Hij Ha Hb.
  apply nth_error_map_seq in Ha as [_ ->].
  apply nth_error_map_seq in Hb as [Hj ->]; simpl.
  induction Hij as [|j Hij IH].
  - now apply Hstep.
  - transitivity (f j); [apply IH; lia | now apply Hstep].
Qed.

Lemma Forall_map_seq {A} (P : A -> Prop) (f : nat -> A) (n : nat) :
  (forall i, (i < n)%nat -> P (f i)) -> Forall P (map f (seq 0 n)).
Proof.
  intro H; apply Forall_forall; intros a Ha.
  apply in_map_iff in Ha as (i & <- & Hi).
  apply in_seq in Hi; apply H; lia.
Qed.

(** App: the layout is the evenly spread one once there are two voices. *)
Lemma sample_point_evenly (L : Z) (v i : nat) :
  (2 <= v)%nat ->
  App.sample_point L v i =
  Some (Z.of_nat i * (L - 1) / (Z.of_nat v - 1)).
Proof.
  intro Hv; unfold App.sample_point.
  destruct (Z.eqb_spec (Z.of_nat v - 1) 0) as [E|_]; [lia|].
  now rewrite Qfloor_div_Z by lia.
Qed.

Lemma layout_evenly (L : Z) (v : nat) :
  (2 <= v)%nat -> App.layout L v = map Some (evenly L v).
Proof.
  intro Hv; unfold App.layout, evenly; rewrite map_map.
  apply map_ext; intro i; now apply sample_point_evenly.
Qed.

Lemma evenly_within (L : Z) (v : nat) :
  (2 <= v)%nat -> 0 < L ->
  Forall (fun y => 0 <= y <= L - 1) (evenly L v).
Proof.
  intros Hv HL; apply Forall_map_seq; intros i Hi; split.
  - apply Z.div_pos; nia.
  - apply Z.div_le_upper_bound; nia.
Qed.

Lemma evenly_ascending (L : Z) (v : nat) :
  (2 <= v)%nat -> Z.of_nat v <= L -> ascending (evenly L v).
Proof.
  intros Hv HL; apply ascending_map_seq; intros i Hi.
  apply Z.lt_le_trans
    with ((Z.of_nat i * (L - 1) + 1 * (Z.of_nat v - 1)) / (Z.of_nat v - 1)).
  - rewrite Z.div_add by lia; lia.
  - apply Z.div_le_mono; nia.
Qed.

(** AudioVisualizer: row [i] is the floor of [H * (2 i + 1) / (2 v)]. *)
Lemma sample_y_div (H : Z) (v i : nat) :
  (1 <= v)%nat ->
  AudioVisualizer.sample_y H v i =
  H * (2 * Z.of_nat i + 1) / (2 * Z.of_nat v).
Proof.
  intro Hv; unfold AudioVisualizer.sample_y.
  rewrite <- Qfloor_div_Z by lia.
  apply Qfloor_comp.
  rewrite !inject_Z_mult, inject_Z_plus, inject_Z_mult.
  change (inject_Z 2) with 2%Q; change (inject_Z 1) with 1%Q.
  field.
  change 0%Q with (inject_Z 0); rewrite inject_Z_injective; lia.
Qed.

Lemma rows_voices st w h img :
  rows (AudioVisualizer.voices st w h img) =
  map (AudioVisualizer.sample_y
         h (AudioVisualizer.voiceCount (AudioVisualizer.controls st)))
      (seq 0 (AudioVisualizer.voiceCount (AudioVisualizer.controls st))).
Proof.
  unfold rows, AudioVisualizer.voices; rewrite map_map.
  apply map_ext; intro i; reflexivity.
Qed.

End SamplePoints.




(** ** Pitch *)

Section Pitch.

Import Tone.

Lemma Q2R_inject_Z (z : Z) : Q2R (inject_Z z) = IZR z.
Proof. unfold Q2R; simpl; field. Qed.

Lemma Q2R_semitones (step : Z) :
  Q2R (inject_Z step / 12) = (IZR step / 12)%R.
Proof.
  rewrite Q2R_div by discriminate.
  rewrite Q2R_inject_Z.
  change 12%Q with (inject_Z 12); now rewrite Q2R_inject_Z.
Qed.

Lemma Q2R_nonneg (q : Q) : (0 <= q)%Q -> (0 <= Q2R q)%R.
Proof.
  intro H; apply Qle_Rle in H.
  now rewrite RMicromega.Q2R_0 in H.
Qed.

(** A larger exponent on a non-negative base is a higher pitch. *)
Lemma Hz_monotone (b e1 e2 : Q) :
  (0 <= b)%Q -> (e1 <= e2)%Q ->
  (Hz (mkFreq b e1) <= Hz (mkFreq b e2))%R.
Proof.
  intros Hb He; unfold Hz; simpl.
  apply Rmult_le_compat_l; [now apply Q2R_nonneg|].
  apply Rle_Rpower; [lra | now apply Qle_Rle].
Qed.

Lemma noteFrequencies_pos (n : AudioVisualizer.PitchClass) :
  (0 <= AudioVisualizer.noteFrequencies n)%Q.
Proof. destruct n; discriminate. Qed.

Section Table.

Variable table : list Z.
Hypothesis nonempty : table <> [].

Local Abbreviation last_index := (Z.of_nat (length table) - 1).

Lemma last_index_nonneg : 0 <= last_index.
Proof.
  destruct table; [congruence | simpl length; lia].
Qed.

(** The index of a brightness in [0, 1] is an index of the table. *)
Lemma noteIndex_in_range (b : Q) :
  (0 <= b)%Q -> (b <= 1)%Q ->
  0 <= Qfloor (b * inject_Z last_index) <= last_index.
Proof.
  intros H0 H1; pose proof last_index_nonneg as Hl.
  assert (Hq : (0 <= inject_Z last_index)%Q)
    by (change 0%Q with (inject_Z 0); now rewrite <- Zle_Qle).
  split.
  - rewrite <- (Qfloor_Z 0); apply Qfloor_resp_le.
    now apply Qmult_le_0_compat.
  - rewrite <- (Qfloor_Z last_index) at 2; apply Qfloor_resp_le.
    rewrite <- (Qmult_1_l (inject_Z last_index)) at 2.
    now apply Qmult_le_compat_r.
Qed.

Lemma noteIndex_monotone (b1 b2 : Q) :
  (b1 <= b2)%Q ->
  Qfloor (b1 * inject_Z last_index) <= Qfloor (b2 * inject_Z last_index).
Proof.
  intro H; pose proof last_index_nonneg as Hl.
  apply Qfloor_resp_le, Qmult_le_compat_r; [exact H|].
  change 0%Q with (inject_Z 0); now rewrite <- Zle_Qle.
Qed.

(** In range, [scales[scale][noteIndex] || 0] is the table entry. *)
Lemma scaleStep_entry (b : Q) :
  (0 <= b)%Q -> (b <= 1)%Q ->
  exists step,
    JS.get table (Qfloor (b * inject_Z last_index)) = Some step /\
    App.scaleStep table (Some b) = step.
Proof.
  intros H0 H1.
  pose proof (noteIndex_in_range b H0 H1) as [Hlo Hhi].
  unfold App.scaleStep, App.noteIndex, JS.lift1, JS.get_int, JS.get.
  destruct (Z.ltb_spec (Qfloor (b * inject_Z last_index)) 0); [lia|].
  destruct (nth_error table (Z.to_nat (Qfloor (b * inject_Z last_index))))
    as [step|] eqn:E.
  - exists step; split; [reflexivity|].
    destruct (Z.eqb_spec step 0); congruence.
  - apply nth_error_None in E; lia.
Qed.

Hypothesis sorted : StronglySorted Z.le table.

Lemma sorted_nth_error (l : list Z) (i j : nat) (a b : Z) :
  StronglySorted Z.le l -> (i <= j)%nat ->
  nth_error l i = Some a -> nth_error l j = Some b -> a <= b.
Proof.
  intro Hs; revert i j; induction Hs as [|x l Hs IH Hx]; intros i j Hij Ha Hb.
  - destruct i; discriminate.
  - destruct i as [|i], j as [|j]; simpl in *; try lia.
    + injection Ha as <-; injection Hb as <-; lia.
    + injection Ha as <-.
      apply nth_error_In in Hb.
      exact (proj1 (Forall_forall _ _) Hx b Hb).
    + apply (IH i j); [lia | assumption | assumption].
Qed.

Lemma scaleStep_monotone (b1 b2 : Q) :
  (0 <= b1)%Q -> (b1 <= b2)%Q -> (b2 <= 1)%Q ->
  App.scaleStep table (Some b1) <= App.scaleStep table (Some b2).
Proof.
  intros H0 H12 H1.
  assert (H1' : (b1 <= 1)%Q) by (eapply Qle_trans; eassumption).
  assert (H0' : (0 <= b2)%Q) by (eapply Qle_trans; eassumption).
  destruct (scaleStep_entry b1 H0 H1') as (s1 & G1 & ->).
  destruct (scaleStep_entry b2 H0' H1) as (s2 & G2 & ->).
  pose proof (noteIndex_in_range b1 H0 H1') as [Hlo1 _].
  pose proof (noteIndex_in_range b2 H0' H1) as [Hlo2 _].
  pose proof (noteIndex_monotone b1 b2 H12) as Hmono.
  unfold JS.get in G1, G2.
  destruct (Z.ltb_spec (Qfloor (b1 * inject_Z last_index)) 0); [lia|].
  destruct (Z.ltb_spec (Qfloor (b2 * inject_Z last_index)) 0); [lia|].
  eapply (sorted_nth_error table); [exact sorted | | exact G1 | exact G2].
  lia.
Qed.

End Table.

Lemma scales_nonempty (s : App.ScaleName) : App.scales s <> [].
Proof. destruct s; discriminate. Qed.

Lemma scales_sorted (s : App.ScaleName) :
  StronglySorted Z.le (App.scales s).
Proof. destruct s; simpl; repeat constructor; lia. Qed.

End Pitch.

(** C6.  In scale-quantized mode, for every brightness in [0, 1], every
    non-empty scale table, base note and octave, with [baseFreq] the
    frequency Tone.js gives the note, the index
    [floor(brightness * (len - 1))] is an index of the table, and the
    frequency produced is the base frequency times 2 to the power of that
    table entry over 12.  At brightness 0 the index is 0, at brightness 1 it
    is the last one. *)
Theorem quantized_frequency (toFrequency : string -> Z -> Q)
    (baseNote : string) (octave : Z) (table : list Z) (b : Q) :
  table <> [] -> (0 <= b)%Q -> (b <= 1)%Q ->
  let baseFreq := toFrequency baseNote octave in
  let index := Qfloor (b * inject_Z (Z.of_nat (length table) - 1)) in
  App.noteIndex table (Some b) = Some index /\
  0 <= index < Z.of_nat (length table) /\
  (exists step : Z,
     JS.get table index = Some step /\
     Tone.Hz (App.frequency baseFreq table (Some b)) =
     (Q2R baseFreq * Rpower 2 (IZR step / 12))%R) /\
  App.noteIndex table (Some 0%Q) = Some 0 /\
  App.noteIndex table (Some 1%Q) = Some (Z.of_nat (length table) - 1).
Proof.
  intros Hne H0 H1 baseFreq index; subst index.
  split; [reflexivity|]; split; [|split; [|split]].
  - pose proof (noteIndex_in_range table Hne b H0 H1); lia.
  - destruct (scaleStep_entry table Hne b H0 H1) as (step & Hget & Hstep).
    exists step; split; [exact Hget|].
    unfold App.frequency, Tone.Hz; simpl Tone.base; simpl Tone.exponent.
    now rewrite Hstep, Q2R_semitones.
  - reflexivity.
  - unfold App.noteIndex, JS.lift1; f_equal.
    rewrite <- (Qfloor_Z (Z.of_nat (length table) - 1)) at 2.
    apply Qfloor_comp; ring.
Qed.

Lemma quantized_frequency_witness :
  App.scales App.major <> [] /\ (0 <= 1 # 2)%Q /\ (1 # 2 <= 1)%Q /\
  App.noteIndex (App.scales App.major) (Some (1 # 2)) = Some 3.
Proof.
  assert (Hne : App.scales App.major <> []) by discriminate.
  assert (H0 : (0 <= 1 # 2)%Q) by discriminate.
  assert (H1 : (1 # 2 <= 1)%Q) by discriminate.
  repeat (split; [assumption|]).
  exact (proj1 (quantized_frequency (fun _ _ => 196%Q) "G"%string 3
                  (App.scales App.major) (1 # 2) Hne H0 H1)).
Defined.

(** C7.  With base note, octave and scale fixed, the frequency does not
    decrease when the normalized value grows within [0, 1]: in the
    continuous variant of AudioVisualizer, and in the scale-quantized
    variant of App with any of the four shipped tables and a base frequency
    that is not negative. *)
Theorem frequency_monotone (v1 v2 : Q) :
  (0 <= v1)%Q -> (v1 <= v2)%Q -> (v2 <= 1)%Q ->
  (forall c : AudioVisualizer.Controls,
     exists f1 f2 : Tone.Freq,
       AudioVisualizer.frequency c (Some v1) = Some f1 /\
       AudioVisualizer.frequency c (Some v2) = Some f2 /\
       (Tone.Hz f1 <= Tone.Hz f2)%R) /\
  (forall (s : App.ScaleName) (baseFreq : Q),
     (0 <= baseFreq)%Q ->
     (Tone.Hz (App.frequency baseFreq (App.scales s) (Some v1)) <=
      Tone.Hz (App.frequency baseFreq (App.scales s) (Some v2)))%R).
Proof.
  intros H0 H12 H1; split.
  - intro c; eexists; eexists.
    split; [reflexivity|]; split; [reflexivity|].
    apply Hz_monotone; [apply noteFrequencies_pos|].
    now apply Qplus_le_r.
  - intros s baseFreq Hb; unfold App.frequency.
    apply Hz_monotone; [exact Hb|].
    apply Qmult_le_compat_r; [|discriminate].
    rewrite <- Zle_Qle.
    apply scaleStep_monotone; auto using scales_nonempty, scales_sorted.
Qed.

Lemma frequency_monotone_witness :
  (0 <= 1 # 4)%Q /\ (1 # 4 <= 3 # 4)%Q /\ (3 # 4 <= 1)%Q /\
  (Tone.Hz (App.frequency 196 (App.scales App.pentatonic) (Some (1 # 4))) <=
   Tone.Hz (App.frequency 196 (App.scales App.pentatonic) (Some (3 # 4))))%R.
Proof.
  assert (H0 : (0 <= 1 # 4)%Q) by discriminate.
  assert (H12 : (1 # 4 <= 3 # 4)%Q) by discriminate.
  assert (H1 : (3 # 4 <= 1)%Q) by discriminate.
  repeat (split; [assumption|]).
  apply (proj2 (frequency_monotone (1 # 4) (3 # 4) H0 H12 H1)).
  discriminate.
Defined.

(** ** Pixel lookups *)

Section Pixels.

Variables w h : Z.
Variable img : ImageData.
Hypothesis Hw : 0 < w.
Hypothesis Hh : 0 < h.
Hypothesis Hframe : frame_ok w h img.

Lemma get_in_frame (i : Z) :
  0 <= i < 4 * w * h ->
  exists c : Z, JS.get (data img) i = Some c /\ 0 <= c <= 255.
Proof.
  intros Hi; destruct Hframe as [Hlen Hbytes]; unfold JS.get.
  destruct (Z.ltb_spec i 0) as [|_]; [lia|].
  destruct (nth_error (data img) (Z.to_nat i)) as [c|] eqn:E.
  - exists c; split; [reflexivity|].
    apply nth_error_In in E.
    exact (proj1 (Forall_forall _ _) Hbytes c E).
  - apply nth_error_None in E; lia.
Qed.

Lemma byte_normalized (c : Z) :
  0 <= c <= 255 -> (0 <= inject_Z c / 255)%Q /\ (inject_Z c / 255 <= 1)%Q.
Proof.
  intro Hc; unfold Qle, Qdiv, Qmult, Qinv, inject_Z; simpl; lia.
Qed.

Lemma channel_normalized (i : Z) :
  0 <= i < 4 * w * h -> normalized (channel img i).
Proof.
  intro Hi; destruct (get_in_frame i Hi) as (c & Hget & Hc).
  unfold channel; rewrite Hget; simpl.
  eexists; split; [reflexivity | now apply byte_normalized].
Qed.

(** The four channels of a pixel of the frame lie inside the buffer. *)
Lemma pixel_index (x y : Z) :
  0 <= x < w -> 0 <= y < h ->
  0 <= (y * w + x) * 4 /\ (y * w + x) * 4 + 3 < 4 * w * h.
Proof. intros Hx Hy; nia. Qed.

Lemma rgba_normalized (x y : Z) :
  0 <= x < w -> 0 <= y < h ->
  let '(r, g, b, a) := AudioVisualizer.rgba w img x y in
  normalized r /\ normalized g /\ normalized b /\ normalized a.
Proof.
  intros Hx Hy; pose proof (pixel_index x y Hx Hy) as [Hlo Hhi].
  unfold AudioVisualizer.rgba.
  repeat split; apply channel_normalized; lia.
Qed.

Lemma colorValue_normalized (x y : Z) :
  0 <= x < w -> 0 <= y < h ->
  normalized (AudioVisualizer.colorValue w img x y).
Proof.
  intros Hx Hy; pose proof (rgba_normalized x y Hx Hy) as H.
  unfold AudioVisualizer.colorValue.
  destruct (AudioVisualizer.rgba w img x y) as [[[r g] b] a].
  destruct H as ((qr & -> & Hr0 & Hr1) & (qg & -> & Hg0 & Hg1)
                 & (qb & -> & Hb0 & Hb1) & _).
  simpl; eexists; split; [reflexivity|].
  split.
  - apply Qle_shift_div_l; [reflexivity | lra].
  - apply Qle_shift_div_r; [reflexivity | lra].
Qed.

Lemma brightness_normalized (x y : Z) :
  0 <= x < w -> 0 <= y < h ->
  normalized (App.getBrightnessAtPoint w (Some img) x (Some y)).
Proof.
  intros Hx Hy; pose proof (pixel_index x y Hx Hy) as [Hlo Hhi].
  unfold App.getBrightnessAtPoint, JS.lift1, JS.get_int.
  destruct (get_in_frame ((y * w + x) * 4)) as (r & -> & Hr); [lia|].
  destruct (get_in_frame (1 + (y * w + x) * 4)) as (g & -> & Hg); [lia|].
  destruct (get_in_frame (2 + (y * w + x) * 4)) as (b & -> & Hb); [lia|].
  simpl; eexists; split; [reflexivity|].
  unfold Qle, Qdiv, Qmult, Qinv, inject_Z; simpl; lia.
Qed.

Lemma clamp_in_range (hi v : Z) : 0 <= hi -> 0 <= JS.clamp hi v <= hi.
Proof. unfold JS.clamp; lia. Qed.

(** The clamped neighbour of any pixel, on or off the frame, is a pixel of
    the frame. *)
Lemma neighbour_normalized (x y dx dy : Z) :
  normalized
    (App.getBrightnessAtPoint w (Some img)
       (JS.clamp (w - 1) (x + dx)) (Some (JS.clamp (h - 1) (y + dy)))).
Proof.
  pose proof (clamp_in_range (w - 1) (x + dx)).
  pose proof (clamp_in_range (h - 1) (y + dy)).
  apply brightness_normalized; lia.
Qed.

(** After the first neighbour the running minimum and maximum are in
    order and within [0, 255]. *)
Lemma contrast_step_spanned (x y : Z) acc (d : Z * Z) :
  bounded acc ->
  spanned (App.contrast_step (App.mkCanvas w h) (Some img) x (Some y) acc d).
Proof.
  intros (lo & hi & -> & Hlo & Hhi); destruct d as [dy dx].
  destruct (neighbour_normalized x y dx dy) as (b & Hb & Hb0 & Hb1).
  unfold App.contrast_step; cbn [App.width App.height JS.lift1 fst snd].
  rewrite Hb; cbn [JS.lift1 JS.min JS.max JS.lift2].
  assert (HB0 : (0 <= b * 255)%Q) by lra.
  assert (HB1 : (b * 255 <= 255)%Q) by lra.
  exists (Qmin lo (b * 255)), (Qmax hi (b * 255)).
  split; [reflexivity|]; split; [|split].
  - now apply Q.min_glb.
  - apply Qle_trans with (b * 255)%Q; [apply Q.le_min_r | apply Q.le_max_r].
  - now apply Q.max_lub.
Qed.

Lemma contrast_fold_spanned (x y : Z) (ds : list (Z * Z)) acc :
  ds <> [] -> bounded acc ->
  spanned
    (fold_left (App.contrast_step (App.mkCanvas w h) (Some img) x (Some y))
               ds acc).
Proof.
  intros Hne Hacc; destruct ds as [|d ds]; [congruence|]; clear Hne.
  simpl; apply (contrast_step_spanned x y _ d) in Hacc.
  revert Hacc.
  generalize
    (App.contrast_step (App.mkCanvas w h) (Some img) x (Some y) acc d).
  induction ds as [|d' ds IH]; intros acc' Hacc'; simpl; [exact Hacc'|].
  apply IH, contrast_step_spanned.
  destruct Hacc' as (lo & hi & -> & Hlo & _ & Hhi).
  now exists lo, hi.
Qed.

Lemma contrast_normalized (x y : Z) :
  normalized
    (App.getContrastAroundPoint (App.mkCanvas w h) (Some img) x (Some y)).
Proof.
  unfold App.getContrastAroundPoint.
  destruct (contrast_fold_spanned x y
              (list_prod (App.offsets 5) (App.offsets 5))
              (Some 255%Q, Some 0%Q))
    as (lo & hi & -> & Hlo & Hspan & Hhi).
  - discriminate.
  - exists 255%Q, 0%Q; repeat split; discriminate.
  - cbn [JS.lift1 JS.lift2]; eexists; split; [reflexivity|].
    split.
    + apply Qle_shift_div_l; [reflexivity | lra].
    + apply Qle_shift_div_r; [reflexivity | lra].
Qed.

End Pixels.




(** ** Onsets (App) *)

Section Onsets.

Variable toFrequency : string -> Z -> Q.

Lemma set_length {A} (l : list A) (i : nat) (v : A) :
  length (JS.set l i v) = length l.
Proof.
  revert i; induction l as [|a l IH]; intros [|i]; simpl; auto.
Qed.

(** With a synth for every sample point, [forEach] triggers each of them
    and returns. *)
Lemma forEach_enough st c x t (pts : list JS.int) :
  forall (index : nat) (pool : list Tone.Synth),
    (index + length pts <= length pool)%nat ->
    exists pool' effects,
      App.forEach toFrequency st c x t pts index pool
      = (pool', effects, App.Returns) /\
      length pool' = length pool /\
      length (filter App.is_onset effects) = length pts /\
      (pts <> [] -> existsb App.is_onset effects = true).
Proof.
  induction pts as [|y pts IH]; intros index pool Hlen.
  - exists pool, []; repeat split; congruence.
  - simpl in Hlen; cbn [App.forEach].
    destruct (nth_error pool index) as [synth|] eqn:E;
      [|apply nth_error_None in E; lia].
    match goal with
    | |- context [App.forEach _ _ _ _ _ _ _ ?p] =>
        destruct (IH (S index) p) as (pool' & effects & -> & Hl & Hn & _)
    end.
    { rewrite set_length; lia. }
    eexists; eexists; split; [reflexivity|].
    rewrite Hl, set_length; simpl; rewrite Hn.
    repeat split; reflexivity.
Qed.



Lemma drawing_onsets x img hgt pts :
  filter App.is_onset (App.drawing x img hgt pts) = [] /\
  existsb App.is_onset (App.drawing x img hgt pts) = false /\
  existsb App.is_request (App.drawing x img hgt pts) = true.
Proof.
  unfold App.drawing; simpl.
  induction pts as [|y pts (IH1 & IH2 & IH3)]; simpl; auto.
Qed.

(** One tick of a scanning loop. *)
Lemma scan_scanning (t : Q) (st : App.State) :
  scanning st ->
  let r := App.scan toFrequency t st in
  scanning (App.state_of r) /\
  existsb App.is_request (App.effects_of r) = true /\
  existsb App.is_onset (App.effects_of r) = App.due t st /\
  length (filter App.is_onset (App.effects_of r))
  = (if App.due t st then length (App.samplePoints st) else 0%nat) /\
  App.lastPlayTime (App.state_of r)
  = (if App.due t st then t else App.lastPlayTime st).
Proof.
  intros ((Hplay & (c & Hc) & Hpts & Hlen) & (img & Himg)) r; subst r.
  unfold App.scan; rewrite Hplay, Hc.
  destruct (App.due t st) eqn:D.
  - destruct (forEach_enough st c (Qfloor (App.cursorPosition st)) t
                (App.samplePoints st) 0 (App.synths st))
      as (pool & onsets & -> & Hl & Hn & Hex); [simpl; lia|].
    specialize (Hex Hpts).
    cbn [App.cursorSpeed App.cursorPosition App.direction
         App.with_lastPlayTime App.with_synths].
    destruct (App.move (App.width c) (App.cursorSpeed st)
                (App.cursorPosition st) (App.direction st)) as [p d].
    change (App.imageData
              (App.with_cursor p d
                 (App.with_lastPlayTime t (App.with_synths pool st))))
      with (App.imageData st).
    change (App.samplePoints
              (App.with_cursor p d
                 (App.with_lastPlayTime t (App.with_synths pool st))))
      with (App.samplePoints st).
    rewrite Himg.
    
    destruct (drawing_onsets (Qfloor (App.cursorPosition st)) img
                (App.height c) (App.samplePoints st)) as (Hf & He & Hr).
    unfold App.state_of, App.effects_of, scanning, voiced; simpl.
    rewrite !existsb_app, filter_app, length_app, Hf, Hr, Hex, Hn, Hl.
    rewrite orb_true_r; simpl.
    repeat split; eauto; lia.
  - destruct (App.move (App.width c) (App.cursorSpeed st)
                (App.cursorPosition st) (App.direction st)) as [p d].
    change (App.imageData (App.with_cursor p d st)) with (App.imageData st).
    change (App.samplePoints (App.with_cursor p d st))
      with (App.samplePoints st).
    rewrite Himg.
    
    destruct (drawing_onsets (Qfloor (App.cursorPosition st)) img
                (App.height c) (App.samplePoints st)) as (Hf & He & Hr).
    unfold App.state_of, App.effects_of, scanning, voiced; cbn [fst snd app].
    rewrite Hf, Hr, He.
    repeat split; eauto.
Qed.

(** The onsets of one tick of a voiced state, with a frame or without. *)
Lemma scan_voiced (t : Q) (st : App.State) :
  voiced st ->
  let r := App.scan toFrequency t st in
  existsb App.is_onset (App.effects_of r) = App.due t st /\
  length (filter App.is_onset (App.effects_of r))
  = (if App.due t st then length (App.samplePoints st) else 0%nat) /\
  App.lastPlayTime (App.state_of r)
  = (if App.due t st then t else App.lastPlayTime st).
Proof.
  intros Hst r; subst r.
  destruct (App.imageData st) as [img|] eqn:Himg.
  - assert (Hscan : scanning st) by (split; eauto).
    now destruct (scan_scanning t st Hscan) as (_ & _ & Ho & Hn & Hl).
  - destruct Hst as (Hplay & (c & Hc) & Hpts & Hlen).
    unfold App.scan; rewrite Hplay, Hc.
    destruct (App.due t st) eqn:D.
    + destruct (forEach_enough st c (Qfloor (App.cursorPosition st)) t
                  (App.samplePoints st) 0 (App.synths st))
        as (pool & onsets & -> & Hl & Hn & Hex); [simpl; lia|].
      specialize (Hex Hpts).
      cbn [App.cursorSpeed App.cursorPosition App.direction
           App.with_lastPlayTime App.with_synths].
      destruct (App.move (App.width c) (App.cursorSpeed st)
                  (App.cursorPosition st) (App.direction st)) as [p d].
      change (App.imageData
                (App.with_cursor p d
                   (App.with_lastPlayTime t (App.with_synths pool st))))
        with (App.imageData st).
      rewrite Himg.
      unfold App.state_of, App.effects_of; simpl.
      now rewrite Hex, Hn.
    + destruct (App.move (App.width c) (App.cursorSpeed st)
                  (App.cursorPosition st) (App.direction st)) as [p d].
      change (App.imageData (App.with_cursor p d st))
        with (App.imageData st).
      rewrite Himg.
      unfold App.state_of, App.effects_of; simpl.
      repeat split; reflexivity.
Qed.

Lemma run_scanning (t : Q) (rest : list Q) (st : App.State) :
  scanning st ->
  App.run toFrequency (t :: rest) st =
  (fst (App.run toFrequency rest
          (App.state_of (App.scan toFrequency t st))),
   App.due t st
     :: snd (App.run toFrequency rest
               (App.state_of (App.scan toFrequency t st)))).
Proof.
  intro Hst.
  destruct (scan_scanning t st Hst) as (_ & Hr & Ho & _).
  cbn [App.run].
  destruct (App.scan toFrequency t st) as [[st1 effects] completion].
  unfold App.state_of, App.effects_of in *; cbn [fst snd] in *.
  rewrite Hr, Ho.
  now destruct (App.run toFrequency rest st1).
Qed.

Lemma due_true (t : Q) (st : App.State) :
  App.due t st = true <->
  (App.minTimeBetweenNotes <= t - App.lastPlayTime st)%Q.
Proof. apply geb_true. Qed.

Lemma due_false (t : Q) (st : App.State) :
  App.due t st = false <->
  (t - App.lastPlayTime st < App.minTimeBetweenNotes)%Q.
Proof. apply geb_false. Qed.

End Onsets.


(** Pressing play on a paused component whose pool was just rebuilt, on a
    canvas with some height and with at least one note, gives a voiced
    state. *)
Lemma togglePlay_voiced (now : Q) (st : App.State) (c : App.Canvas) :
  App.isPlaying st = false ->
  App.canvas st = Some c ->
  App.height c <> 0 ->
  (1 <= App.numberOfNotes st)%nat ->
  voiced (fst (App.togglePlay now (App.updateSynths st))).
Proof.
  intros Hplay Hc Hh Hn.
  unfold App.updateSynths, App.updateSamplePoints; simpl; rewrite Hc.
  destruct (Z.eqb_spec (App.height c) 0) as [E|_]; [contradiction|].
  unfold voiced; simpl; rewrite Hplay, Hc; simpl.
  unfold App.layout; rewrite length_map, length_seq, repeat_length.
  repeat split; eauto.
  destruct (App.numberOfNotes st); [lia | discriminate].
Qed.

Lemma playing_voiced : voiced App.playing.
Proof.
  unfold voiced; simpl.
  repeat split; eauto; try discriminate.
Qed.


(** ** One tick of AudioVisualizer *)

Section Tick.

Import AudioVisualizer.

Lemma points_app (e1 e2 : list Effect) :
  points (e1 ++ e2) = points e1 ++ points e2.
Proof. apply flat_map_app. Qed.

Lemma ramped_app (e1 e2 : list Effect) :
  ramped (e1 ++ e2) = ramped e1 ++ ramped e2.
Proof. apply flat_map_app. Qed.

(** The ramps: one for each voice that has its synth, none drawn. *)
Lemma ramps_from (pool : list Tone.Synth) (now : Q)
    (vs : list (Z * Z * option Tone.Freq)) (s : nat) :
  let es :=
    concat
      (map (fun '(i, (_, _, f)) =>
              match nth_error pool i with
              | Some _ => [RampTo i f (1 # 10) now]
              | None => []
              end)
           (combine (seq s (length vs)) vs)) in
  points es = [] /\
  ramped es =
  firstn (length pool - s)
         (combine (seq s (length vs)) (map snd vs)).
Proof.
  revert s; induction vs as [|[[x y] f] vs IH]; intro s; simpl.
  - now rewrite firstn_nil.
  - destruct (IH (S s)) as [IHp IHr].
    rewrite points_app, ramped_app, IHp, IHr.
    destruct (nth_error pool s) as [synth|] eqn:E; simpl.
    + assert (s < length pool)%nat
        by (apply nth_error_Some; congruence).
      replace (length pool - s)%nat with (S (length pool - S s)) by lia.
      split; reflexivity.
    + apply nth_error_None in E.
      replace (length pool - s)%nat with 0%nat by lia.
      replace (length pool - S s)%nat with 0%nat by lia.
      split; reflexivity.
Qed.

Lemma drawn_points (vs : list (Z * Z * option Tone.Freq)) :
  points (map (fun '(x, y, _) => DrawPoint x y) vs) = map fst vs /\
  ramped (map (fun '(x, y, _) => DrawPoint x y) vs) = [].
Proof.
  induction vs as [|[[x y] f] vs [IHp IHr]]; simpl; [auto|].
  now rewrite IHp, IHr.
Qed.

(** What a tick that has a frame draws and ramps. *)
Lemma updateAudio_effects (now : Q) (captured : ImageData) (st : State)
    (w h : Z) :
  frame_size st = Some (w, h) ->
  let vs := voices st w h captured in
  points (snd (updateAudio now captured st)) = map fst vs /\
  ramped (snd (updateAudio now captured st)) =
  firstn (length (synths st)) (combine (seq 0 (length vs)) (map snd vs)) /\
  In RequestAnimationFrame (snd (updateAudio now captured st)).
Proof.
  intros Hsize vs; unfold frame_size in Hsize; unfold updateAudio.
  destruct (source st) as [[[w' h'] draw]|] eqn:Hsource; [|discriminate].
  injection Hsize as -> ->; cbn [snd].
  assert (Hdraw : points [draw] = [] /\ ramped [draw] = []).
  { unfold source in Hsource.
    destruct (inputType st), (imageData st), (videoElement st) as [v|];
      try discriminate;
      try (destruct (videoWidth v =? 0); try discriminate);
      injection Hsource as <- <- <-; now split. }
  destruct Hdraw as [Hdp Hdr].
  destruct (ramps_from (synths st) now vs 0) as [Hrp Hrr].
  destruct (drawn_points vs) as [Hpp Hpr].
  fold vs; unfold ramps.
  change (draw :: ?l) with ([draw] ++ l).
  rewrite !points_app, !ramped_app, Hdp, Hdr, Hrp, Hrr.
  change (FillCursor ?c ?hh :: ?l) with ([FillCursor c hh] ++ l).
  rewrite !points_app, !ramped_app, Hpp, Hpr; simpl.
  rewrite !app_nil_r, Nat.sub_0_r.
  split; [reflexivity|]; split; [reflexivity|].
  right; apply in_or_app; right.
  right; apply in_or_app; right; now left.
Qed.

Lemma updateAudio_not_ready (now : Q) (captured : ImageData) (st : State) :
  frame_size st = None -> updateAudio now captured st = (st, []).
Proof.
  unfold frame_size, updateAudio.
  now destruct (source st) as [[[w h] draw]|].
Qed.

End Tick.



(** ** A tick without a frame *)

(** C1 fails on the code.  With the webcam selected and no stream yet, or
    with the image input and no image data, the tick of a playing loop
    returns at its guard: it changes nothing and it does not request the
    next display refresh, so no later tick runs. *)
Theorem not_ready_tick_halts (now : Q) (captured : ImageData) :
  (AudioVisualizer.isPlaying AudioVisualizer.no_stream = true /\
   AudioVisualizer.updateAudio now captured AudioVisualizer.no_stream
   = (AudioVisualizer.no_stream, []) /\
   ~ In AudioVisualizer.RequestAnimationFrame
       (snd (AudioVisualizer.updateAudio now captured
               AudioVisualizer.no_stream))) /\
  (AudioVisualizer.isPlaying AudioVisualizer.no_image = true /\
   AudioVisualizer.updateAudio now captured AudioVisualizer.no_image
   = (AudioVisualizer.no_image, []) /\
   ~ In AudioVisualizer.RequestAnimationFrame
       (snd (AudioVisualizer.updateAudio now captured
               AudioVisualizer.no_image))).
Proof.
  split; (split; [reflexivity|]);
    rewrite updateAudio_not_ready by reflexivity;
    (split; [reflexivity | intros []]).
Qed.

(** A tick that has a frame does request the next one. *)
Lemma ready_tick_reschedules (now : Q) (captured : ImageData)
    (st : AudioVisualizer.State) (w h : Z) :
  AudioVisualizer.frame_size st = Some (w, h) ->
  In AudioVisualizer.RequestAnimationFrame
     (snd (AudioVisualizer.updateAudio now captured st)).
Proof.
  intro Hsize; now apply (updateAudio_effects now captured st w h Hsize).
Qed.

(** App fares no better: its tick without image data ends in the
    [TypeError] of [putImageData], before the request. *)
Lemma forEach_no_request toFrequency st c x t (pts : list JS.int) :
  forall (index : nat) (pool : list Tone.Synth),
    existsb App.is_request
      (snd (fst (App.forEach toFrequency st c x t pts index pool))) = false.
Proof.
  induction pts as [|y pts IH]; intros index pool; [reflexivity|].
  cbn [App.forEach].
  destruct (nth_error pool index) as [synth|]; [|reflexivity].
  match goal with
  | |- context [App.forEach _ _ _ _ _ _ _ ?p] =>
      specialize (IH (S index) p);
      destruct (App.forEach toFrequency st c x t pts (S index) p)
        as [[pool' effects] completion]
  end.
  exact IH.
Qed.

Lemma scan_no_frame_throws toFrequency (t : Q) (st : App.State) c :
  App.isPlaying st = true ->
  App.canvas st = Some c ->
  App.imageData st = None ->
  App.completion_of (App.scan toFrequency t st) = App.Throws /\
  existsb App.is_request (App.effects_of (App.scan toFrequency t st)) = false.
Proof.
  intros Hplay Hc Himg; unfold App.scan; rewrite Hplay, Hc.
  destruct (App.due t st).
  - pose proof (forEach_no_request toFrequency st c
                  (Qfloor (App.cursorPosition st)) t (App.samplePoints st)
                  0 (App.synths st)) as Hno.
    destruct (App.forEach toFrequency st c (Qfloor (App.cursorPosition st)) t
                (App.samplePoints st) 0 (App.synths st))
      as [[pool effects] completion].
    cbn [fst snd] in Hno.
    destruct completion; [|now split].
    cbn [App.cursorSpeed App.cursorPosition App.direction
         App.with_lastPlayTime App.with_synths].
    destruct (App.move (App.width c) (App.cursorSpeed st)
                (App.cursorPosition st) (App.direction st)) as [p d].
    change (App.imageData
              (App.with_cursor p d
                 (App.with_lastPlayTime t (App.with_synths pool st))))
      with (App.imageData st).
    rewrite Himg; now split.
  - destruct (App.move (App.width c) (App.cursorSpeed st)
                (App.cursorPosition st) (App.direction st)) as [p d].
    change (App.imageData (App.with_cursor p d st)) with (App.imageData st).
    rewrite Himg; now split.
Qed.

(** * More of the code *)

(** ** MIDI (AudioVisualizer) *)

Section PlayerMidi.

Import AudioVisualizer.

Variable gainToDb : Q -> Q.

(** Case analysis on a byte that the code compares with literals. *)
Ltac by_bits :=
  repeat match goal with
         | |- context [match ?p with xH => _ | _ => _ end] =>
             is_var p; destruct p; try reflexivity; try lia; try congruence
         end.

Lemma getMIDIMessage_other (status : Z) (rest : list Z) (st : State) :
  status <> 144 -> status <> 176 ->
  Player.getMIDIMessage gainToDb (status :: rest) st = Some st.
Proof.
  intros H144 H176; unfold Player.getMIDIMessage.
  change (JS.get (status :: rest) 0) with (Some status).
  destruct status as [|p|p]; try reflexivity; by_bits.
Qed.

Lemma getMIDIMessage_controller (c v : Z) (rest : list Z) (st : State) :
  c <> 7 -> c <> 1 -> c <> 74 ->
  Player.getMIDIMessage gainToDb (176 :: c :: v :: rest) st = Some st.
Proof.
  intros H7 H1 H74; unfold Player.getMIDIMessage.
  change (JS.get (176 :: c :: v :: rest) 0) with (Some 176).
  change (JS.get (176 :: c :: v :: rest) 1) with (Some c).
  cbv iota beta.
  destruct c as [|p|p]; try reflexivity; by_bits.
Qed.

End PlayerMidi.

(** X1.  AudioVisualizer acts on nothing but a note-on of channel 1 with a
    velocity and the controllers 7, 1 and 74 of channel 1: every other
    message (another channel, a note-off, a note-on with velocity 0 or
    without its velocity byte, another controller, an empty message)
    leaves the state as it was. *)
Theorem midi_unheard (gainToDb : Q -> Q) (data : list Z)
    (st : AudioVisualizer.State) :
  heard data = false ->
  Player.getMIDIMessage gainToDb data st = Some st.
Proof.
  intro H.
  destruct data as [|status rest]; [reflexivity|].
  destruct (Z.eq_dec status 144) as [->|H144].
  - destruct rest as [|n [|v rest]]; try reflexivity.
    unfold heard in H; unfold Player.getMIDIMessage; simpl.
    now rewrite H.
  - destruct (Z.eq_dec status 176) as [->|H176].
    + destruct rest as [|c rest]; [reflexivity|].
      unfold heard in H.
      apply orb_false_iff in H as [H H74].
      apply orb_false_iff in H as [H7 H1].
      apply Z.eqb_neq in H7, H1, H74.
      destruct rest as [|v rest].
      * unfold Player.getMIDIMessage.
        change (JS.get [176; c] 0) with (Some 176).
        change (JS.get [176; c] 1) with (Some c).
        cbv iota beta.
        destruct c as [|p|p]; try reflexivity;
          repeat match goal with
                 | |- context [match ?p with xH => _ | _ => _ end] =>
                     is_var p; destruct p;
                     try reflexivity; try lia; try congruence
                 end.
      * now apply getMIDIMessage_controller.
    + now apply getMIDIMessage_other.
Qed.

Lemma midi_unheard_witness :
  heard [145; 60; 100] = false /\
  Player.getMIDIMessage (fun g => g) [145; 60; 100] AudioVisualizer.still
  = Some AudioVisualizer.still.
Proof.
  split; [reflexivity|].
  apply (midi_unheard (fun g => g) [145; 60; 100] AudioVisualizer.still).
  reflexivity.
Defined.

(** X2.  The modulation wheel of channel 1 sets the octave and nothing
    else: a data byte [v] gives octave [floor(v / 16) + 1], which lies in
    1..8 and does not decrease when [v] grows. *)
Theorem midi_octave (gainToDb : Q -> Q) (v v' : Z) (rest : list Z)
    (st : AudioVisualizer.State) :
  data_byte v -> data_byte v' -> v <= v' ->
  Player.getMIDIMessage gainToDb (176 :: 1 :: v :: rest) st
  = Some (Player.with_controls
            (Player.set_octave (v / 16 + 1) (AudioVisualizer.controls st))
            st) /\
  1 <= v / 16 + 1 <= 8 /\
  v / 16 + 1 <= v' / 16 + 1.
Proof.
  intros Hv Hv' Hle; unfold data_byte in *; split; [|split].
  - unfold Player.getMIDIMessage.
    change (JS.get (176 :: 1 :: v :: rest) 0) with (Some 176).
    change (JS.get (176 :: 1 :: v :: rest) 1) with (Some 1).
    change (Player.velocity_of (176 :: 1 :: v :: rest)) with v.
    cbv iota beta.
    change 16%Q with (inject_Z 16).
    now rewrite Qfloor_div_Z by lia.
  - pose proof (Z.div_pos v 16).
    pose proof (Z.div_lt_upper_bound v 16 8); lia.
  - pose proof (Z.div_le_mono v v' 16); lia.
Qed.

Lemma midi_octave_witness :
  data_byte 0 /\ data_byte 127 /\ 0 <= 127 /\
  0 / 16 + 1 <= 127 / 16 + 1.
Proof.
  assert (H0 : data_byte 0) by (unfold data_byte; lia).
  assert (H1 : data_byte 127) by (unfold data_byte; lia).
  assert (Hle : 0 <= 127) by lia.
  repeat (split; [assumption|]).
  exact (proj2 (proj2 (midi_octave (fun g => g) 0 127 []
                         AudioVisualizer.still H0 H1 Hle))).
Defined.

(** X3.  Controller 74 of channel 1 picks the waveform by the band of 32
    its data byte falls in (sine, square, sawtooth, triangle): for every
    data byte the message is handled, the controls and every voice of the
    pool take that waveform, and the volumes stay.  A value byte of 128 or
    more reads past the table. *)
Theorem midi_waveform (gainToDb : Q -> Q) (v : Z) (rest : list Z)
    (st : AudioVisualizer.State) :
  data_byte v ->
  exists (type : Tone.OscillatorType) (st' : AudioVisualizer.State),
    nth_error Player.waveforms (Z.to_nat (v / 32)) = Some type /\
    Player.getMIDIMessage gainToDb (176 :: 74 :: v :: rest) st = Some st' /\
    AudioVisualizer.oscillatorType (AudioVisualizer.controls st') = type /\
    Forall (fun s => Tone.oscillator s = type) (AudioVisualizer.synths st') /\
    map Tone.volume (AudioVisualizer.synths st')
    = map Tone.volume (AudioVisualizer.synths st) /\
    forall w : Z,
      128 <= w ->
      Player.getMIDIMessage gainToDb (176 :: 74 :: w :: rest) st = None.
Proof.
  intros Hv; unfold data_byte in Hv.
  assert (Hband : 0 <= v / 32 < 4).
  { pose proof (Z.div_pos v 32).
    pose proof (Z.div_lt_upper_bound v 32 4); lia. }
  destruct (nth_error Player.waveforms (Z.to_nat (v / 32))) as [type|] eqn:E;
    [|apply nth_error_None in E; simpl in E; lia].
  exists type; eexists; split; [reflexivity|].
  unfold Player.getMIDIMessage.
  change (JS.get (176 :: 74 :: v :: rest) 0) with (Some 176).
  change (JS.get (176 :: 74 :: v :: rest) 1) with (Some 74).
  change (Player.velocity_of (176 :: 74 :: v :: rest)) with v.
  cbv iota beta.
  change 32%Q with (inject_Z 32).
  rewrite Qfloor_div_Z by lia.
  unfold JS.get at 1.
  destruct (Z.ltb_spec (v / 32) 0) as [|_]; [lia|].
  rewrite E; split; [reflexivity|].
  split; [reflexivity|]; split; [|split].
  - simpl; apply Forall_forall; intros s Hs.
    apply in_map_iff in Hs as (s0 & <- & _); reflexivity.
  - simpl; rewrite map_map; apply map_ext; intro s; reflexivity.
  - intros w Hw.
    change (JS.get (176 :: 74 :: w :: rest) 0) with (Some 176).
    change (JS.get (176 :: 74 :: w :: rest) 1) with (Some 74).
    change (Player.velocity_of (176 :: 74 :: w :: rest)) with w.
    cbv iota beta.
    change 32%Q with (inject_Z 32).
    rewrite Qfloor_div_Z by lia.
    assert (4 <= w / 32) by (apply Z.div_le_lower_bound; lia).
    unfold JS.get.
    destruct (Z.ltb_spec (w / 32) 0) as [|_]; [lia|].
    replace (nth_error Player.waveforms (Z.to_nat (w / 32)))
      with (@None Tone.OscillatorType); [reflexivity|].
    symmetry; apply nth_error_None; simpl; lia.
Qed.

Lemma midi_waveform_witness :
  data_byte 70 /\
  exists st' : AudioVisualizer.State,
    Player.getMIDIMessage (fun g => g) [176; 74; 70] AudioVisualizer.still
    = Some st' /\
    AudioVisualizer.oscillatorType (AudioVisualizer.controls st')
    = Tone.sawtooth.
Proof.
  assert (H : data_byte 70) by (unfold data_byte; lia).
  split; [exact H|].
  destruct (midi_waveform (fun g => g) 70 [] AudioVisualizer.still H)
    as (type & st' & Htype & Hget & Hcontrols & _).
  exists st'; split; [exact Hget|].
  rewrite Hcontrols.
  injection Htype as <-; reflexivity.
Defined.

(** ** The pool under everything that can happen (AudioVisualizer) *)

Section PlayerPool.

Import AudioVisualizer.

Variable gainToDb : Q -> Q.

Lemma updateAudio_keeps (now : Q) (captured : ImageData) (st : State) :
  let st' := fst (updateAudio now captured st) in
  synths st' = synths st /\ controls st' = controls st /\
  isPlaying st' = isPlaying st /\ inputType st' = inputType st /\
  videoElement st' = videoElement st.
Proof.
  unfold updateAudio.
  destruct (source st) as [[[w h] draw]|]; simpl; auto.
Qed.

Lemma schedule_state (effects : list Effect) (c : Player.Component) :
  Player.state (Player.schedule effects c) = Player.state c /\
  Player.mediaLoaded (Player.schedule effects c) = Player.mediaLoaded c /\
  Player.showModal (Player.schedule effects c) = Player.showModal c /\
  Player.stream (Player.schedule effects c) = Player.stream c.
Proof.
  revert c; induction effects as [|e effects IH]; intro c; simpl; [auto|].
  destruct (Player.is_request e); [|apply IH].
  destruct (IH {| Player.state := Player.state c;
                  Player.mediaLoaded := Player.mediaLoaded c;
                  Player.showModal := Player.showModal c;
                  Player.stream := Player.stream c;
                  Player.animationId := Some (Raf.next (Player.raf c));
                  Player.raf :=
                    Raf.mkScheduler
                      (Raf.queue (Player.raf c) ++ [Raf.next (Player.raf c)])
                      (S (Raf.next (Player.raf c))) |})
    as (H1 & H2 & H3 & H4).
  simpl in *; auto.
Qed.

Lemma callback_state (now : Q) (captured : ImageData)
    (c : Player.Component) :
  Player.state (Player.callback now captured c)
  = fst (updateAudio now captured (Player.state c)).
Proof.
  unfold Player.callback.
  destruct (updateAudio now captured (Player.state c)) as [st effects].
  now destruct (schedule_state effects (Player.with_state st c)) as [-> _].
Qed.

(** What a display refresh leaves of the state: the pool, the controls,
    the play flag and the input are as before. *)
Lemma refresh_keeps (now : Q) (capture : nat -> ImageData)
    (c : Player.Component) :
  let st' := Player.state (Player.refresh now capture c) in
  synths st' = synths (Player.state c) /\
  controls st' = controls (Player.state c) /\
  isPlaying st' = isPlaying (Player.state c) /\
  inputType st' = inputType (Player.state c).
Proof.
  unfold Player.refresh.
  set (c0 := {| Player.state := Player.state c;
                Player.mediaLoaded := Player.mediaLoaded c;
                Player.showModal := Player.showModal c;
                Player.stream := Player.stream c;
                Player.animationId := Player.animationId c;
                Player.raf :=
                  Raf.mkScheduler [] (Raf.next (Player.raf c)) |}).
  change (Player.state c) with (Player.state c0).
  generalize (seq 0 (length (Raf.queue (Player.raf c)))) as ks.
  generalize c0; clear c0.
  intros c0 ks; revert c0; induction ks as [|k ks IH]; intro c0; simpl;
    [auto|].
  destruct (IH (Player.callback now (capture k) c0)) as (H1 & H2 & H3 & H4).
  rewrite callback_state in H1, H2, H3, H4.
  destruct (updateAudio_keeps now (capture k) (Player.state c0))
    as (K1 & K2 & K3 & K4 & _).
  simpl in *; repeat split; congruence.
Qed.

Lemma startAudio_state (c : Player.Component) :
  Player.state (Player.startAudio c)
  = fst (AudioVisualizer.startAudio (Player.state c)).
Proof.
  unfold Player.startAudio.
  destruct (AudioVisualizer.startAudio (Player.state c)) as [st effects].
  now destruct (schedule_state effects (Player.with_state st c)) as [-> _].
Qed.

Lemma shares_controls (k k' : Controls) (s : Tone.Synth) :
  volume k' = volume k -> oscillatorType k' = oscillatorType k ->
  shares k s -> shares k' s.
Proof. unfold shares; intros -> ->; auto. Qed.

Lemma Forall_shares_map (k k' : Controls) (f : Tone.Synth -> Tone.Synth)
    (pool : list Tone.Synth) :
  (forall s, shares k s -> shares k' (f s)) ->
  Forall (shares k) pool -> Forall (shares k') (map f pool).
Proof.
  intros Hf Hpool; apply Forall_forall; intros s Hs.
  apply in_map_iff in Hs as (s0 & <- & Hin).
  apply Hf; exact (proj1 (Forall_forall _ _) Hpool s0 Hin).
Qed.

Lemma Forall_shares_all (k : Controls) (f : Tone.Synth -> Tone.Synth)
    (pool : list Tone.Synth) :
  (forall s, shares k (f s)) -> Forall (shares k) (map f pool).
Proof.
  intros Hf; apply Forall_forall; intros s Hs.
  apply in_map_iff in Hs as (s0 & <- & _); apply Hf.
Qed.

Lemma startAudio_consistent (c : Player.Component) :
  consistent (Player.startAudio c).
Proof.
  unfold consistent; rewrite startAudio_state.
  apply (startAudio_shares (Player.state c)).
Qed.

Lemma pauseAudio_consistent (c : Player.Component) :
  consistent c -> consistent (Player.pauseAudio c).
Proof.
  unfold consistent; simpl; apply Forall_shares_map.
  intros s Hs; exact Hs.
Qed.

(** A message changes the controls and the pool only, and of the pool
    only volumes and waveforms, all voices alike. *)
Lemma getMIDIMessage_shape (data : list Z) (st st' : State) :
  Player.getMIDIMessage gainToDb data st = Some st' ->
  exists (k : Controls) (f : Tone.Synth -> Tone.Synth),
    st' = Player.with_synths (map f (synths st)) (Player.with_controls k st) /\
    voiceCount k = voiceCount (controls st) /\
    (forall s, Tone.sounding (f s) = Tone.sounding s) /\
    (forall s, shares (controls st) s -> shares k (f s)).
Proof.
  intros Hget.
  assert (Hsame : forall k : Controls,
             voiceCount k = voiceCount (controls st) ->
             volume k = volume (controls st) ->
             oscillatorType k = oscillatorType (controls st) ->
             st' = Player.with_controls k st ->
             exists (k : Controls) (f : Tone.Synth -> Tone.Synth),
               st' = Player.with_synths (map f (synths st))
                       (Player.with_controls k st) /\
               voiceCount k = voiceCount (controls st) /\
               (forall s, Tone.sounding (f s) = Tone.sounding s) /\
               (forall s, shares (controls st) s -> shares k (f s))).
  { intros k Hn Hv Ho ->.
    exists k, (fun s => s); rewrite map_id.
    split; [reflexivity|]; split; [exact Hn|]; split; [reflexivity|].
    intros s Hs; now apply (shares_controls (controls st)). }
  assert (Hid : st = Player.with_controls (controls st) st)
    by (destruct st; reflexivity).
  destruct (heard data) eqn:Hheard.
  2:{ rewrite midi_unheard in Hget by exact Hheard.
      injection Hget as <-.
      now apply (Hsame (controls st)). }
  unfold heard in Hheard.
  destruct data as [|status [|c rest]]; try discriminate.
  { destruct status as [|p|p]; try discriminate;
      repeat match goal with
             | H : context [match ?p with xH => _ | _ => _ end] |- _ =>
                 is_var p; destruct p; try discriminate
             end. }
  destruct (Z.eq_dec status 144) as [->|H144].
  - destruct rest as [|v rest]; [discriminate|].
    unfold Player.getMIDIMessage in Hget; simpl in Hget.
    rewrite Hheard in Hget; injection Hget as <-.
    eapply Hsame; [| | |reflexivity]; reflexivity.
  - destruct (Z.eq_dec status 176) as [->|H176].
    + apply orb_true_iff in Hheard as [Hheard|H74].
      * apply orb_true_iff in Hheard as [H7|H1].
        -- apply Z.eqb_eq in H7; subst c.
           unfold Player.getMIDIMessage in Hget; simpl in Hget.
           injection Hget as <-.
           eexists; eexists; split; [reflexivity|].
           split; [reflexivity|]; split; [reflexivity|].
           intros s [_ Ho]; split; [reflexivity | exact Ho].
        -- apply Z.eqb_eq in H1; subst c.
           unfold Player.getMIDIMessage in Hget; simpl in Hget.
           injection Hget as <-.
           eapply Hsame; [| | |reflexivity]; reflexivity.
      * apply Z.eqb_eq in H74; subst c.
        unfold Player.getMIDIMessage in Hget.
        change (JS.get (176 :: 74 :: rest) 0) with (Some 176) in Hget.
        change (JS.get (176 :: 74 :: rest) 1) with (Some 74) in Hget.
        cbv iota beta in Hget.
        destruct (JS.get Player.waveforms _) as [type|]; [|discriminate].
        injection Hget as <-.
        eexists; eexists; split; [reflexivity|].
        split; [reflexivity|]; split; [reflexivity|].
        intros s [Hv _]; split; [exact Hv | reflexivity].
    + rewrite getMIDIMessage_other in Hget by assumption.
      injection Hget as <-.
      now apply (Hsame (controls st)).
Qed.

Lemma updateVoiceCount_consistent (value : nat) (st : State) :
  Forall (shares (controls st)) (synths st) ->
  Forall (shares (controls st)) (synths (updateVoiceCount value st)).
Proof.
  intro Hst; rewrite updateVoiceCount_synths.
  apply Forall_app; split.
  - apply Forall_forall; intros s Hs.
    apply (proj1 (Forall_forall _ _) Hst).
    rewrite <- (firstn_skipn value (synths st)); apply in_or_app; now left.
  - apply Forall_forall; intros s Hs.
    apply repeat_spec in Hs; subst s; apply grown_synth_shares.
Qed.

Lemma act_consistent (a : Player.Action) (c c' : Player.Component) :
  consistent c -> Player.act gainToDb a c = Some c' -> consistent c'.
Proof.
  unfold consistent; intros Hc Hact.
  destruct a as [value|value|value|value|value|value|bytes| |
                |hidden|value a|w h captured|v|now capture];
    simpl in Hact; try (injection Hact as <-).
  - (* PanelVolume *)
    simpl; apply Forall_forall; intros s Hs.
    apply in_map_iff in Hs as (s0 & <- & Hin).
    pose proof (proj1 (Forall_forall _ _) Hc s0 Hin) as [_ Ho].
    split; [reflexivity | exact Ho].
  - simpl; exact Hc.
  - simpl; exact Hc.
  - simpl; exact Hc.
  - (* PanelOscillatorType *)
    simpl; apply Forall_forall; intros s Hs.
    apply in_map_iff in Hs as (s0 & <- & Hin).
    pose proof (proj1 (Forall_forall _ _) Hc s0 Hin) as [Hv _].
    split; [exact Hv | reflexivity].
  - (* PanelVoiceCount *)
    unfold Player.with_state, Player.panel_voiceCount; cbn [Player.state].
    apply (updateVoiceCount_consistent value
             (Player.with_controls
                (Player.set_voiceCount value (controls (Player.state c)))
                (Player.state c))).
    exact Hc.
  - (* Midi *)
    destruct (Player.getMIDIMessage gainToDb bytes (Player.state c))
      as [st'|] eqn:Hget; [|discriminate].
    injection Hact as <-; simpl.
    destruct (getMIDIMessage_shape bytes _ _ Hget) as (k & f & -> & _ & _ & Hf).
    simpl; eapply Forall_shares_map; [exact Hf | exact Hc].
  - (* TogglePlay *)
    unfold Player.togglePlay.
    destruct (Player.media_input (inputType (Player.state c))
              && negb (Player.mediaLoaded c)); [exact Hc|].
    destruct (isPlaying (Player.state c)).
    + apply (pauseAudio_consistent c Hc).
    + apply (startAudio_consistent c).
  - exact Hc.
  - (* VisibilityChange *)
    destruct hidden; [apply (pauseAudio_consistent c Hc) | exact Hc].
  - (* InputChange *)
    unfold Player.handleInputChange.
    destruct (Player.media_input value); [exact Hc|].
    unfold Player.updateInput; cbn [Player.state synths controls].
    apply (pauseAudio_consistent _ Hc).
  - (* ImageLoaded *)
    unfold Player.image_loaded.
    match goal with
    | |- context [Player.startAudio ?c0] =>
        apply (startAudio_consistent c0)
    end.
  - (* VideoLoaded *)
    unfold Player.video_loaded.
    match goal with
    | |- context [Player.startAudio ?c0] =>
        apply (startAudio_consistent c0)
    end.
  - (* Refresh *)
    destruct (refresh_keeps now capture c) as (-> & -> & _).
    exact Hc.
Qed.

Lemma act_sized (a : Player.Action) (c c' : Player.Component) :
  sized c -> Player.act gainToDb a c = Some c' -> sized c'.
Proof.
  unfold sized; intros Hc Hact.
  destruct a as [value|value|value|value|value|value|bytes| |
                |hidden|value a|w h captured|v|now capture];
    simpl in Hact; try (injection Hact as <-).
  - simpl; unfold updateVolume, updateOscillatorType;
      now rewrite length_map.
  - exact Hc.
  - exact Hc.
  - exact Hc.
  - simpl; unfold updateVolume, updateOscillatorType;
      now rewrite length_map.
  - unfold Player.with_state, Player.panel_voiceCount; cbn [Player.state].
    now rewrite updateVoiceCount_length.
  - destruct (Player.getMIDIMessage gainToDb bytes (Player.state c))
      as [st'|] eqn:Hget; [|discriminate].
    injection Hact as <-; simpl.
    destruct (getMIDIMessage_shape bytes _ _ Hget) as (k & f & -> & Hk & _).
    simpl; now rewrite length_map, Hk.
  - unfold Player.togglePlay.
    destruct (Player.media_input (inputType (Player.state c))
              && negb (Player.mediaLoaded c)); [exact Hc|].
    destruct (isPlaying (Player.state c)).
    + simpl; now rewrite length_map.
    + cbn [Player.state Player.with_state Player.with_isPlaying synths
           controls].
      rewrite startAudio_state; simpl; now rewrite length_map.
  - exact Hc.
  - destruct hidden; [simpl; now rewrite length_map | exact Hc].
  - unfold Player.handleInputChange.
    destruct (Player.media_input value); [exact Hc|].
    simpl; now rewrite length_map.
  - unfold Player.image_loaded.
    cbn [Player.state Player.with_state Player.with_isPlaying synths
         controls].
    rewrite startAudio_state; simpl; now rewrite length_map.
  - unfold Player.video_loaded.
    cbn [Player.state Player.with_state Player.with_isPlaying synths
         controls].
    rewrite startAudio_state; simpl; now rewrite length_map.
  - destruct (refresh_keeps now capture c) as (-> & -> & _).
    exact Hc.
Qed.

Lemma run_invariant (P : Player.Component -> Prop) :
  (forall a c c', P c -> Player.act gainToDb a c = Some c' -> P c') ->
  forall actions c c',
    P c -> Player.run gainToDb actions c = Some c' -> P c'.
Proof.
  intros Hstep actions; induction actions as [|a actions IH];
    intros c c' Hc Hrun; simpl in Hrun.
  - now injection Hrun as <-.
  - destruct (Player.act gainToDb a c) as [c1|] eqn:Hact; [|discriminate].
    eapply IH; [|exact Hrun].
    eapply Hstep; eassumption.
Qed.

End PlayerPool.

(** X4.  Once every voice carries the shared volume and waveform of the
    controls (as after any [startAudio]), it stays so whatever happens:
    panel edits, MIDI messages, resizes of the pool, play and pause,
    changes of input, loads and display refreshes. *)
Theorem pool_stays_consistent (gainToDb : Q -> Q)
    (actions : list Player.Action) (c c' : Player.Component) :
  consistent c ->
  Player.run gainToDb actions c = Some c' ->
  consistent c'.
Proof.
  apply (run_invariant gainToDb consistent).
  intros a c0 c1; apply act_consistent.
Qed.

Lemma pool_stays_consistent_witness :
  consistent (Player.startAudio Player.mounted) /\
  exists c' : Player.Component,
    Player.run (fun g => g)
      [Player.PanelVolume (-30); Player.Midi [176; 74; 40];
       Player.PanelVoiceCount 6; Player.TogglePlay]
      (Player.startAudio Player.mounted) = Some c' /\
    consistent c'.
Proof.
  assert (H : consistent (Player.startAudio Player.mounted))
    by apply startAudio_consistent.
  split; [exact H|].
  match goal with
  | |- exists c', Player.run ?g ?acts ?c0 = Some c' /\ _ =>
      destruct (Player.run g acts c0) as [c'|] eqn:E;
        [|vm_compute in E; discriminate E];
      exists c'; split; [reflexivity|];
      exact (pool_stays_consistent g acts c0 c' H E)
  end.
Defined.

Lemma map_fst_combine {A B} (l : list A) (l' : list B) :
  length l = length l' -> map fst (combine l l') = l.
Proof.
  revert l'; induction l as [|a l IH]; intros [|b l'] H; simpl in *;
    try discriminate; [reflexivity|].
  f_equal; apply IH; lia.
Qed.



(** ** The loop and the frame queue (AudioVisualizer) *)

Section PlayerLoop.

Import AudioVisualizer.

Variable gainToDb : Q -> Q.

Lemma schedule_app (e1 e2 : list Effect) (c : Player.Component) :
  Player.schedule (e1 ++ e2) c = Player.schedule e2 (Player.schedule e1 c).
Proof.
  revert c; induction e1 as [|e e1 IH]; intro c; simpl; [reflexivity|].
  destruct (Player.is_request e); apply IH.
Qed.

Lemma schedule_none (effects : list Effect) (c : Player.Component) :
  existsb Player.is_request effects = false ->
  Player.schedule effects c = c.
Proof.
  induction effects as [|e effects IH]; simpl; [reflexivity|].
  destruct (Player.is_request e); [discriminate | exact IH].
Qed.

Lemma ramps_no_request (pool : list Tone.Synth) (now : Q)
    (vs : list (Z * Z * option Tone.Freq)) :
  existsb Player.is_request (ramps pool now vs) = false.
Proof.
  unfold ramps; generalize 0%nat as s.
  induction vs as [|[[x y] f] vs IH]; intro s; simpl; [reflexivity|].
  rewrite existsb_app, IH, orb_false_r.
  now destruct (nth_error pool s).
Qed.

Lemma points_no_request (vs : list (Z * Z * option Tone.Freq)) :
  existsb Player.is_request (map (fun '(x, y, _) => DrawPoint x y) vs)
  = false.
Proof.
  induction vs as [|[[x y] f] vs IH]; simpl; auto.
Qed.

(** A tick asks for the next refresh exactly when it has a frame. *)
Lemma callback_frame (now : Q) (captured : ImageData)
    (c : Player.Component) (w h : Z) :
  frame_size (Player.state c) = Some (w, h) ->
  Player.raf (Player.callback now captured c)
  = snd (Raf.request (Player.raf c)) /\
  Player.animationId (Player.callback now captured c)
  = Some (Raf.next (Player.raf c)).
Proof.
  intro Hsize; unfold Player.callback, updateAudio.
  unfold frame_size in Hsize.
  destruct (source (Player.state c)) as [[[w' h'] draw]|] eqn:Hsource;
    [|discriminate].
  assert (Hdraw : Player.is_request draw = false).
  { unfold source in Hsource.
    destruct (inputType (Player.state c)), (imageData (Player.state c)),
      (videoElement (Player.state c)) as [v|];
      try discriminate;
      try (destruct (videoWidth v =? 0); try discriminate);
      now injection Hsource as <- <- <-. }
  cbn [Player.schedule]; rewrite Hdraw.
  rewrite schedule_app.
  rewrite (schedule_none (ramps _ _ _)) by apply ramps_no_request.
  cbn [Player.schedule Player.is_request].
  rewrite schedule_app.
  rewrite (schedule_none (map _ _)) by apply points_no_request.
  simpl; auto.
Qed.

Lemma callback_no_frame (now : Q) (captured : ImageData)
    (c : Player.Component) :
  frame_size (Player.state c) = None ->
  Player.callback now captured c = c.
Proof.
  intro Hsize; unfold Player.callback.
  rewrite updateAudio_not_ready by exact Hsize.
  now destruct c.
Qed.

Lemma startAudio_raf (c : Player.Component) :
  Player.raf (Player.startAudio c) = snd (Raf.request (Player.raf c)) /\
  Player.animationId (Player.startAudio c) = Some (Raf.next (Player.raf c)).
Proof. split; reflexivity. Qed.

Lemma remove_only (i : nat) : remove Nat.eq_dec i [i] = [].
Proof. simpl; destruct (Nat.eq_dec i i); [reflexivity | contradiction]. Qed.

Lemma pauseAudio_queue (c : Player.Component) :
  single_loop c -> Raf.queue (Player.raf (Player.pauseAudio c)) = [].
Proof.
  intros (_ & [Hq | (i & Hq & Hid)] & _); unfold Player.pauseAudio; simpl.
  - destruct (Player.animationId c); simpl; rewrite Hq; reflexivity.
  - rewrite Hid; simpl; rewrite Hq; apply remove_only.
Qed.

Lemma pauseAudio_next (c : Player.Component) :
  Raf.next (Player.raf (Player.pauseAudio c)) = Raf.next (Player.raf c).
Proof.
  unfold Player.pauseAudio; simpl.
  now destruct (Player.animationId c).
Qed.

Lemma single_same (c c' : Player.Component) :
  Player.raf c' = Player.raf c ->
  Player.animationId c' = Player.animationId c ->
  isPlaying (Player.state c') = isPlaying (Player.state c) ->
  single_loop c -> single_loop c'.
Proof. unfold single_loop; intros -> -> ->; auto. Qed.

Lemma single_empty (c : Player.Component) :
  Raf.queue (Player.raf c) = [] -> single_loop c.
Proof.
  intro Hq; unfold single_loop; rewrite Hq.
  split; [constructor|]; split; auto.
Qed.

Lemma single_started (c c' : Player.Component) :
  Raf.queue (Player.raf c) = [] ->
  Player.raf c' = snd (Raf.request (Player.raf c)) ->
  Player.animationId c' = Some (Raf.next (Player.raf c)) ->
  isPlaying (Player.state c') = true ->
  single_loop c' /\ Raf.queue (Player.raf c') = [Raf.next (Player.raf c)].
Proof.
  intros Hq Hraf Hid Hplay; unfold single_loop.
  rewrite Hraf, Hid, Hplay; simpl; rewrite Hq; simpl.
  repeat split; [repeat constructor; lia | right; eauto | discriminate].
Qed.

(** One refresh of a single loop: the tick that has a frame leaves one
    call waiting, the tick that has none leaves the queue empty. *)
Lemma refresh_single (now : Q) (capture : nat -> ImageData)
    (c : Player.Component) :
  single_loop c ->
  single_loop (Player.refresh now capture c) /\
  (Raf.queue (Player.raf c) <> [] ->
   frame_size (Player.state c) <> None ->
   Raf.queue (Player.raf (Player.refresh now capture c))
   = [Raf.next (Player.raf c)]) /\
  (frame_size (Player.state c) = None ->
   Raf.queue (Player.raf (Player.refresh now capture c)) = []).
Proof.
  intros Hc.
  pose proof Hc as (Hfresh & [Hq | (i & Hq & Hid)] & Hplay);
    unfold Player.refresh; rewrite Hq; cbn [length seq fold_left].
  - split; [now apply single_empty|]; split; [congruence | reflexivity].
  - set (c0 := {| Player.state := Player.state c;
                  Player.mediaLoaded := Player.mediaLoaded c;
                  Player.showModal := Player.showModal c;
                  Player.stream := Player.stream c;
                  Player.animationId := Player.animationId c;
                  Player.raf :=
                    Raf.mkScheduler [] (Raf.next (Player.raf c)) |}).
    assert (Hrun : isPlaying (Player.state c) = true).
    { destruct (isPlaying (Player.state c)); [reflexivity|].
      rewrite Hplay in Hq by reflexivity; discriminate. }
    destruct (frame_size (Player.state c)) as [[w h]|] eqn:Hsize.
    + destruct (callback_frame now (capture 0%nat) c0 w h Hsize)
        as [Hraf Hid'].
      destruct (single_started c0 (Player.callback now (capture 0%nat) c0))
        as [Hsingle Hqueue]; auto.
      { rewrite callback_state.
        now destruct (updateAudio_keeps now (capture 0%nat) (Player.state c0))
          as (_ & _ & -> & _). }
      split; [exact Hsingle|]; split; [intros _ _; exact Hqueue|].
      discriminate.
    + rewrite (callback_no_frame now (capture 0%nat) c0) by exact Hsize.
      split; [now apply single_empty|]; split; [congruence | reflexivity].
Qed.

Lemma act_single_loop (a : Player.Action) (c c' : Player.Component) :
  single_loop c ->
  (is_load a = true -> Raf.queue (Player.raf c) = []) ->
  Player.act gainToDb a c = Some c' ->
  single_loop c'.
Proof.
  intros Hc Hload Hact.
  destruct a as [value|value|value|value|value|value|bytes| |
                |hidden|value a|w h captured|v|now capture];
    simpl in Hact; try (injection Hact as <-);
    try (now apply (single_same c)).
  - (* Midi *)
    destruct (Player.getMIDIMessage gainToDb bytes (Player.state c))
      as [st'|] eqn:Hget; [|discriminate].
    injection Hact as <-.
    destruct (getMIDIMessage_shape gainToDb bytes _ _ Hget)
      as (k & f & -> & _).
    now apply (single_same c).
  - (* TogglePlay *)
    unfold Player.togglePlay.
    destruct (Player.media_input (inputType (Player.state c))
              && negb (Player.mediaLoaded c));
      [now apply (single_same c)|].
    destruct (isPlaying (Player.state c)) eqn:Hplay.
    + apply single_empty; exact (pauseAudio_queue c Hc).
    + apply (single_started c); try reflexivity.
      destruct Hc as (_ & _ & Hq); now apply Hq.
  - (* VisibilityChange *)
    destruct hidden; [|exact Hc].
    apply single_empty; exact (pauseAudio_queue c Hc).
  - (* InputChange *)
    unfold Player.handleInputChange.
    destruct (Player.media_input value); [now apply (single_same c)|].
    apply single_empty; unfold Player.updateInput; cbn [Player.raf].
    match goal with
    | |- Raf.queue (Player.raf (Player.pauseAudio ?c0)) = [] =>
        apply (pauseAudio_queue c0); now apply (single_same c)
    end.
  - (* ImageLoaded *)
    unfold Player.image_loaded.
    match goal with
    | |- context [Player.startAudio ?c0] =>
        apply (single_started c0); try reflexivity
    end.
    now apply Hload.
  - (* VideoLoaded *)
    unfold Player.video_loaded.
    match goal with
    | |- context [Player.startAudio ?c0] =>
        apply (single_started c0); try reflexivity
    end.
    now apply Hload.
  - (* Refresh *)
    now apply refresh_single.
Qed.

End PlayerLoop.

(** X6.  As long as files finish loading only while no tick is waiting,
    there is never more than one call of [updateAudio] waiting for the
    next refresh, it is the one [animationId] names, and none is waiting
    while [isPlaying] is false. *)
Theorem one_loop_at_a_time (gainToDb : Q -> Q)
    (actions : list Player.Action) (c c' : Player.Component) :
  single_loop c ->
  loads_when_idle gainToDb actions c ->
  Player.run gainToDb actions c = Some c' ->
  single_loop c' /\ (length (Raf.queue (Player.raf c')) <= 1)%nat.
Proof.
  intros Hc Hidle Hrun.
  assert (Hc' : single_loop c').
  { revert c Hc Hidle Hrun.
    induction actions as [|a actions IH]; intros c Hc Hidle Hrun;
      simpl in Hrun, Hidle.
    - now injection Hrun as <-.
    - destruct Hidle as [Hload Hrest].
      destruct (Player.act gainToDb a c) as [c1|] eqn:Hact; [|discriminate].
      apply (IH c1); auto.
      now apply (act_single_loop gainToDb a c). }
  split; [exact Hc'|].
  destruct Hc' as (_ & [-> | (i & -> & _)] & _); simpl; lia.
Qed.

Lemma one_loop_at_a_time_witness :
  single_loop Player.mounted /\
  exists c' : Player.Component,
    Player.run (fun g => g)
      [Player.ImageLoaded 2 2 checker;
       Player.Refresh 1 (fun _ => checker); Player.TogglePlay;
       Player.TogglePlay; Player.Refresh 2 (fun _ => checker)]
      Player.mounted = Some c' /\
    single_loop c'.
Proof.
  assert (H : single_loop Player.mounted) by (now apply single_empty).
  split; [exact H|].
  match goal with
  | |- exists c', Player.run ?g ?acts ?c0 = Some c' /\ _ =>
      destruct (Player.run g acts c0) as [c'|] eqn:E;
        [|vm_compute in E; discriminate E];
      exists c'; split; [reflexivity|];
      refine (proj1 (one_loop_at_a_time g acts c0 c' H _ E))
  end.
  simpl; repeat split; try discriminate; reflexivity.
Defined.

Section PlayerTransport.

Import AudioVisualizer.

Lemma updateAudio_frame_size (now : Q) (captured : ImageData) (st : State)
    (w h : Z) :
  frame_size st = Some (w, h) ->
  frame_size (fst (updateAudio now captured st)) = Some (w, h).
Proof.
  unfold frame_size, updateAudio, source.
  destruct (inputType st) eqn:Hin;
    try (destruct (imageData st) eqn:Himg);
    try (destruct (videoElement st) as [v|] eqn:Hv);
    try (destruct (videoWidth v =? 0) eqn:Hz);
    try discriminate;
    intros [= <- <-]; simpl; rewrite ?Hin, ?Hv; simpl; rewrite ?Hz;
    reflexivity.
Qed.

Lemma pauseAudio_silent (c : Player.Component) :
  silent (Player.pauseAudio c).
Proof.
  unfold silent; simpl; apply Forall_forall; intros s Hs.
  apply in_map_iff in Hs as (s0 & <- & _); reflexivity.
Qed.

Lemma startAudio_sounding (c : Player.Component) (st : State) :
  synths st = synths (Player.state (Player.startAudio c)) ->
  Forall (fun s => Tone.sounding s = true) (synths st).
Proof.
  intros ->; rewrite startAudio_state; simpl.
  apply Forall_forall; intros s Hs.
  apply in_map_iff in Hs as (s0 & <- & _); reflexivity.
Qed.

(** Releasing and attacking again a voice that was sounding with the
    shared settings gives the voice back. *)
Lemma restart_voice (k : Controls) (s : Tone.Synth) :
  shares k s -> Tone.sounding s = true ->
  Tone.triggerAttack
    (Tone.set_volume (volume k)
       (Tone.set_oscillator (oscillatorType k) (Tone.triggerRelease s)))
  = s.
Proof.
  destruct s; unfold shares; simpl; intros [-> ->] ->; reflexivity.
Qed.

Lemma restart_state (st : State) :
  Forall (shares (controls st)) (synths st) ->
  Forall (fun s => Tone.sounding s = true) (synths st) ->
  isPlaying st = true ->
  Player.with_isPlaying true
    (fst (AudioVisualizer.startAudio
            (Player.with_isPlaying false
               (Player.with_synths (map Tone.triggerRelease (synths st))
                                   st))))
  = st.
Proof.
  destruct st as [i img v cw ch p playing k pool]; simpl.
  intros Hcons Hsound ->; unfold Player.with_isPlaying; simpl; f_equal.
  rewrite map_map.
  transitivity (map (fun s => s) pool); [|apply map_id].
  apply map_ext_in; intros s Hs.
  apply restart_voice.
  - exact (proj1 (Forall_forall _ _) Hcons s Hs).
  - exact (proj1 (Forall_forall _ _) Hsound s Hs).
Qed.

End PlayerTransport.

(** X7.  Pause and play are a round trip.  On a component whose play
    button acts on the loop and which is playing a single loop, pressing
    the button releases every voice, empties the frame queue and clears
    [isPlaying], without moving the cursor; pressing it again leaves one
    tick waiting, and when the voices were sounding with the shared
    settings the state is exactly the one before the pause. *)
Theorem pause_then_play (c : Player.Component) :
  playable c -> single_loop c ->
  AudioVisualizer.isPlaying (Player.state c) = true ->
  let paused := Player.togglePlay c in
  let resumed := Player.togglePlay paused in
  (AudioVisualizer.isPlaying (Player.state paused) = false /\
   silent paused /\
   Raf.queue (Player.raf paused) = [] /\
   AudioVisualizer.cursorPosition (Player.state paused)
   = AudioVisualizer.cursorPosition (Player.state c)) /\
  (Raf.queue (Player.raf resumed) = [Raf.next (Player.raf c)] /\
   single_loop resumed /\
   (consistent c -> sounding_all c ->
    Player.state resumed = Player.state c)).
Proof.
  intros Hgate Hc Hplay paused resumed.
  unfold playable in Hgate.
  assert (Hpaused : paused
                    = Player.with_state
                        (Player.with_isPlaying false
                           (Player.state (Player.pauseAudio c)))
                        (Player.pauseAudio c)).
  { unfold paused, Player.togglePlay; now rewrite Hgate, Hplay. }
  assert (Hq : Raf.queue (Player.raf paused) = [])
    by (rewrite Hpaused; exact (pauseAudio_queue c Hc)).
  assert (Hresumed : resumed
                     = Player.with_state
                         (Player.with_isPlaying true
                            (Player.state (Player.startAudio paused)))
                         (Player.startAudio paused)).
  { assert (Hgate' : Player.media_input
                       (AudioVisualizer.inputType (Player.state paused))
                     && negb (Player.mediaLoaded paused) = false)
      by (rewrite Hpaused; exact Hgate).
    assert (Hplay' : AudioVisualizer.isPlaying (Player.state paused) = false)
      by (rewrite Hpaused; reflexivity).
    unfold resumed, Player.togglePlay; now rewrite Hgate', Hplay'. }
  split; [|split; [|split]].
  - rewrite Hpaused; repeat split; try reflexivity.
    + exact (pauseAudio_silent c).
    + exact (pauseAudio_queue c Hc).
  - destruct (single_started paused resumed) as [_ Hqueue];
      try (rewrite Hresumed; reflexivity); [exact Hq|].
    rewrite Hqueue, Hpaused; cbn [Player.raf Player.with_state].
    now rewrite pauseAudio_next.
  - destruct (single_started paused resumed) as [Hsingle _];
      try (rewrite Hresumed; reflexivity); [exact Hq|exact Hsingle].
  - intros Hcons Hsound.
    rewrite Hresumed, Hpaused; cbn [Player.state Player.with_state].
    rewrite startAudio_state.
    now apply restart_state.
Qed.

Lemma running_single : single_loop running.
Proof.
  unfold single_loop; simpl.
  repeat split; [repeat constructor; lia | right; eauto | discriminate].
Qed.

Lemma pause_then_play_witness :
  playable running /\ single_loop running /\
  AudioVisualizer.isPlaying (Player.state running) = true /\
  Player.state (Player.togglePlay (Player.togglePlay running))
  = Player.state running.
Proof.
  assert (Hgate : playable running) by reflexivity.
  assert (Hplay : AudioVisualizer.isPlaying (Player.state running) = true)
    by reflexivity.
  split; [exact Hgate|]; split; [exact running_single|];
    split; [exact Hplay|].
  refine (proj2 (proj2 (proj2 (pause_then_play running Hgate running_single
                                 Hplay))) _ _).
  - apply (startAudio_consistent _).
  - unfold sounding_all; simpl; repeat constructor.
Defined.

(** X8.  Hiding the tab stops the sound and the loop but leaves
    [isPlaying] set, so the next press of the play button does not resume:
    it only clears the flag, with every voice still silent and nothing
    waiting; the press after that restarts the loop. *)
Theorem hidden_tab_needs_two_presses (c : Player.Component) :
  playable c -> single_loop c ->
  AudioVisualizer.isPlaying (Player.state c) = true ->
  let hidden := Player.handleVisibilityChange true c in
  let first := Player.togglePlay hidden in
  let second := Player.togglePlay first in
  (AudioVisualizer.isPlaying (Player.state hidden) = true /\
   silent hidden /\ Raf.queue (Player.raf hidden) = []) /\
  (AudioVisualizer.isPlaying (Player.state first) = false /\
   silent first /\ Raf.queue (Player.raf first) = []) /\
  (AudioVisualizer.isPlaying (Player.state second) = true /\
   sounding_all second /\
   Raf.queue (Player.raf second) = [Raf.next (Player.raf c)]).
Proof.
  intros Hgate Hc Hplay hidden first second.
  unfold playable in Hgate.
  assert (Hq : Raf.queue (Player.raf hidden) = [])
    by exact (pauseAudio_queue c Hc).
  assert (Hsingle : single_loop hidden) by now apply single_empty.
  assert (Hfirst : first
                   = Player.with_state
                       (Player.with_isPlaying false
                          (Player.state (Player.pauseAudio hidden)))
                       (Player.pauseAudio hidden)).
  { unfold first, Player.togglePlay.
    change (Player.media_input
              (AudioVisualizer.inputType (Player.state hidden))
            && negb (Player.mediaLoaded hidden))
      with (Player.media_input
              (AudioVisualizer.inputType (Player.state c))
            && negb (Player.mediaLoaded c)).
    rewrite Hgate.
    change (AudioVisualizer.isPlaying (Player.state hidden))
      with (AudioVisualizer.isPlaying (Player.state c)).
    now rewrite Hplay. }
  assert (Hq1 : Raf.queue (Player.raf first) = [])
    by (rewrite Hfirst; exact (pauseAudio_queue hidden Hsingle)).
  assert (Hsecond : second
                    = Player.with_state
                        (Player.with_isPlaying true
                           (Player.state (Player.startAudio first)))
                        (Player.startAudio first)).
  { assert (Hgate' : Player.media_input
                       (AudioVisualizer.inputType (Player.state first))
                     && negb (Player.mediaLoaded first) = false)
      by (rewrite Hfirst; exact Hgate).
    assert (Hplay' : AudioVisualizer.isPlaying (Player.state first) = false)
      by (rewrite Hfirst; reflexivity).
    unfold second, Player.togglePlay; now rewrite Hgate', Hplay'. }
  split; [|split].
  - repeat split; [exact Hplay | exact (pauseAudio_silent c) | exact Hq].
  - rewrite Hfirst; repeat split.
    + exact (pauseAudio_silent hidden).
    + rewrite <- Hfirst; exact Hq1.
  - split; [rewrite Hsecond; reflexivity|]; split.
    + unfold sounding_all; rewrite Hsecond.
      now apply (startAudio_sounding first).
    + destruct (single_started first second) as [_ Hqueue];
        try (rewrite Hsecond; reflexivity); [exact Hq1|].
      rewrite Hqueue, Hfirst; cbn [Player.raf Player.with_state].
      rewrite pauseAudio_next.
      f_equal; exact (pauseAudio_next c).
Qed.

Lemma hidden_tab_needs_two_presses_witness :
  playable running /\ single_loop running /\
  AudioVisualizer.isPlaying (Player.state running) = true /\
  Raf.queue
    (Player.raf
       (Player.togglePlay (Player.handleVisibilityChange true running)))
  = [].
Proof.
  assert (Hgate : playable running) by reflexivity.
  assert (Hplay : AudioVisualizer.isPlaying (Player.state running) = true)
    by reflexivity.
  split; [exact Hgate|]; split; [exact running_single|];
    split; [exact Hplay|].
  exact (proj2 (proj2 (proj1 (proj2
           (hidden_tab_needs_two_presses running Hgate running_single
              Hplay))))).
Defined.

Section PlayerFrames.

Import AudioVisualizer.

Lemma refresh_one (now : Q) (capture : nat -> ImageData)
    (c : Player.Component) (i : nat) :
  Raf.queue (Player.raf c) = [i] ->
  Player.refresh now capture c
  = Player.callback now (capture 0%nat)
      {| Player.state := Player.state c;
         Player.mediaLoaded := Player.mediaLoaded c;
         Player.showModal := Player.showModal c;
         Player.stream := Player.stream c;
         Player.animationId := Player.animationId c;
         Player.raf := Raf.mkScheduler [] (Raf.next (Player.raf c)) |}.
Proof. intro Hq; unfold Player.refresh; now rewrite Hq. Qed.

Lemma refresh_none (now : Q) (capture : nat -> ImageData)
    (c : Player.Component) :
  Raf.queue (Player.raf c) = [] -> Player.refresh now capture c = c.
Proof.
  intro Hq; unfold Player.refresh; rewrite Hq; simpl.
  destruct c as [st ml sm s id [q n]]; simpl in *; now subst.
Qed.

Lemma refreshes_none (frames : list (Q * (nat -> ImageData)))
    (c : Player.Component) :
  Raf.queue (Player.raf c) = [] -> Player.refreshes frames c = c.
Proof.
  intro Hq; induction frames as [|[now capture] frames IH]; simpl;
    [reflexivity|].
  now rewrite refresh_none.
Qed.

End PlayerFrames.



(** X10.  [updateInput] stops everything but the play flag: the cursor is
    back at 0, every voice is released, no tick is waiting and none will
    run at any later refresh, while [isPlaying] is as it was; the capture
    stream is live afterwards only if this call was granted one. *)
Theorem input_switch (a : Player.Acquisition) (c : Player.Component)
    (frames : list (Q * (nat -> ImageData))) :
  single_loop c ->
  let c' := Player.updateInput a c in
  AudioVisualizer.cursorPosition (Player.state c') = 0%Q /\
  silent c' /\
  Raf.queue (Player.raf c') = [] /\
  Player.refreshes frames c' = c' /\
  AudioVisualizer.isPlaying (Player.state c')
  = AudioVisualizer.isPlaying (Player.state c) /\
  (Player.stream c' = Some true -> Player.granted a = true).
Proof.
  intros Hc c'.
  assert (Hq : Raf.queue (Player.raf c') = [])
    by exact (pauseAudio_queue c Hc).
  split; [reflexivity|]; split; [exact (pauseAudio_silent c)|].
  split; [exact Hq|]; split; [now apply refreshes_none|].
  split; [reflexivity|].
  unfold c', Player.updateInput; cbn [Player.stream].
  destruct (Player.granted a); [reflexivity|].
  rewrite andb_false_r.
  now destruct (Player.stream (Player.pauseAudio c)).
Qed.

Lemma input_switch_witness :
  single_loop running /\
  AudioVisualizer.cursorPosition
    (Player.state
       (Player.updateInput
          (Player.mkAcquisition false (AudioVisualizer.mkVideo 0 0))
          running)) = 0%Q.
Proof.
  split; [exact running_single|].
  exact (proj1 (input_switch
                  (Player.mkAcquisition false (AudioVisualizer.mkVideo 0 0))
                  running [] running_single)).
Defined.

(** X11.  An image that finishes loading while a tick is waiting starts a
    second loop beside the first: two ticks wait for the next refresh.
    Pause cancels only the newer one: with [isPlaying] false and every
    voice released, one tick is still waiting, and it is still waiting
    after every later refresh. *)
Theorem second_load_starts_second_loop (c : Player.Component) (w h : Z)
    (captured : ImageData) (frames : list (Q * (nat -> ImageData))) :
  single_loop c ->
  Raf.queue (Player.raf c) <> [] ->
  AudioVisualizer.inputType (Player.state c) = AudioVisualizer.image ->
  let loaded := Player.image_loaded w h captured c in
  let paused := Player.togglePlay loaded in
  length (Raf.queue (Player.raf loaded)) = 2%nat /\
  AudioVisualizer.isPlaying (Player.state paused) = false /\
  silent paused /\
  length (Raf.queue (Player.raf paused)) = 1%nat /\
  length (Raf.queue (Player.raf (Player.refreshes frames paused))) = 1%nat.
Proof.
  intros Hc Hq Hinput loaded paused.
  pose proof Hc as (Hfresh & [Hq0 | (i & Hqi & Hid)] & _); [contradiction|].
  assert (Hi : (i < Raf.next (Player.raf c))%nat).
  { rewrite Hqi in Hfresh; now inversion Hfresh. }
  assert (Hloaded : Raf.queue (Player.raf loaded)
                    = [i; Raf.next (Player.raf c)]).
  { unfold loaded, Player.image_loaded; simpl; now rewrite Hqi. }
  assert (Hpaused : paused
                    = Player.with_state
                        (Player.with_isPlaying false
                           (Player.state (Player.pauseAudio loaded)))
                        (Player.pauseAudio loaded)).
  { unfold paused, Player.togglePlay.
    change (Player.mediaLoaded loaded) with true.
    change (AudioVisualizer.isPlaying (Player.state loaded)) with true.
    now rewrite andb_false_r. }
  assert (Hqp : Raf.queue (Player.raf paused) = [i]).
  { rewrite Hpaused; unfold Player.pauseAudio; cbn [Player.raf
      Player.with_state].
    change (Player.animationId loaded)
      with (Some (Raf.next (Player.raf c))).
    unfold Raf.cancel; cbn [Raf.queue]; rewrite Hloaded; simpl.
    destruct (Nat.eq_dec (Raf.next (Player.raf c)) i) as [E|_]; [lia|].
    destruct (Nat.eq_dec (Raf.next (Player.raf c))
                         (Raf.next (Player.raf c))); [reflexivity|].
    contradiction. }
  split; [now rewrite Hloaded|]; split; [now rewrite Hpaused|].
  split; [rewrite Hpaused; exact (pauseAudio_silent loaded)|].
  split; [now rewrite Hqp|].
  assert (Hsize : AudioVisualizer.frame_size (Player.state paused)
                  = Some (w, h)).
  { rewrite Hpaused; unfold AudioVisualizer.frame_size,
      AudioVisualizer.source; simpl; now rewrite Hinput. }
  clearbody paused; clear - Hqp Hsize.
  revert paused i Hqp Hsize.
  induction frames as [|[now capture] frames IH]; intros paused i Hqp Hsize;
    cbn [Player.refreshes]; [now rewrite Hqp|].
  rewrite (refresh_one now capture paused i Hqp).
  match goal with
  | |- context [Player.callback now (capture 0%nat) ?c0] =>
      destruct (callback_frame now (capture 0%nat) c0 w h Hsize)
        as [Hraf _];
      apply (IH (Player.callback now (capture 0%nat) c0)
                (Raf.next (Player.raf c0)));
      [now rewrite Hraf
      |rewrite callback_state; now apply updateAudio_frame_size]
  end.
Qed.

Lemma second_load_starts_second_loop_witness :
  single_loop running /\
  Raf.queue (Player.raf running) <> [] /\
  AudioVisualizer.inputType (Player.state running) = AudioVisualizer.image /\
  length
    (Raf.queue
       (Player.raf
          (Player.togglePlay (Player.image_loaded 2 2 checker running))))
  = 1%nat.
Proof.
  assert (Hq : Raf.queue (Player.raf running) <> []) by discriminate.
  assert (Hin : AudioVisualizer.inputType (Player.state running)
                = AudioVisualizer.image) by reflexivity.
  split; [exact running_single|]; split; [exact Hq|]; split; [exact Hin|].
  exact (proj1 (proj2 (proj2 (proj2
           (second_load_starts_second_loop running 2 2 checker []
              running_single Hq Hin))))).
Defined.

(** X12.  Choosing the image or the video input while a loop runs stops
    nothing: the voices, the cursor, the play flag and the waiting tick
    stay.  Until a file has loaded the play button only opens the file
    dialogue, however often it is pressed. *)
Theorem media_choice_keeps_running (value : AudioVisualizer.InputType)
    (a : Player.Acquisition) (c : Player.Component) (presses : nat) :
  Player.media_input value = true ->
  let c' := Player.handleInputChange value a c in
  let pressed := Nat.iter presses Player.togglePlay c' in
  (AudioVisualizer.synths (Player.state c')
   = AudioVisualizer.synths (Player.state c) /\
   AudioVisualizer.cursorPosition (Player.state c')
   = AudioVisualizer.cursorPosition (Player.state c) /\
   AudioVisualizer.isPlaying (Player.state c')
   = AudioVisualizer.isPlaying (Player.state c) /\
   Player.raf c' = Player.raf c) /\
  (Player.state pressed = Player.state c' /\
   Player.raf pressed = Player.raf c' /\
   Player.mediaLoaded pressed = false /\
   Player.showModal pressed = true).
Proof.
  intros Hmedia c' pressed.
  assert (Hc' : c' = {| Player.state :=
                          {| AudioVisualizer.inputType := value;
                             AudioVisualizer.imageData :=
                               AudioVisualizer.imageData (Player.state c);
                             AudioVisualizer.videoElement :=
                               AudioVisualizer.videoElement (Player.state c);
                             AudioVisualizer.canvas_width :=
                               AudioVisualizer.canvas_width (Player.state c);
                             AudioVisualizer.canvas_height :=
                               AudioVisualizer.canvas_height (Player.state c);
                             AudioVisualizer.cursorPosition :=
                               AudioVisualizer.cursorPosition
                                 (Player.state c);
                             AudioVisualizer.isPlaying :=
                               AudioVisualizer.isPlaying (Player.state c);
                             AudioVisualizer.controls :=
                               AudioVisualizer.controls (Player.state c);
                             AudioVisualizer.synths :=
                               AudioVisualizer.synths (Player.state c) |};
                        Player.mediaLoaded := false;
                        Player.showModal := true;
                        Player.stream := Player.stream c;
                        Player.animationId := Player.animationId c;
                        Player.raf := Player.raf c |}).
  { unfold c', Player.handleInputChange; now rewrite Hmedia. }
  split; [rewrite Hc'; repeat split|].
  assert (Hpress : Player.togglePlay c' = c').
  { rewrite Hc'; unfold Player.togglePlay; simpl; now rewrite Hmedia. }
  assert (Hiter : pressed = c').
  { unfold pressed; induction presses as [|n IH]; simpl; [reflexivity|].
    now rewrite IH. }
  rewrite Hiter, Hc'; repeat split.
Qed.

Lemma media_choice_keeps_running_witness :
  Player.media_input AudioVisualizer.video = true /\
  Player.raf
    (Player.handleInputChange AudioVisualizer.video
       (Player.mkAcquisition false (AudioVisualizer.mkVideo 0 0)) running)
  = Player.raf running.
Proof.
  split; [reflexivity|].
  exact (proj2 (proj2 (proj2 (proj1
           (media_choice_keeps_running AudioVisualizer.video
              (Player.mkAcquisition false (AudioVisualizer.mkVideo 0 0))
              running 3 eq_refl))))).
Defined.

(** ** Sampling inside the frame (AudioVisualizer) *)

Section InsideFrame.

Import AudioVisualizer.

Lemma advance_on_axis (W : Z) (s p : Q) :
  0 < W -> (0 <= s)%Q -> (0 <= p)%Q -> on_axis W (advance W s p).
Proof.
  intros HW Hs Hp; unfold advance, on_axis.
  destruct (JS.geb (p + s) (inject_Z W)) eqn:G.
  - split; [apply Qle_refl|].
    change 0%Q with (inject_Z 0); now rewrite <- Zlt_Qlt.
  - apply geb_false in G; split; [|exact G].
    rewrite <- (Qplus_0_r 0); now apply Qplus_le_compat.
Qed.

Lemma column_on_axis (W : Z) (p : Q) :
  on_axis W p -> 0 <= Qfloor p < W.
Proof.
  intros [H0 HW]; split.
  - rewrite <- (Qfloor_Z 0); now apply Qfloor_resp_le.
  - rewrite Zlt_Qlt.
    eapply Qle_lt_trans; [apply Qfloor_le | exact HW].
Qed.

Lemma sample_y_within (H : Z) (v i : nat) :
  0 < H -> (i < v)%nat -> 0 <= sample_y H v i < H.
Proof.
  intros HH Hi; rewrite sample_y_div by lia; split.
  - apply Z.div_pos; nia.
  - apply Z.div_lt_upper_bound; nia.
Qed.

Lemma frequency_in_octave (k : Controls) (value : JS.num) :
  normalized value -> in_octave k (frequency k value).
Proof.
  intros (q & -> & H0 & H1); unfold frequency; simpl.
  eexists; split; [reflexivity|]; simpl.
  split; [reflexivity|]; split; lra.
Qed.

(** Every voice of a tick whose cursor is on the axis of a well-formed
    frame samples a pixel of the frame, and its frequency is in the
    octave. *)
Lemma voices_inside (st : State) (w h : Z) (captured : ImageData) :
  0 < w -> 0 < h -> frame_ok w h captured ->
  on_axis w (cursorPosition st) ->
  Forall (fun v => in_octave (controls st) (snd v))
         (voices st w h captured).
Proof.
  intros Hw Hh Hframe Hcursor; unfold voices.
  apply Forall_forall; intros v Hv.
  apply in_map_iff in Hv as (i & <- & Hi); apply in_seq in Hi.
  unfold voice; cbn [snd].
  apply frequency_in_octave.
  apply (colorValue_normalized w h captured Hw Hh Hframe).
  - now apply column_on_axis.
  - apply sample_y_within; lia.
Qed.

Lemma ramped_of_voices (P : option Tone.Freq -> Prop) (n : nat)
    (vs : list (Z * Z * option Tone.Freq)) :
  Forall (fun v => P (snd v)) vs ->
  Forall (fun r => P (snd r))
         (firstn n (combine (seq 0 (length vs)) (map snd vs))).
Proof.
  intro Hvs; apply Forall_forall; intros [i f] Hin; cbn [snd].
  assert (Hin' : In (i, f) (combine (seq 0 (length vs)) (map snd vs))).
  { rewrite <- (firstn_skipn n (combine _ _)); apply in_or_app; now left. }
  apply in_combine_r in Hin'.
  apply in_map_iff in Hin' as (v & <- & Hv).
  exact (proj1 (Forall_forall _ _) Hvs v Hv).
Qed.

End InsideFrame.

(** X13.  From a cursor on the scan axis and with a speed that is not
    negative, a loop fed well-formed frames of one size never reads outside
    them: at every tick every voice that is ramped gets a defined
    frequency, on the base note and within the octave chosen (from
    [note * 2^(octave - 4)] to [note * 2^(octave - 3)]), and the loop
    asks for the next tick every time. *)
Theorem image_loop_in_tune (frames : list (Q * ImageData))
    (st : AudioVisualizer.State) (w h : Z) :
  AudioVisualizer.frame_size st = Some (w, h) ->
  0 < w -> 0 < h ->
  Forall (fun f => frame_ok w h (snd f)) frames ->
  on_axis w (AudioVisualizer.cursorPosition st) ->
  (0 <= AudioVisualizer.cursorSpeed (AudioVisualizer.controls st))%Q ->
  length (ticks frames st) = length frames /\
  Forall (fun effects =>
            Forall (fun r => in_octave (AudioVisualizer.controls st) (snd r))
                   (ramped effects))
         (ticks frames st).
Proof.
  intros Hsize Hw Hh Hframes; revert st Hsize.
  induction Hframes as [|[now captured] frames Hframe Hframes IH];
    intros st Hsize Hcursor Hspeed; cbn [ticks]; [split; constructor|].
  destruct (updateAudio_effects now captured st w h Hsize)
    as (_ & Hramped & Hrequest).
  pose proof (updateAudio_frame_size now captured st w h Hsize) as Hsize'.
  destruct (updateAudio_keeps now captured st) as (_ & Hk & _).
  assert (Hcursor' : on_axis w (AudioVisualizer.cursorPosition
                                  (fst (AudioVisualizer.updateAudio
                                          now captured st)))).
  { unfold AudioVisualizer.updateAudio.
    unfold AudioVisualizer.frame_size in Hsize.
    destruct (AudioVisualizer.source st) as [[[w' h'] draw]|];
      [|discriminate].
    injection Hsize as -> ->; simpl.
    apply advance_on_axis; [exact Hw | exact Hspeed | apply Hcursor]. }
  destruct (AudioVisualizer.updateAudio now captured st) as [st' effects].
  cbn [fst snd] in *.
  assert (Hreq : existsb Player.is_request effects = true).
  { apply existsb_exists.
    exists AudioVisualizer.RequestAnimationFrame; now split. }
  rewrite Hreq.
  destruct (IH st' Hsize' Hcursor') as [Hlen Hrest];
    [now rewrite Hk|].
  split; [simpl; now rewrite Hlen|].
  constructor.
  - rewrite Hramped.
    apply ramped_of_voices, voices_inside; auto.
  - rewrite Hk in Hrest; exact Hrest.
Qed.

Lemma image_loop_in_tune_witness :
  AudioVisualizer.frame_size AudioVisualizer.still = Some (2, 2) /\
  0 < 2 /\ 0 < 2 /\
  Forall (fun f => frame_ok 2 2 (snd f)) [(1%Q, checker); (2%Q, checker)] /\
  on_axis 2 (AudioVisualizer.cursorPosition AudioVisualizer.still) /\
  (0 <= AudioVisualizer.cursorSpeed
          (AudioVisualizer.controls AudioVisualizer.still))%Q /\
  length (ticks [(1%Q, checker); (2%Q, checker)] AudioVisualizer.still)
  = 2%nat.
Proof.
  assert (Hok : frame_ok 2 2 checker)
    by (split; [reflexivity | repeat constructor; lia]).
  assert (Hframes : Forall (fun f => frame_ok 2 2 (snd f))
                           [(1%Q, checker); (2%Q, checker)])
    by (constructor; [exact Hok | constructor; [exact Hok | constructor]]).
  assert (Haxis : on_axis 2 (AudioVisualizer.cursorPosition
                               AudioVisualizer.still))
    by (split; [discriminate | reflexivity]).
  assert (Hspeed : (0 <= AudioVisualizer.cursorSpeed
                           (AudioVisualizer.controls
                              AudioVisualizer.still))%Q) by discriminate.
  split; [reflexivity|]; split; [lia|]; split; [lia|];
    split; [exact Hframes|]; split; [exact Haxis|]; split; [exact Hspeed|].
  refine (proj1 (image_loop_in_tune _ AudioVisualizer.still 2 2 eq_refl
                   _ _ Hframes Haxis Hspeed)); lia.
Defined.

(** ** MIDI (App) *)

Section SurfaceMidi.

Lemma command_of_div (status : Z) : Surface.command_of status = status / 16.
Proof. unfold Surface.command_of; now rewrite Z.shiftr_div_pow2 by lia. Qed.

Lemma channel_of_mod (status : Z) :
  Surface.channel_of status = status mod 16.
Proof.
  unfold Surface.channel_of.
  change 15 with (Z.ones 4); now rewrite Z.land_ones by lia.
Qed.

End SurfaceMidi.

(** X14.  App splits the status byte into command and channel without
    loss: [status = 16 * command + channel] with both below 16.  Its
    note-on branch is command 9, that is the status bytes 144..159, and
    its controller branch command 11, the status bytes 176..191: every
    channel is heard. *)
Theorem midi_status_split (status : Z) :
  0 <= status <= 255 ->
  status = 16 * Surface.command_of status + Surface.channel_of status /\
  0 <= Surface.command_of status < 16 /\
  0 <= Surface.channel_of status < 16 /\
  (Surface.command_of status = 9 <-> 144 <= status <= 159) /\
  (Surface.command_of status = 11 <-> 176 <= status <= 191).
Proof.
  intro H; rewrite command_of_div, channel_of_mod.
  pose proof (Z.div_mod status 16).
  pose proof (Z.mod_pos_bound status 16).
  repeat split; lia.
Qed.

Lemma midi_status_split_witness :
  0 <= 147 <= 255 /\
  147 = 16 * Surface.command_of 147 + Surface.channel_of 147.
Proof.
  assert (H : 0 <= 147 <= 255) by lia.
  split; [exact H|].
  exact (proj1 (midi_status_split 147 H)).
Defined.

(** X15.  A note-on with a velocity, on any of the 16 channels, gives the
    base note the name of the note played and every voice of the pool the
    same volume, the gain [velocity / 127] in decibels; the number of
    voices and everything else stay.  With velocity 0 nothing changes. *)
Theorem midi_note_on (toNote : Z -> string) (gainToDb : Q -> Q)
    (status data1 data2 : Z) (rest : list Z) (st : App.State) :
  144 <= status <= 159 -> 0 < data2 ->
  let st' :=
    App.with_synths
      (map (Tone.set_volume (gainToDb (inject_Z data2 / 127)%Q))
           (App.synths st))
      (Surface.with_baseNote (toNote data1) st) in
  Surface.getMIDIMessage toNote gainToDb (status :: data1 :: data2 :: rest) st
  = Some st' /\
  Forall (fun s => Tone.volume s = gainToDb (inject_Z data2 / 127)%Q)
         (App.synths st') /\
  length (App.synths st') = length (App.synths st) /\
  map Tone.oscillator (App.synths st') = map Tone.oscillator (App.synths st) /\
  Surface.getMIDIMessage toNote gainToDb (status :: data1 :: 0 :: rest) st
  = Some st.
Proof.
  intros Hstatus Hdata2 st'.
  assert (Hcommand : Surface.command_of status = 9).
  { apply midi_status_split; lia. }
  unfold Surface.getMIDIMessage.
  change (JS.get (status :: data1 :: data2 :: rest) 0) with (Some status).
  change (JS.get (status :: data1 :: data2 :: rest) 1) with (Some data1).
  change (JS.get (status :: data1 :: data2 :: rest) 2) with (Some data2).
  change (JS.get (status :: data1 :: 0 :: rest) 0) with (Some status).
  change (JS.get (status :: data1 :: 0 :: rest) 1) with (Some data1).
  change (JS.get (status :: data1 :: 0 :: rest) 2) with (Some 0).
  cbv iota beta zeta; rewrite Hcommand; cbv iota beta.
  destruct (Z.ltb_spec 0 data2) as [_|]; [|lia].
  split; [reflexivity|]; split; [|split; [|split]].
  - unfold st'; simpl; apply Forall_forall; intros s Hs.
    apply in_map_iff in Hs as (s0 & <- & _); reflexivity.
  - unfold st'; simpl; apply length_map.
  - unfold st'; simpl; rewrite map_map; apply map_ext; reflexivity.
  - reflexivity.
Qed.

Lemma midi_note_on_witness :
  144 <= 147 <= 159 /\ 0 < 100 /\
  length
    (App.synths
       (App.with_synths
          (map (Tone.set_volume ((fun g => g) (inject_Z 100 / 127)%Q))
               (App.synths App.playing))
          (Surface.with_baseNote ((fun _ => "C4"%string) 60) App.playing)))
  = length (App.synths App.playing).
Proof.
  assert (H1 : 144 <= 147 <= 159) by lia.
  assert (H2 : 0 < 100) by lia.
  split; [exact H1|]; split; [exact H2|].
  exact (proj1 (proj2 (proj2
           (midi_note_on (fun _ => "C4"%string) (fun g => g) 147 60 100 []
              App.playing H1 H2)))).
Defined.

(** X16.  The modulation wheel, on any channel, sets the cursor speed to
    [value / 127 * 10] and nothing else: for a data byte that is a speed
    from 0 to 10 which does not decrease when the value grows.  A message
    without its value byte has no speed to give. *)
Theorem midi_cursor_speed (toNote : Z -> string) (gainToDb : Q -> Q)
    (status v v' : Z) (rest : list Z) (st : App.State) :
  176 <= status <= 191 -> data_byte v -> data_byte v' -> v <= v' ->
  Surface.getMIDIMessage toNote gainToDb (status :: 1 :: v :: rest) st
  = Some (Surface.with_cursorSpeed (inject_Z v / 127 * 10)%Q st) /\
  (0 <= inject_Z v / 127 * 10)%Q /\
  (inject_Z v / 127 * 10 <= 10)%Q /\
  (inject_Z v / 127 * 10 <= inject_Z v' / 127 * 10)%Q /\
  Surface.getMIDIMessage toNote gainToDb [status; 1] st = None.
Proof.
  intros Hstatus Hv Hv' Hle; unfold data_byte in *.
  assert (Hcommand : Surface.command_of status = 11).
  { apply midi_status_split; lia. }
  unfold Surface.getMIDIMessage.
  change (JS.get (status :: 1 :: v :: rest) 0) with (Some status).
  change (JS.get (status :: 1 :: v :: rest) 1) with (Some 1).
  change (JS.get (status :: 1 :: v :: rest) 2) with (Some v).
  change (JS.get [status; 1] 0) with (Some status).
  change (JS.get [status; 1] 1) with (Some 1).
  change (JS.get [status; 1] 2) with (@None Z).
  cbv iota beta zeta; rewrite Hcommand; cbv iota beta.
  split; [reflexivity|].
  assert (H0 : (0 <= inject_Z v)%Q)
    by (change 0%Q with (inject_Z 0); rewrite <- Zle_Qle; lia).
  assert (H1 : (inject_Z v <= 127)%Q)
    by (change 127%Q with (inject_Z 127); rewrite <- Zle_Qle; lia).
  assert (H2 : (inject_Z v <= inject_Z v')%Q) by (rewrite <- Zle_Qle; lia).
  repeat split; try reflexivity.
  - apply Qmult_le_0_compat; [|discriminate].
    apply Qle_shift_div_l; [reflexivity | lra].
  - setoid_replace 10%Q with (127 / 127 * 10)%Q at 2 by reflexivity.
    apply Qmult_le_compat_r; [|discriminate].
    apply Qmult_le_compat_r; [exact H1 | discriminate].
  - apply Qmult_le_compat_r; [|discriminate].
    apply Qmult_le_compat_r; [exact H2 | discriminate].
Qed.

Lemma midi_cursor_speed_witness :
  176 <= 178 <= 191 /\ data_byte 0 /\ data_byte 127 /\ 0 <= 127 /\
  Surface.getMIDIMessage (fun _ => "C4"%string) (fun g => g) [178; 1; 0]
    App.playing
  = Some (Surface.with_cursorSpeed (inject_Z 0 / 127 * 10)%Q App.playing).
Proof.
  assert (H1 : 176 <= 178 <= 191) by lia.
  assert (H2 : data_byte 0) by (unfold data_byte; lia).
  assert (H3 : data_byte 127) by (unfold data_byte; lia).
  assert (H4 : 0 <= 127) by lia.
  repeat (split; [assumption|]).
  exact (proj1 (midi_cursor_speed (fun _ => "C4"%string) (fun g => g)
                  178 0 127 [] App.playing H1 H2 H3 H4)).
Defined.

(** ** MIDI inputs (App) *)

Section SurfacePorts.

Lemma set_nth_error {A} (l : list A) (i j : nat) (v : A) :
  nth_error (JS.set l i v) j
  = match nth_error l j with
    | Some a => Some (if (i =? j)%nat then v else a)
    | None => None
    end.
Proof.
  revert i j; induction l as [|a l IH]; intros i j.
  - now destruct i, j.
  - destruct i as [|i], j as [|j]; simpl; try reflexivity.
    + now destruct (nth_error l j).
    + apply IH.
Qed.

Lemma listen_nth_error (l : bool) (p j : nat) (ps : list Surface.Port) :
  nth_error (Surface.listen l p ps) j
  = match nth_error ps j with
    | Some a =>
        Some (if (p =? j)%nat then Surface.mkPort (Surface.id a) l else a)
    | None => None
    end.
Proof.
  unfold Surface.listen.
  destruct (nth_error ps p) as [port|] eqn:Hp.
  - rewrite set_nth_error.
    destruct (nth_error ps j) as [a|] eqn:Hj; [|reflexivity].
    destruct (Nat.eqb_spec p j) as [->|]; [|reflexivity].
    rewrite Hp in Hj; now injection Hj as ->.
  - destruct (nth_error ps j) as [a|] eqn:Hj; [|reflexivity].
    destruct (Nat.eqb_spec p j) as [->|]; [|reflexivity].
    rewrite Hp in Hj; discriminate.
Qed.

Lemma listen_ids (l : bool) (p : nat) (ps : list Surface.Port) :
  map Surface.id (Surface.listen l p ps) = map Surface.id ps.
Proof.
  apply nth_error_ext; intro j.
  rewrite !nth_error_map, listen_nth_error.
  destruct (nth_error ps j) as [a|]; [|reflexivity]; simpl.
  now destruct (p =? j)%nat.
Qed.

Lemma find_input_valid (value : string) (m : Surface.Ports) (p : nat) :
  Surface.find_input value m = Some p ->
  In p (Surface.midiInputs m) /\
  exists port, nth_error (Surface.ports m) p = Some port /\
               Surface.id port = value.
Proof.
  unfold Surface.find_input; intro H.
  apply find_some in H as [Hin Hp]; split; [exact Hin|].
  destruct (nth_error (Surface.ports m) p) as [port|]; [|discriminate].
  exists port; split; [reflexivity|].
  now apply String.eqb_eq.
Qed.

Lemma handleMidiInputChange_one (value : string) (m : Surface.Ports) :
  one_listener m -> one_listener (Surface.handleMidiInputChange value m).
Proof.
  intros Hm j port; unfold Surface.handleMidiInputChange.
  cbn [Surface.ports Surface.selectedMidiInput].
  set (ps1 := match Surface.selectedMidiInput m with
              | Some p => Surface.listen false p (Surface.ports m)
              | None => Surface.ports m
              end).
  assert (Hquiet : forall j port,
             nth_error ps1 j = Some port -> Surface.listening port = false).
  { intros j0 port0; unfold ps1.
    destruct (Surface.selectedMidiInput m) as [p0|] eqn:Hsel.
    - rewrite listen_nth_error.
      destruct (nth_error (Surface.ports m) j0) as [a|] eqn:Ha;
        [|discriminate].
      destruct (Nat.eqb_spec p0 j0) as [->|Hne]; intros [= <-];
        [reflexivity|].
      destruct (Surface.listening a) eqn:Hl; [|reflexivity].
      apply (Hm j0 a Ha) in Hl; congruence.
    - intro Ha.
      destruct (Surface.listening port0) eqn:Hl; [|reflexivity].
      apply (Hm j0 port0 Ha) in Hl; congruence. }
  destruct (Surface.find_input value m) as [p|] eqn:Hfind.
  - rewrite listen_nth_error.
    destruct (nth_error ps1 j) as [a|] eqn:Ha; [|discriminate].
    destruct (Nat.eqb_spec p j) as [->|Hne]; intros [= <-]; simpl.
    + split; auto.
    + rewrite (Hquiet j a Ha); split; [discriminate | congruence].
  - intro Ha; rewrite (Hquiet j port Ha); split; discriminate.
Qed.

End SurfacePorts.

(** X17.  However the MIDI input selector is used, the message listener is
    on the selected port and on no other, so never on two ports at once;
    the selected port is one of [midiInputs] and has the id chosen, and
    the ids of the ports do not change. *)
Theorem one_midi_listener (values : list string) (m : Surface.Ports) :
  one_listener m ->
  let m' := fold_left (fun m v => Surface.handleMidiInputChange v m)
                      values m in
  one_listener m' /\
  map Surface.id (Surface.ports m') = map Surface.id (Surface.ports m) /\
  (forall p q a b,
     nth_error (Surface.ports m') p = Some a ->
     nth_error (Surface.ports m') q = Some b ->
     Surface.listening a = true -> Surface.listening b = true -> p = q) /\
  forall (v : string) (p : nat),
    Surface.selectedMidiInput (Surface.handleMidiInputChange v m') = Some p ->
    In p (Surface.midiInputs m') /\
    exists port,
      nth_error (Surface.ports (Surface.handleMidiInputChange v m')) p
      = Some port /\
      Surface.id port = v /\ Surface.listening port = true.
Proof.
  intros Hm m'.
  assert (Hinv : one_listener m' /\
                 map Surface.id (Surface.ports m')
                 = map Surface.id (Surface.ports m)).
  { unfold m'; clear m'; revert m Hm.
    induction values as [|v values IH]; intros m Hm; simpl; [now split|].
    destruct (IH (Surface.handleMidiInputChange v m)) as [H1 H2];
      [now apply handleMidiInputChange_one|].
    split; [exact H1|]; rewrite H2.
    unfold Surface.handleMidiInputChange; cbn [Surface.ports].
    destruct (Surface.find_input v m), (Surface.selectedMidiInput m);
      now rewrite ?listen_ids. }
  destruct Hinv as [Hone Hids].
  split; [exact Hone|]; split; [exact Hids|]; split.
  - intros p q a b Ha Hb Hla Hlb.
    apply (Hone p a Ha) in Hla; apply (Hone q b Hb) in Hlb; congruence.
  - intros v p Hsel.
    pose proof (handleMidiInputChange_one v m' Hone) as Hone'.
    change (Surface.selectedMidiInput (Surface.handleMidiInputChange v m'))
      with (Surface.find_input v m') in Hsel.
    destruct (find_input_valid v m' p Hsel) as (Hin & port & Hport & Hid).
    split; [exact Hin|].
    assert (Hids' : map Surface.id
                      (Surface.ports (Surface.handleMidiInputChange v m'))
                    = map Surface.id (Surface.ports m')).
    { unfold Surface.handleMidiInputChange; cbn [Surface.ports].
      destruct (Surface.find_input v m'), (Surface.selectedMidiInput m');
        now rewrite ?listen_ids. }
    assert (Hnth : nth_error
                     (map Surface.id
                        (Surface.ports (Surface.handleMidiInputChange v m')))
                     p = Some v).
    { rewrite Hids', nth_error_map, Hport; simpl; now rewrite Hid. }
    rewrite nth_error_map in Hnth.
    destruct (nth_error (Surface.ports (Surface.handleMidiInputChange v m'))
                        p) as [port'|] eqn:Hport'; [|discriminate].
    injection Hnth as Hid'.
    exists port'; split; [reflexivity|]; split; [exact Hid'|].
    apply (Hone' p port' Hport'); exact Hsel.
Qed.

Lemma one_midi_listener_witness :
  one_listener two_ports /\
  one_listener
    (fold_left (fun m v => Surface.handleMidiInputChange v m)
               ["pads"%string; "keys"%string; "drums"%string] two_ports).
Proof.
  assert (H : one_listener two_ports).
  { intros [|[|[|p]]] port Hp; simpl in Hp; try discriminate;
      injection Hp as <-; simpl; split; discriminate. }
  split; [exact H|].
  exact (proj1 (one_midi_listener ["pads"%string; "keys"%string; "drums"%string]
                  two_ports H)).
Defined.

(** ** The notes of a tick (App) *)

Section ScanShape.

Variable toFrequency : string -> Z -> Q.

Lemma get_int_In {A} (l : list A) (i : JS.int) (a : A) :
  JS.get_int l i = Some a -> In a l.
Proof.
  destruct i as [k|]; [|discriminate].
  unfold JS.get_int, JS.get.
  destruct (k <? 0); [discriminate|]; apply nth_error_In.
Qed.

(** Whatever the brightness, the step is a step of the scale or 0. *)
Lemma scaleStep_range (s : App.ScaleName) (b : JS.num) :
  0 <= App.scaleStep (App.scales s) b <= 12.
Proof.
  unfold App.scaleStep.
  destruct (JS.get_int _ _) as [step|] eqn:E; [|lia].
  apply get_int_In in E.
  destruct (step =? 0); [lia|].
  destruct s; simpl in E; intuition lia.
Qed.

Lemma semitones_range (step : Z) :
  0 <= step <= 12 ->
  (0 <= inject_Z step / 12)%Q /\ (inject_Z step / 12 <= 1)%Q.
Proof.
  intro H; unfold Qle, Qdiv, Qmult, Qinv, inject_Z; simpl; lia.
Qed.

Lemma forEach_notes st c x t (pts : list JS.int) :
  forall (index : nat) (pool : list Tone.Synth) i f t',
    In (App.TriggerAttackRelease i f t')
       (snd (fst (App.forEach toFrequency st c x t pts index pool))) ->
    t' = t /\ (index <= i < index + length pts)%nat /\
    Tone.base f = toFrequency (App.baseNote st) (App.octave st) /\
    (0 <= Tone.exponent f)%Q /\ (Tone.exponent f <= 1)%Q.
Proof.
  induction pts as [|y pts IH]; intros index pool i f t' Hin;
    [destruct Hin|].
  cbn [App.forEach] in Hin.
  destruct (nth_error pool index) as [synth|]; [|destruct Hin].
  match type of Hin with
  | context [App.forEach _ _ _ _ _ _ _ ?p] =>
      specialize (IH (S index) p i f t');
      destruct (App.forEach toFrequency st c x t pts (S index) p)
        as [[p1 e1] k1]
  end.
  cbn [fst snd] in *.
  destruct Hin as [Hin|[Hin|Hin]]; [discriminate| |].
  - injection Hin as <- <- <-.
    split; [reflexivity|]; split; [simpl; lia|]; split; [reflexivity|].
    apply semitones_range, scaleStep_range.
  - destruct (IH Hin) as (? & ? & ? & ? & ?).
    repeat split; auto; simpl; lia.
Qed.

Lemma drawing_kind x img hgt pts e :
  In e (App.drawing x img hgt pts) ->
  match e with
  | App.SetSynth _ _ _ _ | App.TriggerAttackRelease _ _ _ => False
  | _ => True
  end.
Proof.
  unfold App.drawing; intros [<-|[<-|Hin]]; try exact I.
  apply in_app_or in Hin as [Hin|[<-|[]]]; [|exact I].
  apply in_map_iff in Hin as (y & <- & _); exact I.
Qed.

(** What a tick sets and triggers, its [forEach] does. *)
Lemma scan_voices_on (t : Q) (st : App.State) (c : App.Canvas)
    (e : App.Effect) :
  App.canvas st = Some c ->
  In e (App.effects_of (App.scan toFrequency t st)) ->
  match e with
  | App.SetSynth _ _ _ _ | App.TriggerAttackRelease _ _ _ =>
      In e (snd (fst (App.forEach toFrequency st c
                        (Qfloor (App.cursorPosition st)) t
                        (App.samplePoints st) 0 (App.synths st))))
  | _ => True
  end.
Proof.
  intro Hc; unfold App.scan, App.effects_of; rewrite Hc.
  destruct (App.isPlaying st); [|intros []].
  destruct (App.due t st).
  - destruct (App.forEach toFrequency st c (Qfloor (App.cursorPosition st))
                t (App.samplePoints st) 0 (App.synths st))
      as [[pool onsets] completion].
    assert (Hon : In e onsets ->
                  match e with
                  | App.SetSynth _ _ _ _ | App.TriggerAttackRelease _ _ _ =>
                      In e (snd (fst (pool, onsets, completion)))
                  | _ => True
                  end).
    { intro Hin; destruct e; try exact I; exact Hin. }
    destruct completion; [|exact Hon].
    cbn [App.cursorSpeed App.cursorPosition App.direction
         App.with_lastPlayTime App.with_synths].
    destruct (App.move (App.width c) (App.cursorSpeed st)
                (App.cursorPosition st) (App.direction st)) as [p d].
    change (App.imageData
              (App.with_cursor p d
                 (App.with_lastPlayTime t (App.with_synths pool st))))
      with (App.imageData st).
    destruct (App.imageData st) as [img|]; cbn [fst snd]; [|exact Hon].
    intro Hin; apply in_app_or in Hin as [Hin|Hin]; [now apply Hon|].
    apply drawing_kind in Hin; destruct e; try exact I; destruct Hin.
  - destruct (App.move (App.width c) (App.cursorSpeed st)
                (App.cursorPosition st) (App.direction st)) as [p d].
    change (App.imageData (App.with_cursor p d st)) with (App.imageData st).
    destruct (App.imageData st) as [img|]; cbn [fst snd]; [|intros []].
    intro Hin; apply drawing_kind in Hin.
    destruct e; try exact I; destruct Hin.
Qed.

Lemma scan_no_canvas (t : Q) (st : App.State) :
  App.canvas st = None -> App.scan toFrequency t st = (st, [], App.Returns).
Proof.
  intro Hc; unfold App.scan; rewrite Hc; now destruct (App.isPlaying st).
Qed.

Lemma scan_voices (t : Q) (st : App.State) (e : App.Effect) :
  In e (App.effects_of (App.scan toFrequency t st)) ->
  exists c,
    App.canvas st = Some c /\
    match e with
    | App.SetSynth _ _ _ _ | App.TriggerAttackRelease _ _ _ =>
        In e (snd (fst (App.forEach toFrequency st c
                          (Qfloor (App.cursorPosition st)) t
                          (App.samplePoints st) 0 (App.synths st))))
    | _ => True
    end.
Proof.
  intro Hin; destruct (App.canvas st) as [c|] eqn:Hc.
  - exists c; split; [reflexivity|]; now apply scan_voices_on.
  - rewrite scan_no_canvas in Hin by exact Hc; destruct Hin.
Qed.

Lemma Hz_octave (b e : Q) :
  (0 <= b)%Q -> (0 <= e)%Q -> (e <= 1)%Q ->
  (Q2R b <= Tone.Hz (Tone.mkFreq b e) <= 2 * Q2R b)%R.
Proof.
  intros Hb H0 H1.
  pose proof (Hz_monotone b 0 e Hb H0) as Hlo.
  pose proof (Hz_monotone b e 1 Hb H1) as Hhi.
  unfold Tone.Hz in *; simpl in *.
  rewrite RMicromega.Q2R_0, Rpower_O in Hlo by lra.
  rewrite RMicromega.Q2R_1, Rpower_1 in Hhi by lra.
  lra.
Qed.

End ScanShape.

(** X18.  Every note a tick of App triggers is triggered at the clock
    reading of the tick, on a voice that has a sample point, and at the
    base frequency raised by between 0 and 12 semitones: whatever the image,
    the cursor and the sample points, its pitch lies within the octave
    above the base frequency. *)
Theorem notes_within_octave (toFrequency : string -> Z -> Q) (t : Q)
    (st : App.State) (i : nat) (f : Tone.Freq) (t' : Q) :
  In (App.TriggerAttackRelease i f t')
     (App.effects_of (App.scan toFrequency t st)) ->
  let baseFreq := toFrequency (App.baseNote st) (App.octave st) in
  t' = t /\
  (i < length (App.samplePoints st))%nat /\
  Tone.base f = baseFreq /\
  (0 <= Tone.exponent f)%Q /\ (Tone.exponent f <= 1)%Q /\
  ((0 <= baseFreq)%Q ->
   (Q2R baseFreq <= Tone.Hz f <= 2 * Q2R baseFreq)%R).
Proof.
  intros Hin baseFreq.
  apply scan_voices in Hin as (c & _ & Hin).
  apply forEach_notes in Hin as (Ht & Hi & Hb & H0 & H1).
  split; [exact Ht|]; split; [simpl in Hi; lia|]; split; [exact Hb|].
  split; [exact H0|]; split; [exact H1|].
  intro Hpos; destruct f as [b e]; simpl in *; subst b.
  now apply Hz_octave.
Qed.

Lemma notes_within_octave_witness :
  exists f : Tone.Freq,
    In (App.TriggerAttackRelease 0 f (1 # 2))
       (App.effects_of (App.scan (fun _ _ => 196%Q) (1 # 2) App.playing)) /\
    (Tone.exponent f <= 1)%Q.
Proof.
  assert (H : exists f : Tone.Freq,
             In (App.TriggerAttackRelease 0 f (1 # 2))
                (App.effects_of
                   (App.scan (fun _ _ => 196%Q) (1 # 2) App.playing))).
  { vm_compute; eexists; right; left; reflexivity. }
  destruct H as [f H]; exists f; split; [exact H|].
  exact (proj1 (proj2 (proj2 (proj2 (proj2
           (notes_within_octave (fun _ _ => 196%Q) (1 # 2) App.playing
                                0%nat f (1 # 2) H)))))).
Defined.

Section Envelopes.

Variable toFrequency : string -> Z -> Q.
Variables w h : Z.
Hypothesis Hw : 0 < w.
Hypothesis Hh : 0 < h.

(** The contrast around a sample point that is a number, on a frame or
    without one. *)
Lemma contrast_range (frame : option ImageData) (x : Z) (y : JS.int) :
  (forall img, frame = Some img -> frame_ok w h img) ->
  y <> None ->
  normalized (App.getContrastAroundPoint (App.mkCanvas w h) frame x y).
Proof.
  intros Hframe Hy; destruct y as [y|]; [clear Hy | congruence].
  destruct frame as [img|].
  - now apply contrast_normalized; [| |apply Hframe].
  - exists 0%Q; repeat split; discriminate.
Qed.

Lemma forEach_envelopes st x t (pts : list JS.int) :
  (forall img, App.imageData st = Some img -> frame_ok w h img) ->
  defined_points pts ->
  forall (index : nat) (pool : list Tone.Synth) i a r ty,
    In (App.SetSynth i a r ty)
       (snd (fst (App.forEach toFrequency st (App.mkCanvas w h) x t pts
                              index pool))) ->
    ty = App.waveform st /\
    exists k : Q,
      (0 <= k)%Q /\ (k <= 1)%Q /\
      a = Some ((5 # 1000) + (1 - k) * (95 # 1000))%Q /\
      r = Some ((1 # 10) + k * (9 # 10))%Q.
Proof.
  intros Hframe Hpts; induction Hpts as [|y pts Hy Hpts IH];
    intros index pool i a r ty Hin; [destruct Hin|].
  cbn [App.forEach] in Hin.
  destruct (nth_error pool index) as [synth|]; [|destruct Hin].
  match type of Hin with
  | context [App.forEach _ _ _ _ _ _ _ ?p] =>
      specialize (IH (S index) p i a r ty);
      destruct (App.forEach toFrequency st (App.mkCanvas w h) x t pts
                            (S index) p)
        as [[p1 e1] k1]
  end.
  cbn [fst snd] in *.
  destruct Hin as [Hin|[Hin|Hin]]; [|discriminate|now apply IH].
  destruct (contrast_range (App.imageData st) x y Hframe Hy)
    as (k & Hk & Hk0 & Hk1).
  rewrite Hk in Hin; cbn [JS.lift1] in Hin.
  injection Hin as <- <- <- <-.
  split; [reflexivity|]; exists k; repeat split; assumption.
Qed.

End Envelopes.

(** X19.  On a canvas that holds its frame (or no frame at all) and with
    sample points that are numbers, every envelope a tick of App sets
    comes from a contrast [k] between 0 and 1: the attack is
    [0.005 + (1 - k) * 0.095], between 5 ms and 100 ms, the release is
    [0.1 + k * 0.9], between 100 ms and 1 s, and the oscillator is the
    selected waveform. *)
Theorem envelope_ranges (toFrequency : string -> Z -> Q) (t : Q)
    (st : App.State) (w h : Z) (i : nat) (a r : JS.num)
    (ty : Tone.OscillatorType) :
  App.canvas st = Some (App.mkCanvas w h) ->
  0 < w -> 0 < h ->
  (forall img, App.imageData st = Some img -> frame_ok w h img) ->
  defined_points (App.samplePoints st) ->
  In (App.SetSynth i a r ty) (App.effects_of (App.scan toFrequency t st)) ->
  ty = App.waveform st /\
  exists k qa qr : Q,
    (0 <= k)%Q /\ (k <= 1)%Q /\
    a = Some qa /\ r = Some qr /\
    qa = ((5 # 1000) + (1 - k) * (95 # 1000))%Q /\
    qr = ((1 # 10) + k * (9 # 10))%Q /\
    (5 # 1000 <= qa)%Q /\ (qa <= 1 # 10)%Q /\
    (1 # 10 <= qr)%Q /\ (qr <= 1)%Q.
Proof.
  intros Hc Hw Hh Hframe Hpts Hin.
  apply (scan_voices_on toFrequency t st _ _ Hc) in Hin.
  apply (forEach_envelopes toFrequency w h Hw Hh st _ t _ Hframe Hpts)
    in Hin as (Hty & k & Hk0 & Hk1 & -> & ->).
  split; [exact Hty|].
  exists k; eexists; eexists.
  split; [exact Hk0|]; split; [exact Hk1|].
  split; [reflexivity|]; split; [reflexivity|].
  split; [reflexivity|]; split; [reflexivity|].
  repeat split; lra.
Qed.

Lemma envelope_ranges_witness :
  exists a r : JS.num,
    In (App.SetSynth 0 a r Tone.sine)
       (App.effects_of (App.scan (fun _ _ => 196%Q) (1 # 2) App.playing)) /\
    exists qa : Q, a = Some qa /\ (qa <= 1 # 10)%Q.
Proof.
  assert (H : exists a r : JS.num,
             In (App.SetSynth 0 a r Tone.sine)
                (App.effects_of
                   (App.scan (fun _ _ => 196%Q) (1 # 2) App.playing))).
  { vm_compute; eexists; eexists; left; reflexivity. }
  destruct H as (a & r & H); exists a, r; split; [exact H|].
  assert (Hframe : forall img,
             App.imageData App.playing = Some img -> frame_ok 2 2 img).
  { intros img [= <-]; split; [reflexivity | repeat constructor; lia]. }
  assert (Hpts : defined_points (App.samplePoints App.playing)).
  { repeat constructor; discriminate. }
  destruct (envelope_ranges (fun _ _ => 196%Q) (1 # 2) App.playing 2 2
              0%nat a r Tone.sine eq_refl eq_refl eq_refl Hframe Hpts H)
    as (_ & k & qa & qr & _ & _ & Ha & _ & _ & _ & _ & Hqa & _).
  exists qa; split; [exact Ha | exact Hqa].
Defined.

(** ** What a tick leaves as it was (App) *)

Section ScanState.

Variable toFrequency : string -> Z -> Q.

Lemma forEach_pool st c x t (pts : list JS.int) :
  forall (index : nat) (pool pool' : list Tone.Synth) effects completion,
    App.forEach toFrequency st c x t pts index pool
    = (pool', effects, completion) ->
    length pool' = length pool /\
    map Tone.volume pool' = map Tone.volume pool /\
    map Tone.sounding pool' = map Tone.sounding pool /\
    (forall j, (j < index)%nat \/ (index + length pts <= j)%nat ->
               nth_error pool' j = nth_error pool j) /\
    (forall i f t' s,
       In (App.TriggerAttackRelease i f t') effects ->
       nth_error pool' i = Some s ->
       Tone.oscillator s = App.waveform st).
Proof.
  induction pts as [|y pts IH];
    intros index pool pool' effects completion E.
  - injection E as <- <- <-.
    split; [reflexivity|]; split; [reflexivity|]; split; [reflexivity|].
    split; [reflexivity|].
    intros i f t' s [].
  - cbn [App.forEach] in E.
    destruct (nth_error pool index) as [synth|] eqn:Hn.
    + match type of E with
      | context [App.forEach _ _ _ _ _ _ _ ?p] =>
          destruct (App.forEach toFrequency st c x t pts (S index) p)
            as [[p1 e1] k1] eqn:E1
      end.
      injection E as <- <- <-.
      apply IH in E1 as (Hl & Hv & Hs & Hout & Hin).
      rewrite set_length in Hl.
      split; [exact Hl|]; split; [|split; [|split]].
      * rewrite Hv; apply nth_error_ext; intro j.
        rewrite !nth_error_map, set_nth_error.
        destruct (nth_error pool j) as [s|] eqn:Hj; [|reflexivity]; simpl.
        destruct (Nat.eqb_spec index j) as [->|]; [|reflexivity].
        rewrite Hn in Hj; now injection Hj as ->.
      * rewrite Hs; apply nth_error_ext; intro j.
        rewrite !nth_error_map, set_nth_error.
        destruct (nth_error pool j) as [s|] eqn:Hj; [|reflexivity]; simpl.
        destruct (Nat.eqb_spec index j) as [->|]; [|reflexivity].
        rewrite Hn in Hj; now injection Hj as ->.
      * intros j Hj; simpl in Hj.
        rewrite Hout by lia; rewrite set_nth_error.
        destruct (nth_error pool j) as [s|]; [|reflexivity].
        destruct (Nat.eqb_spec index j) as [->|]; [lia | reflexivity].
      * intros i f t' s [Hi|[Hi|Hi]] Hs'; [discriminate| |].
        -- injection Hi as <- _ _.
           rewrite Hout, set_nth_error, Hn, Nat.eqb_refl in Hs' by lia.
           now injection Hs' as <-.
        -- exact (Hin i f t' s Hi Hs').
    + injection E as <- <- <-.
      split; [reflexivity|]; split; [reflexivity|]; split; [reflexivity|].
      split; [reflexivity|].
      intros i f t' s [].
Qed.

Lemma with_same_cursor (st : App.State) (pool : list Tone.Synth) :
  App.with_cursor (App.cursorPosition st) (App.direction st)
    (App.with_lastPlayTime (App.lastPlayTime st) (App.with_synths pool st))
  = App.with_synths pool st.
Proof. now destruct st. Qed.

Lemma with_same_pool (st : App.State) (p : Q) (d : Z) :
  App.with_cursor p d
    (App.with_lastPlayTime (App.lastPlayTime st)
       (App.with_synths (App.synths st) st))
  = App.with_cursor p d st.
Proof. now destruct st. Qed.

(** The state a tick leaves: the one it found but for the pool, the time
    of the last onsets and the cursor; and its effects: those of its
    [forEach], if it ran, and then the drawing, if it got there. *)
Lemma scan_shape (t : Q) (st : App.State) :
  exists (pool : list Tone.Synth) (p : Q) (d : Z) (last : Q)
         (onsets rest : list App.Effect),
    App.state_of (App.scan toFrequency t st)
    = App.with_cursor p d
        (App.with_lastPlayTime last (App.with_synths pool st)) /\
    App.effects_of (App.scan toFrequency t st) = onsets ++ rest /\
    (forall e, In e rest -> App.is_onset e = false) /\
    (pool = App.synths st /\ onsets = [] \/
     exists c completion,
       App.canvas st = Some c /\
       App.forEach toFrequency st c (Qfloor (App.cursorPosition st)) t
                   (App.samplePoints st) 0 (App.synths st)
       = (pool, onsets, completion)) /\
    ((p, d) = (App.cursorPosition st, App.direction st) \/
     exists c,
       App.canvas st = Some c /\
       (p, d) = App.move (App.width c) (App.cursorSpeed st)
                         (App.cursorPosition st) (App.direction st)).
Proof.
  assert (Hdraw : forall x img hgt pts e,
             In e (App.drawing x img hgt pts) -> App.is_onset e = false).
  { intros x img hgt pts e Hin; apply drawing_kind in Hin.
    destruct e; try reflexivity; destruct Hin. }
  unfold App.scan, App.state_of, App.effects_of.
  destruct (App.isPlaying st);
    [destruct (App.canvas st) as [c|] eqn:Hc|].
  - destruct (App.due t st).
    + destruct (App.forEach toFrequency st c (Qfloor (App.cursorPosition st))
                  t (App.samplePoints st) 0 (App.synths st))
        as [[pool onsets] completion] eqn:E.
      destruct completion.
      * cbn [App.cursorSpeed App.cursorPosition App.direction
             App.with_lastPlayTime App.with_synths].
        destruct (App.move (App.width c) (App.cursorSpeed st)
                    (App.cursorPosition st) (App.direction st))
          as [p d] eqn:M.
        change (App.imageData
                  (App.with_cursor p d
                     (App.with_lastPlayTime t (App.with_synths pool st))))
          with (App.imageData st).
        destruct (App.imageData st) as [img|]; cbn [fst snd].
        -- exists pool, p, d, t, onsets; eexists.
           split; [reflexivity|]; split; [reflexivity|].
           split; [apply Hdraw|].
           split; [right; now exists c, App.Returns | right; now exists c].
        -- exists pool, p, d, t, onsets, [].
           split; [reflexivity|]; split; [now rewrite app_nil_r|].
           split; [intros e []|].
           split; [right; now exists c, App.Returns | right; now exists c].
      * exists pool, (App.cursorPosition st), (App.direction st),
          (App.lastPlayTime st), onsets, []; cbn [fst snd].
        split; [now rewrite with_same_cursor|].
        split; [now rewrite app_nil_r|].
        split; [intros e []|].
        split; [right; now exists c, App.Throws | now left].
    + destruct (App.move (App.width c) (App.cursorSpeed st)
                  (App.cursorPosition st) (App.direction st))
        as [p d] eqn:M.
      change (App.imageData (App.with_cursor p d st))
        with (App.imageData st).
      destruct (App.imageData st) as [img|]; cbn [fst snd].
      * exists (App.synths st), p, d, (App.lastPlayTime st), []; eexists.
        split; [now rewrite with_same_pool|]; split; [reflexivity|].
        split; [apply Hdraw|].
        split; [now left | right; now exists c].
      * exists (App.synths st), p, d, (App.lastPlayTime st), [], [].
        split; [now rewrite with_same_pool|]; split; [reflexivity|].
        split; [intros e []|].
        split; [now left | right; now exists c].
  - exists (App.synths st), (App.cursorPosition st), (App.direction st),
      (App.lastPlayTime st), [], []; cbn [fst snd].
    split; [now destruct st|]; split; [reflexivity|].
    split; [intros e []|]; split; now left.
  - exists (App.synths st), (App.cursorPosition st), (App.direction st),
      (App.lastPlayTime st), [], []; cbn [fst snd].
    split; [now destruct st|]; split; [reflexivity|].
    split; [intros e []|]; split; now left.
Qed.

(** A tick of a staffed component does not end in its [forEach]. *)
Lemma scan_staffed_throws (t : Q) (st : App.State) :
  (length (App.samplePoints st) <= length (App.synths st))%nat ->
  App.completion_of (App.scan toFrequency t st) = App.Throws ->
  App.imageData st = None.
Proof.
  intros Hlen; unfold App.scan, App.completion_of.
  destruct (App.isPlaying st); [|discriminate].
  destruct (App.canvas st) as [c|]; [|discriminate].
  destruct (App.due t st).
  - destruct (forEach_enough toFrequency st c
                (Qfloor (App.cursorPosition st)) t
                (App.samplePoints st) 0 (App.synths st))
      as (pool & onsets & -> & _); [simpl; lia|].
    cbn [App.cursorSpeed App.cursorPosition App.direction
         App.with_lastPlayTime App.with_synths].
    destruct (App.move (App.width c) (App.cursorSpeed st)
                (App.cursorPosition st) (App.direction st)) as [p d].
    change (App.imageData
              (App.with_cursor p d
                 (App.with_lastPlayTime t (App.with_synths pool st))))
      with (App.imageData st).
    now destruct (App.imageData st).
  - destruct (App.move (App.width c) (App.cursorSpeed st)
                (App.cursorPosition st) (App.direction st)) as [p d].
    change (App.imageData (App.with_cursor p d st)) with (App.imageData st).
    now destruct (App.imageData st).
Qed.

Lemma updateSamplePoints_staffed (st : App.State) (c : App.Canvas) :
  App.canvas st = Some c -> App.height c <> 0 ->
  (App.numberOfNotes st <= length (App.synths st))%nat ->
  staffed (App.updateSamplePoints st).
Proof.
  intros Hc Hh Hn; unfold App.updateSamplePoints; rewrite Hc.
  destruct (Z.eqb_spec (App.height c) 0) as [|_]; [contradiction|].
  unfold staffed; simpl; rewrite Hc.
  unfold App.layout; rewrite length_map, length_seq.
  repeat split; eauto.
Qed.

Lemma event_staffed (e : Surface.Event) (st : App.State) :
  tall e -> staffed st -> staffed (Surface.event toFrequency e st).
Proof.
  intros He ((c & Hc & Hh) & Hpts & Hn).
  destruct e as [t|now| | |s|forwards|n|w h captured];
    cbn [Surface.event].
  - destruct (scan_shape t st)
      as (pool & p & d & last & onsets & rest & -> & _ & _ & Hpool & _).
    unfold staffed; simpl.
    assert (Hl : length pool = length (App.synths st)).
    { destruct Hpool as [[-> _]|(c' & k & _ & E)]; [reflexivity|].
      now apply forEach_pool in E. }
    rewrite Hl; repeat split; eauto.
  - unfold staffed; simpl; repeat split; eauto.
  - unfold staffed; simpl; repeat split; eauto.
  - unfold Surface.forward; rewrite Hc.
    unfold staffed; simpl; repeat split; eauto.
  - unfold staffed; simpl; repeat split; eauto.
  - unfold staffed; simpl; repeat split; eauto.
  - unfold Surface.set_numberOfNotes.
    destruct (Nat.eqb_spec n 0) as [->|Hn0].
    + unfold staffed; simpl; repeat split; eauto; lia.
    + unfold App.updateSynths.
      apply updateSamplePoints_staffed with (c := c);
        [exact Hc | exact Hh | simpl; now rewrite repeat_length].
  - unfold Surface.image_loaded; rewrite Hc.
    apply updateSamplePoints_staffed with (c := App.mkCanvas w h);
      [reflexivity | exact He | exact Hn].
Qed.

End ScanState.





(** ** The cursor over a session (App) *)

Section CursorSession.

Variable toFrequency : string -> Z -> Q.

Lemma updateSamplePoints_cursor (st : App.State) :
  App.canvas (App.updateSamplePoints st) = App.canvas st /\
  App.cursorPosition (App.updateSamplePoints st) = App.cursorPosition st /\
  App.direction (App.updateSamplePoints st) = App.direction st /\
  App.cursorSpeed (App.updateSamplePoints st) = App.cursorSpeed st.
Proof.
  unfold App.updateSamplePoints.
  destruct (App.canvas st) as [c|] eqn:Hc; [|now rewrite Hc].
  destruct (App.height c =? 0); simpl; now rewrite Hc.
Qed.

Lemma floor_on_axis (L : Z) (p : Q) :
  on_axis L p -> 0 <= Qfloor p < L.
Proof.
  intros [H0 HL]; split.
  - change 0 with (Qfloor 0); now apply Qfloor_resp_le.
  - rewrite Zlt_Qlt.
    eapply Qle_lt_trans; [apply Qfloor_le | exact HL].
Qed.

Lemma event_framed (w : Z) (e : Surface.Event) (st : App.State) :
  0 < w -> as_wide w e -> framed w st ->
  framed w (Surface.event toFrequency e st).
Proof.
  intros Hw He (c & Hc & Hcw & Hp).
  destruct e as [t|now| | |s|forwards|n|w' h captured];
    cbn [Surface.event].
  - destruct (scan_shape toFrequency t st)
      as (pool & p & d & last & onsets & rest & -> & _ & _ & _ & Hmove).
    exists c; split; [exact Hc|]; split; [exact Hcw|]; simpl.
    destruct Hmove as [[= -> ->]|(c' & Hc' & Hmove)]; [exact Hp|].
    rewrite Hc in Hc'; injection Hc' as <-.
    replace p with (fst (App.move (App.width c) (App.cursorSpeed st)
                           (App.cursorPosition st) (App.direction st)))
      by now rewrite <- Hmove.
    rewrite Hcw; now apply move_on_axis.
  - exists c; now split.
  - exists c; split; [exact Hc|]; split; [exact Hcw|]; simpl.
    split; [apply Qle_refl|].
    unfold Qlt; simpl; lia.
  - unfold Surface.forward; rewrite Hc.
    exists c; split; [exact Hc|]; split; [exact Hcw|]; simpl.
    rewrite Hcw; split.
    + change 0%Q with (inject_Z 0); rewrite <- Zle_Qle; lia.
    + rewrite <- Zlt_Qlt; lia.
  - exists c; now split.
  - exists c; now split.
  - unfold Surface.set_numberOfNotes.
    destruct (n =? 0)%nat; [exists c; now split|].
    unfold App.updateSynths.
    destruct (updateSamplePoints_cursor
                (App.with_synths (repeat Tone.new_Synth
                                    (App.numberOfNotes
                                       (Surface.with_numberOfNotes n st)))
                   (Surface.with_numberOfNotes n st)))
      as (E1 & E2 & _).
    exists c; rewrite E1, E2; now split.
  - unfold Surface.image_loaded; rewrite Hc.
    destruct (updateSamplePoints_cursor
                (Surface.with_frame (App.mkCanvas w' h) captured st))
      as (E1 & E2 & _).
    exists (App.mkCanvas w' h); rewrite E1, E2; simpl in *.
    now split; [|split].
Qed.

(** A cursor that is beyond the right edge by the speed or more is taken
    back to where it was by every tick. *)
Lemma move_stranded (L : Z) (s p q : Q) (d : Z) :
  (0 <= s)%Q -> (inject_Z L + s <= p)%Q -> (q == p)%Q ->
  d = 1 \/ d = -1 ->
  (fst (App.move L s q d) == p)%Q /\
  (snd (App.move L s q d) = 1 \/ snd (App.move L s q d) = -1).
Proof.
  intros Hs Hp Hq Hd; unfold App.move.
  assert (G : JS.geb (q + inject_Z d * s) (inject_Z L) = true).
  { apply geb_true; rewrite Hq.
    destruct Hd as [->| ->].
    - change (inject_Z 1) with 1%Q; lra.
    - change (inject_Z (-1)) with (-1)%Q; lra. }
  rewrite G; simpl; split; [|lia].
  rewrite Hq, inject_Z_mult; simpl; ring.
Qed.

End CursorSession.





(** ** The onsets of a run (App) *)

Section RunOnsets.

Variable toFrequency : string -> Z -> Q.

(** A tick of a run that fires is at least the minimum spacing after the
    last onsets before the run. *)
Lemma run_fired_late (times : list Q) :
  forall (st : App.State) (j : nat) (tj : Q),
    scanning st ->
    nth_error times j = Some tj ->
    nth_error (snd (App.run toFrequency times st)) j = Some true ->
    (App.minTimeBetweenNotes <= tj - App.lastPlayTime st)%Q.
Proof.
  induction times as [|t times IH]; intros st j tj Hst Ht Hf;
    [destruct j; discriminate|].
  rewrite (run_scanning toFrequency t times st Hst) in Hf; cbn [snd] in Hf.
  destruct (scan_scanning toFrequency t st Hst) as (Hst1 & _ & _ & _ & Hl).
  destruct j as [|j]; simpl in Ht, Hf.
  - injection Ht as <-; injection Hf as Hf; now apply due_true.
  - pose proof (IH _ j tj Hst1 Ht Hf) as Hj; rewrite Hl in Hj.
    destruct (App.due t st) eqn:D; [|exact Hj].
    apply due_true in D; unfold App.minTimeBetweenNotes in *; lra.
Qed.

Lemma run_length (times : list Q) :
  forall st : App.State,
    scanning st ->
    length (snd (App.run toFrequency times st)) = length times.
Proof.
  induction times as [|t times IH]; intros st Hst; [reflexivity|].
  rewrite (run_scanning toFrequency t times st Hst); cbn [snd length].
  destruct (scan_scanning toFrequency t st Hst) as (Hst1 & _).
  now rewrite IH.
Qed.

End RunOnsets.


Lemma scanning_playing : scanning App.playing.
Proof. split; [exact playing_voiced | now exists checker]. Qed.


(** ** The loops of App *)

Section SurfaceLoops.

Variable toFrequency : string -> Z -> Q.

Lemma move_n_front (n : nat) (w : Z) (s p : Q) (d : Z) :
  App.move_n (S n) w s p d
  = App.move_n n w s (fst (App.move w s p d)) (snd (App.move w s p d)).
Proof.
  induction n as [|n IH].
  - simpl; now destruct (App.move w s p d).
  - change (App.move_n (S (S n)) w s p d)
      with (let '(p', d') := App.move_n (S n) w s p d in App.move w s p' d').
    rewrite IH; reflexivity.
Qed.

(** The cursor of a tick that has all it needs takes its step. *)
Lemma scan_scanning_cursor (t : Q) (st : App.State) (c : App.Canvas) :
  scanning st -> App.canvas st = Some c ->
  let st' := App.state_of (App.scan toFrequency t st) in
  (App.cursorPosition st', App.direction st')
  = App.move (App.width c) (App.cursorSpeed st) (App.cursorPosition st)
             (App.direction st) /\
  App.canvas st' = Some c /\
  App.cursorSpeed st' = App.cursorSpeed st.
Proof.
  intros ((Hplay & _ & Hpts & Hlen) & (img & Himg)) Hc st'; subst st'.
  unfold App.scan, App.state_of; rewrite Hplay, Hc.
  destruct (App.due t st).
  - destruct (forEach_enough toFrequency st c
                (Qfloor (App.cursorPosition st)) t
                (App.samplePoints st) 0 (App.synths st))
      as (pool & onsets & -> & _); [simpl; lia|].
    cbn [App.cursorSpeed App.cursorPosition App.direction
         App.with_lastPlayTime App.with_synths].
    destruct (App.move (App.width c) (App.cursorSpeed st)
                (App.cursorPosition st) (App.direction st)) as [p d].
    change (App.imageData
              (App.with_cursor p d
                 (App.with_lastPlayTime t (App.with_synths pool st))))
      with (App.imageData st).
    rewrite Himg; simpl; now rewrite Hc.
  - destruct (App.move (App.width c) (App.cursorSpeed st)
                (App.cursorPosition st) (App.direction st)) as [p d].
    change (App.imageData (App.with_cursor p d st)) with (App.imageData st).
    rewrite Himg; simpl; now rewrite Hc.
Qed.

Lemma request_count (t : Q) (st : App.State) :
  scanning st ->
  length (filter App.is_request
            (App.effects_of (App.scan toFrequency t st))) = 1%nat.
Proof.
  intros ((Hplay & (c & Hc) & Hpts & Hlen) & (img & Himg)).
  assert (Hdraw : forall x hgt pts,
             length (filter App.is_request (App.drawing x img hgt pts))
             = 1%nat).
  { intros x hgt pts; unfold App.drawing; cbn [filter App.is_request].
    rewrite filter_app; cbn [filter App.is_request].
    rewrite length_app; simpl.
    replace (filter App.is_request
               (map (fun y => App.FillRect (x - 2)
                                (JS.lift1 (fun y0 => y0 - 2) y) 4 4) pts))
      with (@nil App.Effect); [reflexivity|].
    induction pts as [|y pts IH]; [reflexivity | exact IH]. }
  unfold App.scan, App.effects_of; rewrite Hplay, Hc.
  destruct (App.due t st).
  - pose proof (forEach_no_request toFrequency st c
                  (Qfloor (App.cursorPosition st)) t (App.samplePoints st)
                  0 (App.synths st)) as Hno.
    destruct (forEach_enough toFrequency st c
                (Qfloor (App.cursorPosition st)) t
                (App.samplePoints st) 0 (App.synths st))
      as (pool & onsets & E & _); [simpl; lia|].
    rewrite E in Hno |- *; cbn [fst snd] in Hno.
    cbn [App.cursorSpeed App.cursorPosition App.direction
         App.with_lastPlayTime App.with_synths].
    destruct (App.move (App.width c) (App.cursorSpeed st)
                (App.cursorPosition st) (App.direction st)) as [p d].
    change (App.imageData
              (App.with_cursor p d
                 (App.with_lastPlayTime t (App.with_synths pool st))))
      with (App.imageData st).
    rewrite Himg; cbn [fst snd].
    rewrite filter_app, length_app, Hdraw.
    replace (filter App.is_request onsets) with (@nil App.Effect);
      [reflexivity|].
    clear E; induction onsets as [|e onsets IH]; [reflexivity|].
    simpl in Hno; apply orb_false_iff in Hno as [He Hno].
    simpl; rewrite He; now apply IH.
  - destruct (App.move (App.width c) (App.cursorSpeed st)
                (App.cursorPosition st) (App.direction st)) as [p d].
    change (App.imageData (App.with_cursor p d st)) with (App.imageData st).
    rewrite Himg; cbn [fst snd app]; apply Hdraw.
Qed.

(** The waiting calls of a loop that has all it needs: each takes its
    step and asks for the next. *)
Lemma callbacks_scanning (n : nat) (clock : nat -> Q) :
  forall (k : nat) (st : App.State) (c : App.Canvas),
    scanning st -> App.canvas st = Some c ->
    let r := Surface.callbacks toFrequency n clock k st in
    scanning (fst r) /\ snd r = n /\
    App.canvas (fst r) = Some c /\
    App.cursorSpeed (fst r) = App.cursorSpeed st /\
    (App.cursorPosition (fst r), App.direction (fst r))
    = App.move_n n (App.width c) (App.cursorSpeed st)
                 (App.cursorPosition st) (App.direction st).
Proof.
  induction n as [|n IH]; intros k st c Hst Hc r; subst r.
  - simpl; split; [exact Hst|]; split; [reflexivity|].
    split; [exact Hc|]; split; reflexivity.
  - cbn [Surface.callbacks].
    destruct (scan_scanning toFrequency (clock k) st Hst) as (Hst1 & _).
    destruct (scan_scanning_cursor (clock k) st c Hst Hc)
      as (Hmove & Hc1 & Hs1).
    pose proof (request_count (clock k) st Hst) as Hreq.
    destruct (App.scan toFrequency (clock k) st) as [[st1 effects] k1].
    unfold App.state_of, App.effects_of in *; cbn [fst snd] in *.
    specialize (IH (S k) st1 c Hst1 Hc1).
    destruct (Surface.callbacks toFrequency n clock (S k) st1)
      as [st2 requests].
    cbn [fst snd] in *.
    destruct IH as (H1 & H2 & H3 & H4 & H5).
    split; [exact H1|]; split; [rewrite Hreq, H2; reflexivity|].
    split; [exact H3|]; split; [congruence|].
    rewrite H5, Hs1, move_n_front.
    now rewrite <- Hmove.
Qed.

(** The waiting calls of a paused component return at once. *)
Lemma callbacks_paused (n : nat) (clock : nat -> Q) :
  forall (k : nat) (st : App.State),
    App.isPlaying st = false ->
    Surface.callbacks toFrequency n clock k st = (st, 0%nat).
Proof.
  induction n as [|n IH]; intros k st Hp; [reflexivity|].
  cbn [Surface.callbacks]; unfold App.scan; rewrite Hp.
  now rewrite IH.
Qed.

Lemma press_twice (t1 t2 : Q) (l : Surface.Loop) :
  scanning (Surface.state l) ->
  scanning (Surface.state (Surface.press t2 (Surface.press t1 l))) /\
  Surface.pending (Surface.press t2 (Surface.press t1 l))
  = S (Surface.pending l).
Proof.
  intros ((Hplay & Hc & Hpts & Hlen) & Himg).
  unfold Surface.press, App.togglePlay; simpl; rewrite Hplay; simpl.
  split; [|lia].
  repeat split; assumption.
Qed.

End SurfaceLoops.


